(** * Fluvia: the world / substrate memory model

    A shallow embedding of [src/src_ti/world.py] (classes [Channel],
    [World] and [World._windex]) together with the properties of its
    channel registry, layout planner, index resolver and accessors.

    Conventions of the embedding.
    - A Python [dict] is an association list in insertion order
      ([PyDict]); [d[k] = v] replaces in place or appends.
    - A method that mutates [self] is a function from the world to an
      outcome and the world the call leaves behind, so that the
      mutations done before a [raise] stay visible ([M]).
    - A tensor is its shape together with its elements, grouped per
      grid position in row-major order ([Tensor]).  The element type is
      a parameter: the code only ever copies elements and creates zero.
    - Indexing a tensor with an integer gives a view, indexing it with
      an integer array gives a fresh tensor; assignment through an
      index ([t[..., idx] = v]) writes into [t] in both cases.
    - The metadata dictionary of a descriptor is an object of its own:
      the constructor keeps the dictionary its caller passes and
      updates it in place.  The dictionaries live in a store, by
      address, and a descriptor holds the address of its dictionary;
      descriptors built with one dictionary share it. *)

From Stdlib Require Import String List ZArith Arith Lia Bool.
Import ListNotations.
Open Scope string_scope.
Open Scope list_scope.

Set Warnings "-register-all".


(** ** Python dictionaries *)

Module PyDict.

Section Dict.
Context {V : Type}.

Definition dict := list (string * V).

(** [d.get(k)] *)
Fixpoint get (k : string) (d : dict) : option V :=
  match d with
  | [] => None
  | (k', v) :: r => if String.eqb k k' then Some v else get k r
  end.

(** [k in d] *)
Definition contains (k : string) (d : dict) : bool :=
  match get k d with Some _ => true | None => false end.

(** [d[k] = v]: an existing key keeps its position. *)
Fixpoint set (k : string) (v : V) (d : dict) : dict :=
  match d with
  | [] => [(k, v)]
  | (k', v') :: r =>
      if String.eqb k k' then (k', v) :: r else (k', v') :: set k v r
  end.

(** [del d[k]] for a key that may be absent *)
Fixpoint remove (k : string) (d : dict) : dict :=
  match d with
  | [] => []
  | (k', v) :: r =>
      if String.eqb k k' then r else (k', v) :: remove k r
  end.

(** [d.keys()] *)
Definition keys (d : dict) : list string := map fst d.

(** [d.update(other)] *)
Definition update (d other : dict) : dict :=
  fold_left (fun acc kv => set (fst kv) (snd kv) acc) other d.

(** [d.items()] *)
Definition items (d : dict) : list (string * V) := d.

End Dict.

Arguments dict V : clear implicits.

End PyDict.

Import PyDict.

(** [range(a, b)] *)
Definition range (a b : nat) : list nat := seq a (b - a).

(** ** Taichi types and the Python values that reach the registry *)

Inductive prim := f16 | f32 | f64 | i8 | i16 | i32 | i64 | u8 | u16 | u32 | u64.

(** What [ti.types.struct] accepts for a member: a primitive type, a
    vector or matrix type, or another struct type. *)
Inductive ti_dtype :=
| TiPrim (p : prim)
| TiVector (n : nat) (p : prim)
| TiMatrix (n m : nat) (p : prim)
| TiStruct (members : list (string * ti_dtype)).

(** The Python values a caller hands to [add_channel] / [add_channels].
    [PDict d] is a dictionary given by its entries: one the code only
    reads, or, where the code keeps it, one that is not in the store of
    dictionaries yet.  [PObj r d] is a dictionary of the caller given
    by its identity, the name [r]: the dictionary that the store has
    under that name, and, as long as the store has none, a dictionary
    the world has not seen, with the entries [d].  A list is given by
    its elements. *)
Inductive pyval :=
| PNone
| PInt (z : Z)
| PStr (s : string)
| PList (l : list pyval)
| PDict (d : list (string * pyval))
| PObj (r : nat) (d : list (string * pyval))
| PType (t : ti_dtype).

(** ** Exceptions *)

(** The [ValueError]s the module raises, one constructor per message. *)
Inductive value_error :=
| AddChannelAfterAlloc   (* Cannot add channel after world memory is allocated *)
| AddChannelsAfterAlloc  (* Cannot add channels after world memory is allocated *)
| AllocTwice             (* Cannot allocate world memory twice *)
| ShapeNot2or3           (* Channel shape must be 2 or 3 dimensional *)
| ShapeNotWorld          (* Channel shape must be (w, h, ...) *)
| SubchannelNotTensor    (* Channel grouping only supported up to a depth of 2 *)
| GetNotAllocated        (* World memory not allocated yet, cannot get *)
| SetNotAllocated        (* World memory not allocated yet, cannot set *)
| SetShapeMulti          (* Cannot set channel(s) ... Expected shape *)
| SetShapeSingle         (* Cannot set channel ... Expected shape *)
| TiMultiIndex           (* Cannot return ti field for multi index *)
| IndicesReadOnly        (* World indices are read-only *)
| ChannelNotAllocated.   (* Channel ... has not been allocated yet *)

Inductive exn :=
| ValueError (m : value_error)
| KeyError (k : string)
| TypeError
| AttributeError
| IndexError
| RuntimeError
| TaichiError.

(** The names the specification gives to the failures. *)
Definition AlreadyAllocated (e : exn) : Prop :=
  e = ValueError AddChannelAfterAlloc \/
  e = ValueError AddChannelsAfterAlloc \/
  e = ValueError AllocTwice.

Definition UnsupportedIndexMode : exn := ValueError TiMultiIndex.

Definition NotAllocated (e : exn) : Prop :=
  e = ValueError GetNotAllocated \/ e = ValueError SetNotAllocated.

(** ** Methods that mutate an object and may raise *)

Module Exc.

(** A computation over a mutable object of type [S]: it ends with an
    exception or a value, and with the object as the call left it. *)
Definition M (S A : Type) : Type := S -> (exn + A) * S.

Definition ret {S A} (a : A) : M S A := fun s => (inr a, s).
Definition raise {S A} (e : exn) : M S A := fun s => (inl e, s).
Definition lift {S A} (r : exn + A) : M S A := fun s => (r, s).
Definition get_self {S} : M S S := fun s => (inr s, s).
Definition put_self {S} (s : S) : M S unit := fun _ => (inr tt, s).
Definition gets {S A} (f : S -> A) : M S A := fun s => (inr (f s), s).

Definition bind {S A B} (m : M S A) (f : A -> M S B) : M S B :=
  fun s =>
    match m s with
    | (inl e, s') => (inl e, s')
    | (inr a, s') => f a s'
    end.

Declare Scope exc_scope.
Delimit Scope exc_scope with exc.

Notation "x <- m ;; k" := (bind m (fun x => k))
  (at level 61, m at next level, right associativity) : exc_scope.
Notation "' p <- m ;; k" := (bind m (fun x => let p := x in k))
  (at level 61, p pattern, m at next level, right associativity) : exc_scope.
Notation "m ;; k" := (bind m (fun _ => k))
  (at level 61, right associativity) : exc_scope.

End Exc.

(** ** Channel descriptors *)

Module Channel.

Import Exc.
Local Open Scope exc_scope.

(** [link_to_mem] stores a scalar when there is a single index. *)
Inductive cindices :=
| IdxScalar (i : nat)
| IdxArray (l : list nat).

(** The address of a metadata dictionary in the store: [Named r] for
    the dictionary that a caller passes by its identity, as [PObj r],
    [Unnamed n] for one that a constructor made or that a caller passed
    by its entries. *)
Inductive addr :=
| Named (r : nat)
| Unnamed (n : nat).

Definition addr_eqb (a b : addr) : bool :=
  match a, b with
  | Named r, Named r' => Nat.eqb r r'
  | Unnamed n, Unnamed n' => Nat.eqb n n'
  | _, _ => false
  end.

(** A descriptor.  [memblock] only ever holds the world's buffer
    itself, so it is recorded as linked or not.  [metadata] is the
    address of the descriptor's metadata dictionary in the store. *)
Record t := mk {
  id : string;
  lims : pyval;                 (* np.array(...) of this value *)
  ti_dtype : pyval;
  memblock : bool;
  indices : option cindices;
  metadata : addr }.

(** The values of a metadata dictionary.  The reference to the parent
    kept under ['parent'] is recorded by the parent's id. *)
Inductive mdval :=
| MdPy (v : pyval)
| MdArray (v : pyval)
| MdIndices (i : cindices)
| MdChannel (c : t)
| MdParent (pid : string).

(** The store of metadata dictionaries, by address. *)
Definition heap := list (addr * dict mdval).

Fixpoint deref (r : addr) (h : heap) : option (dict mdval) :=
  match h with
  | [] => None
  | (r', d) :: rest => if addr_eqb r r' then Some d else deref r rest
  end.

Fixpoint write (r : addr) (d : dict mdval) (h : heap) : heap :=
  match h with
  | [] => [(r, d)]
  | (r', d') :: rest =>
      if addr_eqb r r' then (r', d) :: rest else (r', d') :: write r d rest
  end.

Definition unnamed_index (a : addr) : nat :=
  match a with
  | Unnamed n => n
  | Named _ => 0
  end.

(** The address of a new dictionary without a name: one the store has
    nothing at. *)
Definition fresh (h : heap) : addr :=
  Unnamed (S (list_max (map (fun e => unnamed_index (fst e)) h))).

Local Abbreviation M := (Exc.M heap).

(** The entries of [self.metadata] *)
Definition contents (c : t) (h : heap) : dict mdval :=
  match deref (metadata c) h with Some d => d | None => [] end.

(** [Channel.__getitem__] *)
Definition getitem (key : string) (c : t) (h : heap) : option mdval :=
  get key (contents c h).

(** [Channel.__setitem__] *)
Definition setitem (key : string) (value : mdval) (c : t) : M unit :=
  h <- get_self ;;
  put_self (write (metadata c) (set key value (contents c h)) h).

Definition default_lims : pyval := PList [PInt (-1); PInt 1].

Definition as_md (d : dict pyval) : dict mdval :=
  map (fun kv => (fst kv, MdPy (snd kv))) d.

(** Python truthiness, as used by [if lims]. *)
Definition truthy (h : heap) (v : pyval) : bool :=
  match v with
  | PNone => false
  | PInt z => negb (Z.eqb z 0)
  | PStr s => negb (String.eqb s "")
  | PList l => match l with [] => false | _ => true end
  | PDict d => match d with [] => false | _ => true end
  | PObj r d =>
      match deref (Named r) h with
      | Some [] => false
      | Some _ => true
      | None => match d with [] => false | _ => true end
      end
  | PType _ => true
  end.

(** Binding of [Channel(id, world, ti_dtype=ti_dtype, **kwargs)] to
    [__init__(self, id, world, ti_dtype, lims, metadata, **kwargs)]. *)
Definition bind_init (kwargs : dict pyval)
  : exn + (pyval * pyval * dict pyval) :=
  if contains "self" kwargs || contains "id" kwargs
     || contains "world" kwargs || contains "ti_dtype" kwargs
  then inl TypeError
  else
    let lims := match get "lims" kwargs with Some v => v | None => PNone end in
    let md := match get "metadata" kwargs with Some v => v | None => PNone end in
    inr (lims, md, remove "metadata" (remove "lims" kwargs)).

(** [metadata if metadata is not None else {}]: the address of the
    dictionary and its entries.  What has no [update] is refused, as
    the first [self.metadata.update] does. *)
Definition metadata_or_new (h : heap) (md : pyval)
  : exn + (addr * dict mdval) :=
  match md with
  | PNone => inr (fresh h, [])
  | PDict d => inr (fresh h, as_md d)
  | PObj r d =>
      inr (Named r,
           match deref (Named r) h with Some e => e | None => as_md d end)
  | _ => inl AttributeError
  end.

(** [Channel.__init__] *)
Definition init (id : string) (ti_dtype : pyval) (kwargs : dict pyval)
  : M t :=
  ' (lims, md, kwargs) <- lift (bind_init kwargs) ;;
  h <- get_self ;;
  let lims := if truthy h lims then lims else default_lims in
  ' (r, md0) <- lift (metadata_or_new h md) ;;
  let md1 := update md0 (as_md kwargs) in
  let field_md :=
    [("id", MdPy (PStr id)); ("ti_dtype", MdPy ti_dtype);
     ("lims", MdArray lims)] in
  put_self (write r (update md1 field_md) h) ;;
  ret (mk id lims ti_dtype false None r).

(** [Channel.link_to_mem]: the descriptor as the call leaves it. *)
Definition link_to_mem (inds : list nat) (c : t) : M t :=
  let indices :=
    match inds with
    | [i] => IdxScalar i
    | _ => IdxArray inds
    end in
  let c := mk (id c) (lims c) (ti_dtype c) true (Some indices) (metadata c) in
  setitem "indices" (MdIndices indices) c ;;
  ret c.

(** [Channel.add_subchannel], called with no extra keyword.  The list
    under ['subchids'] is the one the dictionary has, or a new one. *)
Definition add_subchannel (sid : string) (ti_dtype : pyval) (c : t)
  : M t :=
  subch <- init sid ti_dtype [] ;;
  setitem "parent" (MdParent (id c)) subch ;;
  setitem sid (MdChannel subch) c ;;
  h <- get_self ;;
  let ids :=
    match getitem "subchids" c h with
    | Some v => v
    | None => MdPy (PList [])
    end in
  setitem "subchids" ids c ;;
  match ids with
  | MdPy (PList l) =>
      setitem "subchids" (MdPy (PList (l ++ [PStr sid]))) c ;;
      ret subch
  | _ => raise AttributeError         (* no [append] on the value *)
  end.

End Channel.

(** ** Tensors *)

Module Tensor.

Section Elt.
Context {elt : Type}.
Variable zero : elt.

(** [shape] is the tensor's shape; [cells] holds, for each grid
    position [(x, y)] in row-major order, the elements of the
    trailing axes at that position (one element for a 2-D tensor). *)
Record t := mk { shape : list nat; cells : list (list elt) }.

Definition grid_size (sh : list nat) : nat := nth 0 sh 0 * nth 1 sh 0.
Definition cell_size (sh : list nat) : nat := fold_right Nat.mul 1 (skipn 2 sh).

(** [torch.zeros(sh)], also what a fresh taichi field converts to *)
Definition zeros (sh : list nat) : t :=
  mk sh (repeat (repeat zero (cell_size sh)) (grid_size sh)).

(** [torch.empty(sh)]: the contents are whatever [uninit] says the
    allocator left at each position and slot. *)
Definition empty (uninit : nat -> nat -> elt) (sh : list nat) : t :=
  mk sh (map (fun p => map (uninit p) (seq 0 (cell_size sh)))
             (seq 0 (grid_size sh))).

(** [t.unsqueeze(2)] *)
Definition unsqueeze2 (x : t) : t :=
  mk (firstn 2 (shape x) ++ 1 :: skipn 2 (shape x)) (cells x).

(** [t.squeeze(2)] *)
Definition squeeze2 (x : t) : t :=
  mk (firstn 2 (shape x) ++
      match skipn 2 (shape x) with 1 :: r => r | r => r end) (cells x).

Definition shape_eqb (a b : list nat) : bool :=
  if list_eq_dec Nat.eq_dec a b then true else false.

Definition in_depth (x : t) (inds : list nat) : bool :=
  forallb (fun i => Nat.ltb i (nth 2 (shape x) 0)) inds.

(** [l[i] = v] on a Python list known to be long enough *)
Fixpoint list_set (i : nat) (v : elt) (l : list elt) : list elt :=
  match l, i with
  | [], _ => []
  | _ :: r, 0 => v :: r
  | x :: r, S j => x :: list_set j v r
  end.

(** Runs [f] over the cells of the destination and of the source,
    position by position. *)
Fixpoint zip_cells (f : list elt -> list elt -> list elt)
    (dst src : list (list elt)) : list (list elt) :=
  match dst, src with
  | c :: r, s :: rs => f c s :: zip_cells f r rs
  | _, _ => dst
  end.

(** [x[:, :, inds]] with [inds] an integer array or list: a fresh
    tensor of shape [(w, h, len(inds))]. *)
Definition index (x : t) (inds : list nat) : exn + t :=
  if in_depth x inds
  then inr (mk (firstn 2 (shape x) ++ [length inds])
               (map (fun c => map (fun i => nth i c zero) inds) (cells x)))
  else inl IndexError.

Fixpoint scatter (inds : list nat) (c src : list elt) : list elt :=
  match inds, src with
  | i :: r, v :: vs => scatter r (list_set i v c) vs
  | _, _ => c
  end.

(** [x[:, :, inds] = src].  The callers always pass a source of the
    shape of the indexed slice; any other shape is refused here
    (torch would first try to broadcast it). *)
Definition index_put (x : t) (inds : list nat) (src : t) : exn + t :=
  if in_depth x inds
  then if shape_eqb (shape src) (firstn 2 (shape x) ++ [length inds])
       then inr (mk (shape x) (zip_cells (scatter inds) (cells x) (cells src)))
       else inl RuntimeError
  else inl IndexError.

(** [x[:, :, k].copy_(value)] with [k] an integer: [x[:, :, k]] is a
    view, so the copy lands in [x].  [value] has shape [(w, h)]. *)
Definition select_copy (x : t) (k : nat) (value : t) : exn + t :=
  if Nat.ltb k (nth 2 (shape x) 0)
  then if shape_eqb (shape value) (firstn 2 (shape x))
       then inr (mk (shape x)
                    (zip_cells (fun c s =>
                                  match s with v :: _ => list_set k v c | [] => c end)
                               (cells x) (cells value)))
       else inl RuntimeError
  else inl IndexError.

End Elt.

Arguments t elt : clear implicits.

End Tensor.

(** ** What taichi hands back *)

Module Taichi.

(** [to_pytorch_type]: the torch dtype, by its name, of the tensor
    that a field of this primitive type converts to. *)
Definition to_pytorch_type (p : prim) : string :=
  match p with
  | f16 => "float16" | f32 => "float32" | f64 => "float64"
  | i8 => "int8" | i16 => "int16" | i32 => "int32" | i64 => "int64"
  | u8 => "uint8" | u16 => "uint16" | u32 => "uint32" | u64 => "uint64"
  end.

Section Elt.
Context {elt : Type}.
Variable zero : elt.

(** The value of [field.to_torch()]: a tensor, with its dtype, for a
    scalar, vector or matrix member, a dictionary for a struct
    member. *)
Inductive tdata :=
| TTensor (dtype : string) (x : Tensor.t elt)
| TDict (d : list (string * tdata)).

(** [celltype.field(shape=grid).to_torch()] for one member type.
    Taichi fields start zero-filled; a scalar member converts to a
    tensor of the grid's shape, a vector of [n] to [grid + (n,)], a
    matrix to [grid + (n, m)], or to [grid + (n,)] when it has a single
    column ([to_torch] keeps no dimension for it), a struct to
    [{k: v.to_torch() for k, v in items}]. *)
Fixpoint to_torch (grid : list nat) (ty : ti_dtype) : tdata :=
  match ty with
  | TiPrim p => TTensor (to_pytorch_type p) (Tensor.zeros zero grid)
  | TiVector n p =>
      TTensor (to_pytorch_type p) (Tensor.zeros zero (grid ++ [n]))
  | TiMatrix n m p =>
      TTensor (to_pytorch_type p)
        (Tensor.zeros zero (grid ++ (if Nat.eqb m 1 then [n] else [n; m])))
  | TiStruct members =>
      TDict (fold_left (fun acc kv => set (fst kv) (to_torch grid (snd kv)) acc)
                       members [])
  end.

(** [ti.types.struct] applied to the keyword dictionary
    [{chid: dtype, ...}]: every member must be a taichi type. *)
Fixpoint struct (members : dict pyval) : exn + dict ti_dtype :=
  match members with
  | [] => inr []
  | (k, PType ty) :: r =>
      match struct r with
      | inl e => inl e
      | inr ms => inr ((k, ty) :: ms)
      end
  | _ => inl TaichiError
  end.

End Elt.

Arguments tdata elt : clear implicits.

(** [ti.field(ti.i32, shape=(n,))] filled by [from_numpy] *)
Inductive ti_field := TiFieldI32 (data : list nat).

End Taichi.

(** ** The index resolver, [World._windex] *)

Module Windex.

Import Taichi.

(** One entry of the index tree, [{'indices': ..., 'indices_ti': ...}],
    with ['subchannels'] when the channel is a group. *)
Record subtree := mkSub {
  sub_indices : list nat;
  sub_indices_ti : ti_field }.

Record chtree := mkCh {
  subchannels : option (dict subtree);
  indices : list nat;
  indices_ti : ti_field }.

Record t := mk {
  index_tree : dict chtree;
  does_return_ti : bool }.

(** The references [__getitem__] tells apart: a tuple [(chid, subchid)]
    whose second component is a name or a list of names, a list of
    names and tuples, and anything else, used as a channel name. *)
Inductive subkey :=
| One (subchid : string)
| Many (subchids : list string).

Inductive item :=
| Name (chid : string)
| Tuple (chid : string) (sub : subkey).

Inductive key :=
| Single (i : item)
| Multi (l : list item).

(** What [_get_tuple_inds] returns: a Python list or a taichi field. *)
Inductive raw :=
| RawList (l : list nat)
| RawTi (f : ti_field).

(** What [__getitem__] returns: a numpy array or a taichi field. *)
Inductive result :=
| NpArray (l : list nat)
| Field (f : ti_field).

(** [_windex.__init__] *)
Definition init (index_tree : dict chtree) : t := mk index_tree false.

(** [_windex.return_ti] *)
Definition return_ti (flag : bool) (wi : t) : t := mk (index_tree wi) flag.

(** [self.index_tree[chid]['subchannels'][subchid]] *)
Definition lookup_sub (wi : t) (chid subchid : string) : exn + subtree :=
  match get chid (index_tree wi) with
  | None => inl (KeyError chid)
  | Some ch =>
      match subchannels ch with
      | None => inl (KeyError "subchannels")
      | Some subs =>
          match get subchid subs with
          | None => inl (KeyError subchid)
          | Some st => inr st
          end
      end
  end.

(** The loop [for subchid_single in key_tuple[1]: inds += ...] *)
Fixpoint get_many (wi : t) (chid : string) (subchids : list string)
    (inds : list nat) : exn + list nat :=
  match subchids with
  | [] => inr inds
  | s :: r =>
      match lookup_sub wi chid s with
      | inl e => inl e
      | inr st => get_many wi chid r (inds ++ sub_indices st)
      end
  end.

(** [_windex._get_tuple_inds] *)
Definition _get_tuple_inds (wi : t) (chid : string) (sub : subkey)
  : exn + raw :=
  match sub with
  | Many l =>
      if does_return_ti wi then inl (ValueError TiMultiIndex)
      else match get_many wi chid l [] with
           | inl e => inl e
           | inr inds => inr (RawList inds)
           end
  | One s =>
      if does_return_ti wi
      then match lookup_sub wi chid s with
           | inl e => inl e
           | inr st => inr (RawTi (sub_indices_ti st))
           end
      else match lookup_sub wi chid s with
           | inl e => inl e
           | inr st => inr (RawList (sub_indices st))
           end
  end.

(** The loop [for chid in key: inds += ...] of [__getitem__] *)
Fixpoint get_list (wi : t) (l : list item) (inds : list nat)
  : exn + list nat :=
  match l with
  | [] => inr inds
  | Tuple chid sub :: r =>
      match _get_tuple_inds wi chid sub with
      | inl e => inl e
      | inr (RawList more) => get_list wi r (inds ++ more)
      | inr (RawTi _) => inl TypeError
      end
  | Name chid :: r =>
      match get chid (index_tree wi) with
      | None => inl (KeyError chid)
      | Some ch => get_list wi r (inds ++ indices ch)
      end
  end.

(** [_windex.__getitem__] *)
Definition getitem (wi : t) (k : key) : exn + result :=
  match k with
  | Single (Tuple chid sub) =>
      match _get_tuple_inds wi chid sub with
      | inl e => inl e
      | inr (RawTi f) => inr (Field f)
      | inr (RawList l) => inr (NpArray l)
      end
  | Multi l =>
      if does_return_ti wi then inl (ValueError TiMultiIndex)
      else match get_list wi l [] with
           | inl e => inl e
           | inr inds => inr (NpArray inds)
           end
  | Single (Name chid) =>
      if does_return_ti wi
      then match get chid (index_tree wi) with
           | None => inl (KeyError chid)
           | Some ch => inr (Field (indices_ti ch))
           end
      else match get chid (index_tree wi) with
           | None => inl (KeyError chid)
           | Some ch => inr (NpArray (indices ch))
           end
  end.

(** [_windex.__setitem__] *)
Definition setitem (wi : t) (k : key) (value : list nat) : exn + unit :=
  inl (ValueError IndicesReadOnly).

End Windex.

(** ** The world *)

Module World.

Import Taichi Exc.
Local Open Scope exc_scope.

Section Elt.
Context {elt : Type}.
Variable zero : elt.

Local Abbreviation Tensor := (Tensor.t elt).
Local Abbreviation tdata := (Taichi.tdata elt).

(** [torch_dtype] is the name of a torch dtype ([float32], ...) and
    [torch_device] a label handed on to torch.  [heap] is no attribute
    of the world: it is the store that holds the metadata dictionaries
    of the descriptors. *)
Record t := mk {
  shape : list nat;
  mem : option Tensor;
  indices : option Windex.t;
  torch_dtype : string;
  torch_device : string;
  channels : dict Channel.t;
  heap : Channel.heap }.

Definition with_channels (chs : dict Channel.t) (w : t) : t :=
  mk (shape w) (mem w) (indices w) (torch_dtype w) (torch_device w) chs
     (heap w).

Definition with_indices (wi : option Windex.t) (w : t) : t :=
  mk (shape w) (mem w) wi (torch_dtype w) (torch_device w) (channels w)
     (heap w).

Definition with_mem (m : option Tensor) (w : t) : t :=
  mk (shape w) m (indices w) (torch_dtype w) (torch_device w) (channels w)
     (heap w).

Definition with_heap (h : Channel.heap) (w : t) : t :=
  mk (shape w) (mem w) (indices w) (torch_dtype w) (torch_device w)
     (channels w) h.

Local Abbreviation M := (Exc.M t).

(** A method of a descriptor, run on the store of the world. *)
Definition on_heap {A} (m : Exc.M Channel.heap A) : M A :=
  fun self =>
    match m (heap self) with
    | (r, h) => (r, with_heap h self)
    end.

(** [channel_dict[chid]]; the dictionary is [self.channels] itself. *)
Definition get_channel (chid : string) : M Channel.t :=
  self <- get_self ;;
  match get chid (channels self) with
  | Some c => ret c
  | None => raise (KeyError chid)
  end.

(** [self.channels[chid] = c], also for a descriptor of the registry
    whose attributes a method changed. *)
Definition put_channel (chid : string) (c : Channel.t) : M unit :=
  self <- get_self ;;
  put_self (with_channels (set chid c (channels self)) self).

(** *** Registry *)

(** [World.add_channel], its parameters bound *)
Definition add_channel (id : string) (ti_dtype : pyval)
    (kwargs : dict pyval) : M unit :=
  self <- get_self ;;
  match mem self with
  | Some _ => raise (ValueError AddChannelAfterAlloc)
  | None =>
      ch <- on_heap (Channel.init id ti_dtype kwargs) ;;
      put_channel id ch
  end.

(** The call [self.add_channel(chid, **ch)]: the keywords of [ch]
    are bound to [add_channel(self, id, ti_dtype=ti.f32, **kwargs)]. *)
Definition add_channel_kw (chid : string) (ch : dict pyval) : M unit :=
  if contains "self" ch || contains "id" ch
  then raise TypeError
  else add_channel chid
         (match get "ti_dtype" ch with
          | Some v => v
          | None => PType (TiPrim f32)
          end)
         (remove "ti_dtype" ch).

(** The same call for a dictionary given by its identity.  One that
    is in the store went through the constructor of a descriptor, which
    left the key ['id'] in it, and [add_channel] refuses that keyword. *)
Definition add_channel_obj (chid : string) (r : nat) (d : dict pyval)
  : M unit :=
  self <- get_self ;;
  match Channel.deref (Channel.Named r) (heap self) with
  | Some _ => raise TypeError
  | None => add_channel_kw chid d
  end.

(** The loop of [add_channels] *)
Fixpoint add_channels_loop (channels : dict pyval) (chids : list string)
  : M unit :=
  match chids with
  | [] => ret tt
  | chid :: r =>
      match get chid channels with
      | None => raise (KeyError chid)
      | Some (PDict ch) =>
          add_channel_kw chid ch ;; add_channels_loop channels r
      | Some (PObj o ch) =>
          add_channel_obj chid o ch ;; add_channels_loop channels r
      | Some ch =>
          add_channel chid ch [] ;; add_channels_loop channels r
      end
  end.

(** [World.add_channels] *)
Definition add_channels (channels : dict pyval) : M unit :=
  self <- get_self ;;
  match mem self with
  | Some _ => raise (ValueError AddChannelsAfterAlloc)
  | None => add_channels_loop channels (keys channels)
  end.

(** [World.__init__] *)
Definition init (shape : nat * nat) (torch_dtype torch_device : string)
    (channels : option (dict pyval)) : exn + t :=
  let self := mk [fst shape; snd shape; 0] None None
                 torch_dtype torch_device [] [] in
  match channels with
  | None => inr self
  | Some chs =>
      match add_channels chs self with
      | (inl e, _) => inl e
      | (inr _, self) => inr self
      end
  end.

(** *** Layout *)

(** [World.check_ch_shape] *)
Definition check_ch_shape (self : t) (sh : list nat) : exn + nat :=
  let lshape := length sh in
  if Nat.ltb 3 lshape || Nat.ltb lshape 2
  then inl (ValueError ShapeNot2or3)
  else if negb (Tensor.shape_eqb (firstn 2 sh) (firstn 2 (shape self)))
  then inl (ValueError ShapeNotWorld)
  else if Nat.eqb lshape 2 then inr 1
  else inr (nth 2 sh 0).

(** The loop of [_index_subchannels] *)
Fixpoint index_subchannels_loop (self : t) (its : list (string * tdata))
    (subch_tree : dict Windex.subtree) (end_ind : nat)
  : exn + (dict Windex.subtree * nat) :=
  match its with
  | [] => inr (subch_tree, end_ind)
  | (subchid, TDict _) :: _ => inl (ValueError SubchannelNotTensor)
  | (subchid, TTensor _ subch) :: r =>
      match check_ch_shape self (Tensor.shape subch) with
      | inl e => inl e
      | inr subch_depth =>
          let inds := range end_ind (end_ind + subch_depth) in
          index_subchannels_loop self r
            (set subchid (Windex.mkSub inds (TiFieldI32 inds)) subch_tree)
            (end_ind + subch_depth)
      end
  end.

(** [World._index_subchannels] *)
Definition _index_subchannels (self : t) (subchdict : dict tdata)
    (start_ind : nat) (parent_chid : string)
  : exn + (dict Windex.subtree * nat) :=
  match index_subchannels_loop self (items subchdict) [] start_ind with
  | inl e => inl e
  | inr (subch_tree, end_ind) => inr (subch_tree, end_ind - start_ind)
  end.

(** The layout loop of [malloc] *)
Fixpoint index_loop (self : t) (its : list (string * tdata))
    (index_tree : dict Windex.chtree) (endlayer_pointer : nat)
  : exn + (dict Windex.chtree * nat) :=
  match its with
  | [] => inr (index_tree, endlayer_pointer)
  | (chid, TTensor _ chdata) :: r =>
      match check_ch_shape self (Tensor.shape chdata) with
      | inl e => inl e
      | inr ch_depth =>
          let inds := range endlayer_pointer (endlayer_pointer + ch_depth) in
          index_loop self r
            (set chid (Windex.mkCh None inds (TiFieldI32 inds)) index_tree)
            (endlayer_pointer + ch_depth)
      end
  | (chid, TDict chdata) :: r =>
      match _index_subchannels self chdata endlayer_pointer chid with
      | inl e => inl e
      | inr (subch_tree, total_depth) =>
          let inds := range endlayer_pointer (endlayer_pointer + total_depth) in
          index_loop self r
            (set chid (Windex.mkCh (Some subch_tree) inds (TiFieldI32 inds))
                 index_tree)
            (endlayer_pointer + total_depth)
      end
  end.

(** *** Allocation *)

(** [tensor_dict[chid][subchid]]: the dictionary of the group, and the
    tensor with its dtype *)
Definition td_sub (td : dict tdata) (chid subchid : string)
  : exn + (dict tdata * string * Tensor) :=
  match get chid td with
  | None => inl (KeyError chid)
  | Some (TTensor _ _) => inl TypeError
  | Some (TDict d) =>
      match get subchid d with
      | None => inl (KeyError subchid)
      | Some (TDict _) => inl AttributeError
      | Some (TTensor dt x) => inr (d, dt, x)
      end
  end.

(** [tensor_dict[chid]] used as a tensor *)
Definition td_top (td : dict tdata) (chid : string)
  : exn + (string * Tensor) :=
  match get chid td with
  | None => inl (KeyError chid)
  | Some (TDict _) => inl AttributeError
  | Some (TTensor dt x) => inr (dt, x)
  end.

(** [if len(x.shape) == 2: x = x.unsqueeze(2)] *)
Definition unsqueeze_2d (x : Tensor) : Tensor :=
  if Nat.eqb (length (Tensor.shape x)) 2 then Tensor.unsqueeze2 x else x.

(** The dtype test of the inner loop.  Its warning formats
    [tensor_dict[chid].dtype], and [tensor_dict[chid]] is the
    dictionary of the group there, which has no [dtype]. *)
Definition check_sub_dtype (dt : string) : M unit :=
  self <- get_self ;;
  if String.eqb dt (torch_dtype self) then ret tt else raise AttributeError.

(** [channel_dict[chid][subchid].link_to_mem(inds, mem)]: the call
    changes the descriptor that the dictionary of [chid] holds under
    [subchid]. *)
Definition link_sub (chid subchid : string) (inds : list nat) : M unit :=
  c <- get_channel chid ;;
  v <- gets (fun self => Channel.getitem subchid c (heap self)) ;;
  match v with
  | Some (Channel.MdChannel sc) =>
      sc <- on_heap (Channel.link_to_mem inds sc) ;;
      on_heap (Channel.setitem subchid (Channel.MdChannel sc) c)
  | _ => raise AttributeError
  end.

(** The inner loop of [_transfer_to_mem], over the sub-channels of
    [chid]. *)
Fixpoint transfer_subs (chid : string) (subs : list (string * Windex.subtree))
    (mem : Tensor) (td : dict tdata) : M (Tensor * dict tdata) :=
  match subs with
  | [] => ret (mem, td)
  | (subchid, subchtree) :: r =>
      ' (d, dt, x) <- lift (td_sub td chid subchid) ;;
      check_sub_dtype dt ;;
      let x := unsqueeze_2d x in
      let td := set chid (TDict (set subchid (TTensor dt x) d)) td in
      mem <- lift (Tensor.index_put mem (Windex.sub_indices subchtree) x) ;;
      c <- get_channel chid ;;
      on_heap (Channel.add_subchannel subchid (Channel.ti_dtype c) c) ;;
      link_sub chid subchid (Windex.sub_indices subchtree) ;;
      transfer_subs chid r mem td
  end.

(** The outer loop of [_transfer_to_mem].  The dtype test of a channel
    that is no group only emits a warning. *)
Fixpoint transfer_loop (tree : list (string * Windex.chtree))
    (mem : Tensor) (td : dict tdata) : M (Tensor * dict tdata) :=
  match tree with
  | [] => ret (mem, td)
  | (chid, chindices) :: r =>
      match Windex.subchannels chindices with
      | Some subs =>
          ' (mem, td) <- transfer_subs chid (items subs) mem td ;;
          c <- get_channel chid ;;
          c <- on_heap (Channel.link_to_mem (Windex.indices chindices) c) ;;
          put_channel chid c ;;
          transfer_loop r mem td
      | None =>
          ' (dt, x) <- lift (td_top td chid) ;;
          let x := unsqueeze_2d x in
          let td := set chid (TTensor dt x) td in
          mem <- lift (Tensor.index_put mem (Windex.indices chindices) x) ;;
          c <- get_channel chid ;;
          c <- on_heap (Channel.link_to_mem (Windex.indices chindices) c) ;;
          put_channel chid c ;;
          transfer_loop r mem td
      end
  end.

(** [World._transfer_to_mem]; [channel_dict] is [self.channels], which
    the loop mutates in place, and the buffer is returned. *)
Definition _transfer_to_mem (mem : Tensor) (tensor_dict : dict tdata)
    (index_tree : dict Windex.chtree) : M Tensor :=
  ' (mem, _) <- transfer_loop (items index_tree) mem tensor_dict ;;
  ret mem.

(** [{chid: self.channels[chid].ti_dtype for chid in self.channels.keys()}] *)
Definition channel_dtypes (self : t) : dict pyval :=
  update [] (map (fun kc => (fst kc, Channel.ti_dtype (snd kc))) (channels self)).

(** [celltype.field(shape=self.shape[:2]).to_torch(...)] *)
Definition field_to_torch (self : t) (members : dict ti_dtype) : dict tdata :=
  match to_torch zero (firstn 2 (shape self)) (TiStruct members) with
  | TDict d => d
  | TTensor _ _ => []
  end.

(** [World.malloc].  [uninit] is what [torch.empty] finds in the memory
    it returns. *)
Definition malloc (uninit : nat -> nat -> elt) : M unit :=
  self <- get_self ;;
  match mem self with
  | Some _ => raise (ValueError AllocTwice)
  | None =>
      members <- lift (Taichi.struct (channel_dtypes self)) ;;
      let tensor_dict := field_to_torch self members in
      ' (index_tree, endlayer_pointer) <-
        lift (index_loop self (items tensor_dict) [] (nth 2 (shape self) 0)) ;;
      let mem := Tensor.empty uninit
                   (firstn 2 (shape self) ++ [endlayer_pointer]) in
      mem <- _transfer_to_mem mem tensor_dict index_tree ;;
      self <- get_self ;;
      put_self (with_indices (Some (Windex.init index_tree))
                  (with_mem (Some mem) self))
  end.

(** *** Accessors *)

(** [self.indices.return_ti(flag)] *)
Definition indices_return_ti (flag : bool) : M unit :=
  self <- get_self ;;
  match indices self with
  | None => raise AttributeError
  | Some wi => put_self (with_indices (Some (Windex.return_ti flag wi)) self)
  end.

(** [self.indices[key]] *)
Definition indices_getitem (key : Windex.key) : M Windex.result :=
  self <- get_self ;;
  match indices self with
  | None => raise AttributeError
  | Some wi => lift (Windex.getitem wi key)
  end.

(** [self.indices.does_return_ti] *)
Definition indices_does_return_ti : M bool :=
  self <- get_self ;;
  match indices self with
  | None => raise AttributeError
  | Some wi => ret (Windex.does_return_ti wi)
  end.

(** [self.mem[:, :, inds]] with [inds] what the resolver returned *)
Definition mem_index (inds : Windex.result) : M Tensor :=
  self <- get_self ;;
  match mem self, inds with
  | Some m, Windex.NpArray l => lift (Tensor.index zero m l)
  | _, _ => raise TypeError
  end.

(** [World.__getitem__] *)
Definition getitem (key : Windex.key) : M Tensor :=
  self <- get_self ;;
  match mem self with
  | None => raise (ValueError GetNotAllocated)
  | Some _ =>
      indices_return_ti_ <- indices_does_return_ti ;;
      indices_return_ti false ;;
      inds <- indices_getitem key ;;
      val <- mem_index inds ;;
      indices_return_ti indices_return_ti_ ;;
      ret val
  end.

(** [x.copy_(value)] on a tensor [x] of the same shape *)
Definition copy_ (x value : Tensor) : Tensor :=
  Tensor.mk (Tensor.shape x) (Tensor.cells value).

(** [World.__setitem__].  With more than one index, [self.mem[:, :,
    indices]] is a fresh tensor and [copy_] fills that one; with a
    single index, [self.mem[:, :, indices[0]]] is a view of the
    buffer. *)
Definition setitem (key : Windex.key) (value : Tensor) : M unit :=
  self <- get_self ;;
  match mem self with
  | None => raise (ValueError SetNotAllocated)
  | Some _ =>
      indices_return_ti_ <- indices_does_return_ti ;;
      indices_return_ti false ;;
      inds <- indices_getitem key ;;
      indices_return_ti indices_return_ti_ ;;
      match inds with
      | Windex.Field _ => raise TypeError
      | Windex.NpArray indices =>
          (if Nat.ltb 1 (length indices)
           then
             cur <- getitem key ;;
             if negb (Tensor.shape_eqb (Tensor.shape value) (Tensor.shape cur))
             then raise (ValueError SetShapeMulti)
             else
               fresh <- mem_index inds ;;
               let _ := copy_ fresh value in
               ret tt
           else ret tt) ;;
          (if Nat.eqb (length indices) 1
           then
             let value :=
               if Nat.eqb (length (Tensor.shape value)) 3
               then Tensor.squeeze2 value else value in
             self <- get_self ;;
             if negb (Tensor.shape_eqb (Tensor.shape value) (firstn 2 (shape self)))
             then raise (ValueError SetShapeSingle)
             else
               match mem self with
               | None => raise TypeError
               | Some m =>
                   m <- lift (Tensor.select_copy m (nth 0 indices 0) value) ;;
                   put_self (with_mem (Some m) self)
               end
           else ret tt)
      end
  end.

End Elt.

Arguments t elt : clear implicits.

End World.

(** ** The 4x4 scenario

    A 4x4 grid of float32 with channel [a], a scalar per cell, declared
    before the group [b] of [x], a 2-vector, and [y], a 1-vector.
    Elements are written as integers; [7] stands for what the
    allocator leaves in fresh memory. *)

Module Scenario.

Definition fresh : World.t Z :=
  World.mk [4; 4; 0] None None "float32" "cpu" [] [].

Definition declared : dict pyval :=
  [("a", PType (TiPrim f32));
   ("b", PType (TiStruct [("x", TiVector 2 f32); ("y", TiVector 1 f32)]))].

Definition uninit : nat -> nat -> Z := fun _ _ => 7%Z.

(** [World((4, 4), torch.float32, "cpu", declared)] *)
Definition registered : World.t Z :=
  snd (World.add_channels declared fresh).

(** ... followed by [malloc()] *)
Definition allocated : World.t Z :=
  snd (World.malloc 0%Z uninit registered).

(** [torch.ones(4, 4, d)] *)
Definition ones (d : nat) : Tensor.t Z :=
  Tensor.mk [4; 4; d] (repeat (repeat 1%Z d) 16).

Definition key_a : Windex.key := Windex.Single (Windex.Name "a").
Definition key_b : Windex.key := Windex.Single (Windex.Name "b").
Definition key_bx : Windex.key :=
  Windex.Single (Windex.Tuple "b" (Windex.One "x")).
Definition key_by : Windex.key :=
  Windex.Single (Windex.Tuple "b" (Windex.One "y")).

(** A mapping whose second entry cannot be bound to the parameters of
    [add_channel]: [{"a": ti.f32, "b": {"id": "c"}}]. *)
Definition half_bad : dict pyval :=
  [("a", PType (TiPrim f32)); ("b", PDict [("id", PStr "c")])].

End Scenario.

(** * Properties *)

(** ** Facts about dictionaries *)

Module DictFacts.

Section Dict.
Context {V : Type}.
Implicit Types (d : dict V) (k : string) (v : V).

Lemma get_set : forall d k k' v,
  get k (set k' v d) = if String.eqb k k' then Some v else get k d.
Proof.
  induction d as [|[k0 v0] r IH]; intros k k' v; simpl.
  - reflexivity.
  - destruct (String.eqb k' k0) eqn:E0; simpl.
    + apply String.eqb_eq in E0; subst k0.
      destruct (String.eqb k k'); reflexivity.
    + destruct (String.eqb k k0) eqn:E1.
      * apply String.eqb_eq in E1; subst k0.
        destruct (String.eqb k k') eqn:E2; [|reflexivity].
        apply String.eqb_eq in E2; subst k'.
        rewrite String.eqb_refl in E0; discriminate.
      * apply IH.
Qed.

Lemma get_set_eq : forall d k v, get k (set k v d) = Some v.
Proof. intros; rewrite get_set, String.eqb_refl; reflexivity. Qed.

Lemma get_set_neq : forall d k k' v,
  k <> k' -> get k (set k' v d) = get k d.
Proof.
  intros d k k' v H; rewrite get_set.
  destruct (String.eqb k k') eqn:E; [|reflexivity].
  apply String.eqb_eq in E; contradiction.
Qed.

Lemma get_In : forall d k v, get k d = Some v -> In (k, v) d.
Proof.
  induction d as [|[k0 v0] r IH]; intros k v; simpl; [discriminate|].
  destruct (String.eqb k k0) eqn:E.
  - apply String.eqb_eq in E; subst; intros [= ->]; now left.
  - intros H; right; now apply IH.
Qed.

Lemma get_None : forall d k, get k d = None <-> ~ In k (keys d).
Proof.
  induction d as [|[k0 v0] r IH]; intros k; simpl.
  - split; auto.
  - destruct (String.eqb k k0) eqn:E.
    + apply String.eqb_eq in E; subst; split; [discriminate|].
      intros H; exfalso; apply H; now left.
    + apply String.eqb_neq in E; rewrite IH; split.
      * intros H [H1|H1]; [congruence|contradiction].
      * intros H H1; apply H; now right.
Qed.

Lemma get_Some_keys : forall d k v, get k d = Some v -> In k (keys d).
Proof.
  intros d k v H; apply get_In in H.
  unfold keys; change k with (fst (k, v)); now apply in_map.
Qed.

Lemma In_get : forall d k v,
  NoDup (keys d) -> In (k, v) d -> get k d = Some v.
Proof.
  induction d as [|[k0 v0] r IH]; intros k v ND HI; simpl in *; [contradiction|].
  inversion ND as [|? ? Hn ND']; subst.
  destruct HI as [[= -> ->]|HI].
  - now rewrite String.eqb_refl.
  - destruct (String.eqb k k0) eqn:E.
    + apply String.eqb_eq in E; subst k0.
      exfalso; apply Hn.
      unfold keys; change k with (fst (k, v)); now apply in_map.
    + now apply IH.
Qed.

Lemma set_notin : forall d k v,
  ~ In k (keys d) -> set k v d = d ++ [(k, v)].
Proof.
  induction d as [|[k0 v0] r IH]; intros k v H; simpl in *; [reflexivity|].
  destruct (String.eqb k k0) eqn:E.
  - apply String.eqb_eq in E; subst; exfalso; apply H; now left.
  - f_equal; apply IH; intros H1; apply H; now right.
Qed.

Lemma keys_set_in : forall d k v,
  In k (keys d) -> keys (set k v d) = keys d.
Proof.
  induction d as [|[k0 v0] r IH]; intros k v H; simpl in *; [contradiction|].
  destruct (String.eqb k k0) eqn:E; simpl; [reflexivity|].
  f_equal; apply IH; destruct H as [H|H]; [|exact H].
  subst; rewrite String.eqb_refl in E; discriminate.
Qed.

Lemma keys_set : forall d k v,
  keys (set k v d) = if contains k d then keys d else keys d ++ [k].
Proof.
  intros d k v; unfold contains.
  destruct (get k d) eqn:E.
  - apply keys_set_in; eapply get_Some_keys; eauto.
  - apply get_None in E; rewrite set_notin by exact E.
    unfold keys; now rewrite map_app.
Qed.

Lemma NoDup_keys_set : forall d k v,
  NoDup (keys d) -> NoDup (keys (set k v d)).
Proof.
  intros d k v H; rewrite keys_set; unfold contains.
  destruct (get k d) eqn:E; [exact H|].
  apply get_None in E.
  apply NoDup_rev in H; rewrite <- (rev_involutive (keys d ++ [k])).
  apply NoDup_rev; rewrite rev_app_distr; simpl.
  constructor; [|exact H].
  now rewrite <- in_rev.
Qed.

Lemma Forall_set : forall (P : string * V -> Prop) d k v,
  (forall k', P (k', v)) -> Forall P d -> Forall P (set k v d).
Proof.
  induction d as [|[k0 v0] r IH]; intros k v Hv H; simpl.
  - constructor; auto.
  - inversion H; subst.
    destruct (String.eqb k k0); constructor; auto.
Qed.

Lemma Forall_get : forall (P : string * V -> Prop) d k v,
  Forall P d -> get k d = Some v -> P (k, v).
Proof.
  intros P d k v H Hg; apply get_In in Hg.
  rewrite Forall_forall in H; now apply H.
Qed.

End Dict.

Section Fold.
Context {A V : Type}.
Variable f : A -> V.

(** The body of a dictionary comprehension [{k: f(a) for k, a in l}]. *)
Definition comprehend (acc : dict V) (l : list (string * A)) : dict V :=
  fold_left (fun acc kv => set (fst kv) (f (snd kv)) acc) l acc.

Lemma comprehend_nodup : forall l acc,
  NoDup (keys acc) -> NoDup (keys (comprehend acc l)).
Proof.
  induction l as [|[k a] l IH]; intros acc H; simpl; [exact H|].
  apply IH, NoDup_keys_set, H.
Qed.

Lemma comprehend_fresh : forall l acc,
  NoDup (keys l) ->
  (forall k, In k (keys l) -> ~ In k (keys acc)) ->
  comprehend acc l = acc ++ map (fun kv => (fst kv, f (snd kv))) l.
Proof.
  induction l as [|[k a] l IH]; intros acc ND H; simpl.
  - now rewrite app_nil_r.
  - inversion ND as [|? ? Hn ND']; subst.
    rewrite set_notin by (apply H; now left).
    change (comprehend (acc ++ [(k, f a)]) l =
            acc ++ (k, f a) :: map (fun kv => (fst kv, f (snd kv))) l).
    rewrite IH; auto.
    + now rewrite <- app_assoc.
    + intros k' Hk'; unfold keys; rewrite map_app, in_app_iff; simpl.
      intros [Hin|[<-|[]]]; [|contradiction].
      apply (H k'); [now right|exact Hin].
Qed.

Lemma comprehend_In : forall l acc k v,
  In (k, v) (comprehend acc l) ->
  In (k, v) acc \/ exists a, v = f a.
Proof.
  induction l as [|[k0 a] l IH]; intros acc k v H; simpl in H; [now left|].
  apply IH in H; destruct H as [H|H]; [|now right].
  clear IH; induction acc as [|[k1 v1] acc IHa]; simpl in H.
  - destruct H as [[= <- <-]|[]]; right; now exists a.
  - destruct (String.eqb k0 k1).
    + destruct H as [[= <- <-]|H]; [right; now exists a|left; now right].
    + destruct H as [H|H]; [left; now left|].
      destruct (IHa H) as [H1|H1]; [left; now right|now right].
Qed.

End Fold.

Lemma update_fresh : forall {V} (l : dict V),
  NoDup (keys l) -> update [] l = l.
Proof.
  intros V l H; unfold update.
  change (comprehend (fun x => x) [] l = l).
  rewrite comprehend_fresh; auto; simpl.
  induction l as [|[k v] l IH]; simpl; [reflexivity|].
  inversion H; subst; f_equal; auto.
Qed.

Lemma update_nodup : forall {V} (l : dict V), NoDup (keys (update [] l)).
Proof.
  intros V l; unfold update.
  change (NoDup (keys (comprehend (fun x => x) [] l))).
  apply comprehend_nodup; constructor.
Qed.

End DictFacts.

(** ** Facts about the store of dictionaries *)

Module HeapFacts.

Import Exc Channel.

Lemma addr_eqb_eq : forall a b, addr_eqb a b = true <-> a = b.
Proof.
  intros [r|n] [r'|n']; simpl; split; try discriminate;
    try (intros H; apply Nat.eqb_eq in H; now subst);
    intros [= ->]; apply Nat.eqb_refl.
Qed.

Lemma addr_eqb_refl : forall a, addr_eqb a a = true.
Proof. intros a; now apply addr_eqb_eq. Qed.

Lemma deref_write : forall h r r' d,
  deref r (write r' d h) = if addr_eqb r r' then Some d else deref r h.
Proof.
  induction h as [|[r0 d0] h IH]; intros r r' d; simpl.
  - reflexivity.
  - destruct (addr_eqb r' r0) eqn:E0; simpl.
    + apply addr_eqb_eq in E0; subst r0.
      destruct (addr_eqb r r'); reflexivity.
    + destruct (addr_eqb r r0) eqn:E1.
      * apply addr_eqb_eq in E1; subst r0.
        destruct (addr_eqb r r') eqn:E2; [|reflexivity].
        apply addr_eqb_eq in E2; subst r'.
        rewrite addr_eqb_refl in E0; discriminate.
      * apply IH.
Qed.

Lemma deref_write_eq : forall h r d, deref r (write r d h) = Some d.
Proof. intros; rewrite deref_write, addr_eqb_refl; reflexivity. Qed.

Lemma deref_write_neq : forall h r r' d,
  r <> r' -> deref r (write r' d h) = deref r h.
Proof.
  intros h r r' d H; rewrite deref_write.
  destruct (addr_eqb r r') eqn:E; [|reflexivity].
  apply addr_eqb_eq in E; contradiction.
Qed.

Lemma deref_In : forall h r d, deref r h = Some d -> In r (map fst h).
Proof.
  induction h as [|[r0 d0] h IH]; intros r d; simpl; [discriminate|].
  destruct (addr_eqb r r0) eqn:E.
  - apply addr_eqb_eq in E; now left.
  - intros H; right; eapply IH; eauto.
Qed.

(** A new dictionary never takes the place of one of the store. *)
Lemma fresh_unused : forall h, deref (fresh h) h = None.
Proof.
  intros h; destruct (deref (fresh h) h) as [d|] eqn:E; [|reflexivity].
  apply deref_In in E.
  assert (H : Forall (fun k => k <= list_max
                        (map (fun e => unnamed_index (fst e)) h))
                     (map (fun e => unnamed_index (fst e)) h))
    by now apply list_max_le.
  rewrite Forall_forall in H.
  apply (in_map unnamed_index) in E; rewrite map_map in E.
  apply H in E; unfold fresh in E; simpl in E; lia.
Qed.

(** ... nor the place of a dictionary that a caller names. *)
Lemma fresh_unnamed : forall h r, fresh h <> Named r.
Proof. discriminate. Qed.

(** An address stays in use once it is. *)
Definition allocated (r : addr) (h : heap) : Prop := deref r h <> None.

Lemma allocated_write : forall h r r' d,
  allocated r h -> allocated r (write r' d h).
Proof.
  intros h r r' d H; unfold allocated; rewrite deref_write.
  destruct (addr_eqb r r'); [discriminate|exact H].
Qed.

Lemma allocated_not_fresh : forall h r, allocated r h -> r <> fresh h.
Proof. intros h r H ->; apply H, fresh_unused. Qed.

(** [Channel.__init__], case by case. *)
Lemma init_cases : forall id dt kw h,
  init id dt kw h =
    match bind_init kw with
    | inl e => (inl e, h)
    | inr (lims, md, kw') =>
        match metadata_or_new h md with
        | inl e => (inl e, h)
        | inr (r, md0) =>
            let lims := if truthy h lims then lims else default_lims in
            (inr (mk id lims dt false None r),
             write r (update (update md0 (as_md kw'))
                        [("id", MdPy (PStr id)); ("ti_dtype", MdPy dt);
                         ("lims", MdArray lims)]) h)
        end
    end.
Proof.
  intros id dt kw h; unfold init, bind, lift, get_self, put_self, ret.
  destruct (bind_init kw) as [e|[[lims md] kw']]; [reflexivity|].
  destruct (metadata_or_new h md) as [e|[r md0]]; reflexivity.
Qed.

(** A constructor that raises has not touched a dictionary. *)
Lemma init_fails : forall id dt kw h e h',
  init id dt kw h = (inl e, h') -> h' = h.
Proof.
  intros id dt kw h e h' H; rewrite init_cases in H.
  destruct (bind_init kw) as [e0|[[lims md] kw']]; [now injection H|].
  destruct (metadata_or_new h md) as [e0|[r md0]]; [now injection H|].
  discriminate.
Qed.

(** A constructor that returns has written one dictionary, the one of
    the descriptor, and left ['id'] in it. *)
Lemma init_returns : forall id dt kw h ch h',
  init id dt kw h = (inr ch, h') ->
  Channel.id ch = id /\ ti_dtype ch = dt /\
  memblock ch = false /\ indices ch = None /\
  (exists d, h' = write (metadata ch) d h /\
             get "id" d = Some (MdPy (PStr id))) /\
  (forall r, r <> metadata ch -> deref r h' = deref r h).
Proof.
  intros id dt kw h ch h' H; rewrite init_cases in H.
  destruct (bind_init kw) as [e0|[[lims md] kw']]; [discriminate|].
  destruct (metadata_or_new h md) as [e0|[r md0]]; [discriminate|].
  injection H as <- <-; simpl.
  split; [reflexivity|]. split; [reflexivity|].
  split; [reflexivity|]. split; [reflexivity|]. split.
  - eexists; split; [reflexivity|].
    unfold update; simpl.
    rewrite DictFacts.get_set_neq by discriminate.
    rewrite DictFacts.get_set_neq by discriminate.
    apply DictFacts.get_set_eq.
  - intros r0 Hr; now apply deref_write_neq.
Qed.

(** Where the dictionary of the new descriptor is: at a new address,
    unless the caller gave a dictionary by its identity. *)
Lemma init_address : forall id dt kw h ch h',
  init id dt kw h = (inr ch, h') ->
  metadata ch = fresh h \/
  exists r d, get "metadata" kw = Some (PObj r d) /\ metadata ch = Named r.
Proof.
  intros id dt kw h ch h' H; rewrite init_cases in H.
  unfold bind_init in H.
  destruct (contains "self" kw || contains "id" kw || contains "world" kw
            || contains "ti_dtype" kw); [discriminate|].
  destruct (get "metadata" kw) as [md|]; simpl in H.
  - destruct md; simpl in H; try discriminate;
      injection H as <- <-; simpl; eauto.
  - injection H as <- <-; simpl; auto.
Qed.

(** What the returning constructor leaves in the dictionary of the
    descriptor, and which dictionary it is when the caller gave one by
    its identity. *)
Lemma init_entries : forall id dt kw h ch h',
  init id dt kw h = (inr ch, h') ->
  getitem "id" ch h' = Some (MdPy (PStr id)) /\
  getitem "ti_dtype" ch h' = Some (MdPy dt) /\
  (forall r d, get "metadata" kw = Some (PObj r d) -> metadata ch = Named r).
Proof.
  intros id dt kw h ch h' H; rewrite init_cases in H.
  unfold bind_init in H.
  destruct (contains "self" kw || contains "id" kw || contains "world" kw
            || contains "ti_dtype" kw); [discriminate|].
  destruct (metadata_or_new h _) as [e|[r0 md0]] eqn:Em; [discriminate|].
  injection H as <- <-; unfold getitem, contents; simpl.
  rewrite deref_write_eq; unfold update; simpl.
  split; [|split].
  - rewrite DictFacts.get_set_neq by discriminate.
    rewrite DictFacts.get_set_neq by discriminate.
    apply DictFacts.get_set_eq.
  - rewrite DictFacts.get_set_neq by discriminate.
    apply DictFacts.get_set_eq.
  - intros r d Hg; rewrite Hg in Em; simpl in Em; now injection Em as <- _.
Qed.

Lemma setitem_cases : forall key v c h,
  setitem key v c h = (inr tt, write (metadata c) (set key v (contents c h)) h).
Proof. reflexivity. Qed.

Lemma link_to_mem_cases : forall inds c h,
  link_to_mem inds c h =
    let i := match inds with [i] => IdxScalar i | _ => IdxArray inds end in
    let c' := mk (Channel.id c) (lims c) (ti_dtype c) true (Some i) (metadata c) in
    (inr c',
     write (metadata c) (set "indices" (MdIndices i) (contents c h)) h).
Proof. reflexivity. Qed.

(** What [link_to_mem] leaves: the descriptor linked, its indices
    under ['indices'] in its dictionary, every other dictionary as it
    was. *)
Lemma link_to_mem_effect : forall inds c h c' h',
  link_to_mem inds c h = (inr c', h') ->
  c' = mk (Channel.id c) (lims c) (ti_dtype c) true
          (Some match inds with [i] => IdxScalar i | _ => IdxArray inds end)
          (metadata c) /\
  getitem "indices" c' h'
    = Some (MdIndices match inds with [i] => IdxScalar i | _ => IdxArray inds end) /\
  (forall a, a <> metadata c -> deref a h' = deref a h).
Proof.
  intros inds c h c' h' H; rewrite link_to_mem_cases in H; simpl in H.
  injection H as <- <-.
  split; [reflexivity|]. split.
  - unfold getitem, contents; simpl.
    rewrite deref_write_eq; apply DictFacts.get_set_eq.
  - intros a Ha; now apply deref_write_neq.
Qed.

Lemma dict_setitem_effect : forall key v c h r h',
  setitem key v c h = (r, h') ->
  r = inr tt /\
  getitem key c h' = Some v /\
  (forall k, k <> key -> getitem k c h' = getitem k c h) /\
  (forall a, a <> metadata c -> deref a h' = deref a h).
Proof.
  intros key v c h r h' H; rewrite setitem_cases in H.
  injection H as <- <-.
  split; [reflexivity|].
  unfold getitem, contents; rewrite deref_write_eq.
  split; [apply DictFacts.get_set_eq|]. split.
  - intros k Hk; now apply DictFacts.get_set_neq.
  - intros a Ha; now apply deref_write_neq.
Qed.

(** What a returning [add_subchannel] leaves: the sub-channel has a
    new dictionary, the parent's dictionary holds the sub-channel
    under its name, and no third dictionary has changed. *)
Lemma add_subchannel_returns : forall sid dt c h subch h',
  add_subchannel sid dt c h = (inr subch, h') ->
  metadata subch = fresh h /\
  getitem sid c h' = Some (MdChannel subch) /\
  (forall a, a <> metadata c -> a <> fresh h -> deref a h' = deref a h).
Proof.
  intros sid dt c h subch h' H; unfold add_subchannel in H.
  unfold bind at 1 in H; rewrite init_cases in H; simpl in H.
  set (sc := mk sid default_lims dt false None (fresh h)) in *.
  unfold bind at 1 in H.
  destruct (setitem "parent" (MdParent (Channel.id c)) sc _)
    as [r1 h1] eqn:E1.
  apply dict_setitem_effect in E1; destruct E1 as (-> & _ & _ & F1).
  unfold bind at 1 in H.
  destruct (setitem sid (MdChannel sc) c h1) as [r2 h2] eqn:E2.
  apply dict_setitem_effect in E2; destruct E2 as (-> & G2 & _ & F2).
  unfold bind at 1, get_self at 1 in H.
  destruct (getitem "subchids" c h2) as [ids|] eqn:Eids.
  - unfold bind at 1 in H.
    destruct (setitem "subchids" ids c h2) as [r3 h3] eqn:E3.
    apply dict_setitem_effect in E3; destruct E3 as (-> & G3 & K3 & F3).
    destruct ids as [[| | |l| | |]| | | |]; try discriminate.
    unfold bind at 1 in H.
    destruct (setitem "subchids" (MdPy (PList (l ++ [PStr sid]))) c h3)
      as [r4 h4] eqn:E4.
    apply dict_setitem_effect in E4; destruct E4 as (-> & G4 & K4 & F4).
    injection H as <- <-.
    assert (Hs : sid <> "subchids").
    { intros ->; rewrite G2 in Eids; discriminate. }
    split; [reflexivity|]. split.
    + rewrite K4, K3, G2 by exact Hs; reflexivity.
    + intros a Ha Hf.
      rewrite F4, F3, F2 by exact Ha.
      rewrite F1 by exact Hf.
      simpl; apply deref_write_neq; exact Hf.
  - unfold bind at 1 in H.
    destruct (setitem "subchids" (MdPy (PList [])) c h2) as [r3 h3] eqn:E3.
    apply dict_setitem_effect in E3; destruct E3 as (-> & G3 & K3 & F3).
    unfold bind at 1 in H.
    destruct (setitem "subchids" (MdPy (PList ([] ++ [PStr sid]))) c h3)
      as [r4 h4] eqn:E4.
    apply dict_setitem_effect in E4; destruct E4 as (-> & G4 & K4 & F4).
    injection H as <- <-.
    assert (Hs : sid <> "subchids").
    { intros ->; rewrite G2 in Eids; discriminate. }
    split; [reflexivity|]. split.
    + rewrite K4, K3, G2 by exact Hs; reflexivity.
    + intros a Ha Hf.
      rewrite F4, F3, F2 by exact Ha.
      rewrite F1 by exact Hf.
      simpl; apply deref_write_neq; exact Hf.
Qed.

End HeapFacts.

(** ** The index resolver *)

Module Resolver.

Import Windex.

(** In host mode a single reference resolves to a numpy array, and the
    list loop adds exactly that array to what it has gathered. *)
Lemma get_list_step : forall wi it r rest acc,
  does_return_ti wi = false ->
  getitem wi (Single it) = inr (NpArray r) ->
  get_list wi (it :: rest) acc = get_list wi rest (acc ++ r).
Proof.
  intros wi [chid|chid sub] r rest acc Hm H; simpl in *.
  - rewrite Hm in H.
    destruct (get chid (index_tree wi)); [|discriminate].
    now injection H as <-.
  - destruct (_get_tuple_inds wi chid sub) as [e|[l|f]] eqn:E;
      try discriminate.
    now injection H as <-.
Qed.

Lemma get_list_concat : forall wi l rs acc,
  does_return_ti wi = false ->
  Forall2 (fun it r => getitem wi (Single it) = inr (NpArray r)) l rs ->
  get_list wi l acc = inr (acc ++ concat rs).
Proof.
  intros wi l rs acc Hm H; revert acc.
  induction H as [|it r l rs H1 _ IH]; intros acc.
  - simpl; now rewrite app_nil_r.
  - rewrite (get_list_step _ _ _ _ _ Hm H1), IH; simpl.
    now rewrite app_assoc.
Qed.

(** C4. In host mode, a list reference whose elements each resolve on
    their own (a name, or a (name, sub-name) pair) resolves to the
    concatenation, in the list's order, of what the elements resolve
    to. *)
Theorem resolve_list_is_concat : forall wi l rs,
  does_return_ti wi = false ->
  Forall2 (fun it r => getitem wi (Single it) = inr (NpArray r)) l rs ->
  getitem wi (Multi l) = inr (NpArray (concat rs)).
Proof.
  intros wi l rs Hm H; simpl; rewrite Hm.
  now rewrite (get_list_concat _ _ _ [] Hm H).
Qed.

(** In device mode every list reference is refused, before any name
    is looked up. *)
Lemma device_list_refused : forall wi l,
  does_return_ti wi = true ->
  getitem wi (Multi l) = inl UnsupportedIndexMode.
Proof. intros wi l H; simpl; now rewrite H. Qed.

(** In device mode a (name, list of sub-names) pair is refused, before
    any name is looked up. *)
Lemma device_sublist_refused : forall wi chid l,
  does_return_ti wi = true ->
  getitem wi (Single (Tuple chid (Many l))) = inl UnsupportedIndexMode.
Proof. intros wi chid l H; simpl; now rewrite H. Qed.

Lemma device_name : forall wi chid ch,
  does_return_ti wi = true ->
  get chid (index_tree wi) = Some ch ->
  getitem wi (Single (Name chid)) = inr (Field (indices_ti ch)).
Proof. intros wi chid ch H Hg; simpl; now rewrite H, Hg. Qed.

Lemma device_pair : forall wi chid ch subs sid st,
  does_return_ti wi = true ->
  get chid (index_tree wi) = Some ch ->
  subchannels ch = Some subs ->
  get sid subs = Some st ->
  getitem wi (Single (Tuple chid (One sid))) = inr (Field (sub_indices_ti st)).
Proof.
  intros wi chid ch subs sid st H Hg Hs Hg'; simpl.
  unfold lookup_sub; now rewrite H, Hg, Hs, Hg'.
Qed.

(** The host-mode counterparts. *)
Lemma host_name : forall wi chid ch,
  does_return_ti wi = false ->
  get chid (index_tree wi) = Some ch ->
  getitem wi (Single (Name chid)) = inr (NpArray (indices ch)).
Proof. intros wi chid ch H Hg; simpl; now rewrite H, Hg. Qed.

Lemma host_pair : forall wi chid ch subs sid st,
  does_return_ti wi = false ->
  get chid (index_tree wi) = Some ch ->
  subchannels ch = Some subs ->
  get sid subs = Some st ->
  getitem wi (Single (Tuple chid (One sid))) = inr (NpArray (sub_indices st)).
Proof.
  intros wi chid ch subs sid st H Hg Hs Hg'; simpl.
  unfold lookup_sub; now rewrite H, Hg, Hs, Hg'.
Qed.

(** The resolver of the allocated scenario world. *)
Definition scenario_index : Windex.t :=
  match World.indices Scenario.allocated with
  | Some wi => wi
  | None => Windex.init []
  end.

(** C4, witness: [[b, (b, 'x'), a]] in the scenario. *)
Lemma resolve_list_is_concat_witness :
  getitem scenario_index
    (Multi [Name "b"; Tuple "b" (One "x"); Name "a"])
  = inr (NpArray (concat [[1; 2; 3]; [1; 2]; [0]])).
Proof.
  apply resolve_list_is_concat; [reflexivity|].
  repeat constructor.
Defined.

End Resolver.

(** ** The channel registry *)

Module Registry.

Import Exc World.

Ltac exc_unfold :=
  unfold bind, ret, raise, lift, get_self, put_self, gets in *.

Section Elt.
Context {elt : Type}.
Variable zero : elt.

Local Abbreviation World := (World.t elt).
Implicit Types (w : World).

Lemma with_heap_same : forall w, with_heap (heap w) w = w.
Proof. intros []; reflexivity. Qed.

(** [add_channel] on an unallocated world: the constructor decides. *)
Lemma add_channel_unallocated : forall w id dt kw,
  mem w = None ->
  add_channel id dt kw w =
    match Channel.init id dt kw (heap w) with
    | (inl e, _) => (inl e, w)
    | (inr ch, h) =>
        (inr tt, with_channels (set id ch (channels w)) (with_heap h w))
    end.
Proof.
  intros w id dt kw H; unfold add_channel, on_heap, put_channel; exc_unfold.
  rewrite H.
  destruct (Channel.init id dt kw (heap w)) as [[e|ch] h] eqn:E;
    [|reflexivity].
  apply HeapFacts.init_fails in E; subst h; now rewrite with_heap_same.
Qed.

Lemma add_channel_allocated : forall w id dt kw,
  mem w <> None ->
  add_channel id dt kw w = (inl (ValueError AddChannelAfterAlloc), w).
Proof.
  intros w id dt kw H; unfold add_channel; exc_unfold.
  destruct (mem w); [reflexivity|contradiction].
Qed.

Lemma add_channels_allocated : forall w chs,
  mem w <> None ->
  add_channels chs w = (inl (ValueError AddChannelsAfterAlloc), w).
Proof.
  intros w chs H; unfold add_channels; exc_unfold.
  destruct (mem w); [reflexivity|contradiction].
Qed.

(** A failing [add_channel] leaves the world as it was; no call to it
    touches the buffer or the resolver. *)
Lemma add_channel_frame : forall w id dt kw,
  (forall e w', add_channel id dt kw w = (inl e, w') -> w' = w) /\
  mem (snd (add_channel id dt kw w)) = mem w /\
  indices (snd (add_channel id dt kw w)) = indices w /\
  shape (snd (add_channel id dt kw w)) = shape w.
Proof.
  intros w id dt kw.
  destruct (mem w) as [m|] eqn:E.
  - rewrite add_channel_allocated by congruence; simpl.
    split; [intros e w' [= _ <-]; reflexivity|auto].
  - rewrite add_channel_unallocated by exact E.
    destruct (Channel.init id dt kw (heap w)) as [[e|ch] h]; simpl.
    + split; [intros e0 w' [= _ <-]; reflexivity|auto].
    + split; [discriminate|auto].
Qed.

Lemma add_channel_kw_frame : forall w chid ch,
  (forall e w', add_channel_kw chid ch w = (inl e, w') -> w' = w) /\
  mem (snd (add_channel_kw chid ch w)) = mem w /\
  indices (snd (add_channel_kw chid ch w)) = indices w /\
  shape (snd (add_channel_kw chid ch w)) = shape w.
Proof.
  intros w chid ch; unfold add_channel_kw.
  destruct (contains "self" ch || contains "id" ch).
  - exc_unfold; simpl.
    split; [intros e w' [= _ <-]; reflexivity|auto].
  - apply add_channel_frame.
Qed.

Lemma add_channel_obj_frame : forall w chid r d,
  (forall e w', add_channel_obj chid r d w = (inl e, w') -> w' = w) /\
  mem (snd (add_channel_obj chid r d w)) = mem w /\
  indices (snd (add_channel_obj chid r d w)) = indices w /\
  shape (snd (add_channel_obj chid r d w)) = shape w.
Proof.
  intros w chid r d; unfold add_channel_obj, bind, get_self.
  destruct (Channel.deref (Channel.Named r) (heap w)).
  - unfold raise; simpl.
    split; [intros e w' [= _ <-]; reflexivity|auto].
  - apply add_channel_kw_frame.
Qed.

(** One turn of the loop of [add_channels]. *)
Definition register_entry (chs : dict pyval) (chid : string) : Exc.M World unit :=
  add_channels_loop chs [chid].

Lemma loop_cons : forall chs chid r w,
  add_channels_loop chs (chid :: r) w =
    match register_entry chs chid w with
    | (inl e, w') => (inl e, w')
    | (inr _, w') => add_channels_loop chs r w'
    end.
Proof.
  intros chs chid r w; unfold register_entry; simpl.
  assert (K : forall (m : Exc.M World unit),
             (m ;; add_channels_loop chs r)%exc w =
               match (m ;; ret tt)%exc w with
               | (inl e, w') => (inl e, w')
               | (inr _, w') => add_channels_loop chs r w'
               end).
  { intros m; unfold bind, ret.
    destruct (m w) as [[e|[]] w1]; reflexivity. }
  destruct (get chid chs) as [[]|]; try apply K; reflexivity.
Qed.

Lemma register_entry_frame : forall chs chid w,
  (forall e w', register_entry chs chid w = (inl e, w') -> w' = w) /\
  mem (snd (register_entry chs chid w)) = mem w /\
  indices (snd (register_entry chs chid w)) = indices w /\
  shape (snd (register_entry chs chid w)) = shape w.
Proof.
  intros chs chid w; unfold register_entry; simpl.
  destruct (get chid chs) as [v|].
  - assert (K : forall (m : Exc.M World unit),
               ((forall e w', m w = (inl e, w') -> w' = w) /\
                mem (snd (m w)) = mem w /\
                indices (snd (m w)) = indices w /\
                shape (snd (m w)) = shape w) ->
               (forall e w', (m ;; ret tt)%exc w = (inl e, w') -> w' = w) /\
               mem (snd ((m ;; ret tt)%exc w)) = mem w /\
               indices (snd ((m ;; ret tt)%exc w)) = indices w /\
               shape (snd ((m ;; ret tt)%exc w)) = shape w).
    { intros m (Hf & Hm & Hi & Hs); exc_unfold.
      destruct (m w) as [[e|[]] w1] eqn:E; simpl in *.
      - split; [intros e0 w' [= _ <-]; eapply Hf; reflexivity|auto].
      - split; [discriminate|auto]. }
    destruct v; apply K;
      try apply add_channel_frame;
      try apply add_channel_kw_frame; apply add_channel_obj_frame.
  - exc_unfold; simpl.
    split; [intros e w' [= _ <-]; reflexivity|auto].
Qed.

Lemma loop_app : forall chs l1 l2 w w1,
  add_channels_loop chs l1 w = (inr tt, w1) ->
  add_channels_loop chs (l1 ++ l2) w = add_channels_loop chs l2 w1.
Proof.
  intros chs l1; induction l1 as [|k r IH]; intros l2 w w1 H.
  - simpl in H; exc_unfold; injection H as <-; reflexivity.
  - simpl app; rewrite loop_cons in *.
    destruct (register_entry chs k w) as [[e|[]] w2]; [discriminate|].
    now apply IH.
Qed.

(** Where the loop of [add_channels] stops when it fails. *)
Lemma loop_failure : forall chs l w e w',
  add_channels_loop chs l w = (inl e, w') ->
  exists done failed rest,
    l = done ++ failed :: rest /\
    add_channels_loop chs done w = (inr tt, w') /\
    register_entry chs failed w' = (inl e, w').
Proof.
  intros chs l; induction l as [|k r IH]; intros w e w' H.
  - simpl in H; exc_unfold; discriminate.
  - rewrite loop_cons in H.
    destruct (register_entry chs k w) as [[e1|[]] w1] eqn:E.
    + injection H as <- <-.
      pose proof (proj1 (register_entry_frame chs k w) _ _ E) as ->.
      exists [], k, r; repeat split; auto.
    + destruct (IH _ _ _ H) as (done & failed & rest & -> & Hd & Hf).
      exists (k :: done), failed, rest; repeat split; auto.
      rewrite loop_cons, E; exact Hd.
Qed.

Lemma loop_frame : forall chs l w,
  mem (snd (add_channels_loop chs l w)) = mem w /\
  indices (snd (add_channels_loop chs l w)) = indices w /\
  shape (snd (add_channels_loop chs l w)) = shape w.
Proof.
  intros chs l; induction l as [|k r IH]; intros w.
  - simpl; auto.
  - rewrite loop_cons.
    destruct (register_entry_frame chs k w) as (_ & Hm & Hi & Hs).
    destruct (register_entry chs k w) as [[e|[]] w1]; simpl in *; auto.
    destruct (IH w1) as (Hm' & Hi' & Hs').
    rewrite Hm', Hi', Hs'; auto.
Qed.

(** The registry never holds a name twice. *)
Lemma add_channel_nodup : forall w id dt kw,
  NoDup (keys (channels w)) ->
  NoDup (keys (channels (snd (add_channel id dt kw w)))).
Proof.
  intros w id dt kw H.
  destruct (mem w) as [m|] eqn:E.
  - rewrite add_channel_allocated by congruence; exact H.
  - rewrite add_channel_unallocated by exact E.
    destruct (Channel.init id dt kw (heap w)) as [[e|ch] h]; simpl;
      [exact H|].
    now apply DictFacts.NoDup_keys_set.
Qed.

Lemma register_entry_nodup : forall chs chid w,
  NoDup (keys (channels w)) ->
  NoDup (keys (channels (snd (register_entry chs chid w)))).
Proof.
  intros chs chid w H; unfold register_entry; simpl.
  assert (K : forall (m : Exc.M World unit),
             NoDup (keys (channels (snd (m w)))) ->
             NoDup (keys (channels (snd ((m ;; ret tt)%exc w))))).
  { intros m Hm; exc_unfold.
    destruct (m w) as [[e|[]] w1]; simpl in *; exact Hm. }
  assert (Kw : forall d, NoDup (keys (channels (snd (add_channel_kw chid d w))))).
  { intros d; unfold add_channel_kw.
    destruct (contains "self" d || contains "id" d); [exact H|].
    now apply add_channel_nodup. }
  destruct (get chid chs) as [v|]; [|exact H].
  destruct v; apply K; try apply add_channel_nodup; auto.
  unfold add_channel_obj, bind, get_self.
  destruct (Channel.deref (Channel.Named r) (heap w)); [exact H|apply Kw].
Qed.

Lemma loop_nodup : forall chs l w,
  NoDup (keys (channels w)) ->
  NoDup (keys (channels (snd (add_channels_loop chs l w)))).
Proof.
  intros chs l; induction l as [|k r IH]; intros w H; [exact H|].
  rewrite loop_cons.
  pose proof (register_entry_nodup chs k w H) as H1.
  destruct (register_entry chs k w) as [[e|[]] w1]; simpl in *; auto.
Qed.

(** What the constructor hands over: the grid with no reserved prefix,
    no buffer, and a registry without repeated names. *)
Lemma init_wf : forall sh dt dv chs w,
  World.init sh dt dv chs = inr w ->
  shape w = [fst sh; snd sh; 0] /\
  mem w = None /\
  NoDup (keys (channels w)).
Proof.
  intros sh dt dv chs w H; unfold World.init in H.
  destruct chs as [chs|].
  - unfold add_channels in H; exc_unfold; simpl in H.
    set (w0 := World.mk [fst sh; snd sh; 0] None None dt dv [] []) in H.
    destruct (loop_frame chs (keys chs) w0) as (Hm & _ & Hs).
    pose proof (loop_nodup chs (keys chs) w0 (NoDup_nil _)) as Hn.
    destruct (add_channels_loop chs (keys chs) w0) as [[e|[]] w1];
      [discriminate|].
    injection H as <-; simpl in *; auto.
  - injection H as <-; simpl; repeat split; constructor.
Qed.

(** C6 (as the code has it). Registering a name that is already in
    the registry of an unallocated world is not refused: whenever the
    descriptor can be built, the call succeeds and stores the new
    descriptor under that name, which keeps its place in the order.
    Every other name keeps its descriptor, and the entries of its
    metadata dictionary unless that dictionary is the one of the new
    descriptor; and unless the caller passes, as metadata, a dictionary
    that is in the store, no dictionary of the store changes. *)
Theorem duplicate_name_replaces : forall w id dt kw ch h',
  mem w = None ->
  In id (keys (channels w)) ->
  Channel.init id dt kw (heap w) = (inr ch, h') ->
  let w' := snd (add_channel id dt kw w) in
  fst (add_channel id dt kw w) = inr tt /\
  keys (channels w') = keys (channels w) /\
  get id (channels w') = Some ch /\
  (forall k c, k <> id -> get k (channels w) = Some c ->
     get k (channels w') = Some c /\
     (Channel.metadata c <> Channel.metadata ch ->
      Channel.contents c (heap w') = Channel.contents c (heap w))) /\
  ((forall r d, get "metadata" kw = Some (PObj r d) ->
                Channel.deref (Channel.Named r) (heap w) = None) ->
   forall a d, Channel.deref a (heap w) = Some d ->
               Channel.deref a (heap w') = Some d).
Proof.
  intros w id dt kw ch h' Hm Hin Hc; simpl.
  rewrite add_channel_unallocated, Hc by exact Hm; simpl.
  destruct (HeapFacts.init_returns _ _ _ _ _ _ Hc)
    as (_ & _ & _ & _ & _ & Hother).
  split; [reflexivity|].
  split; [now apply DictFacts.keys_set_in|].
  split; [apply DictFacts.get_set_eq|].
  split.
  - intros k c Hk Hg; split.
    + rewrite DictFacts.get_set_neq by exact Hk; exact Hg.
    + intros Hne; unfold Channel.contents; now rewrite Hother.
  - intros Hnew a d Hr; rewrite Hother; [exact Hr|].
    intros ->.
    destruct (HeapFacts.init_address _ _ _ _ _ _ Hc)
      as [Hf|(r0 & d0 & Hd & Hf)]; rewrite Hf in Hr.
    + rewrite HeapFacts.fresh_unused in Hr; discriminate.
    + rewrite (Hnew _ _ Hd) in Hr; discriminate.
Qed.

(** C9 (as the code has it). [add_channels] registers entry after
    entry and undoes nothing: when it fails on an unallocated world,
    the world it leaves is the one obtained by registering the
    entries before the failing one, and the failing entry itself
    changed nothing. *)
Theorem add_channels_stops_at_failure : forall w chs e w',
  mem w = None ->
  add_channels chs w = (inl e, w') ->
  exists done failed rest,
    keys chs = done ++ failed :: rest /\
    add_channels_loop chs done w = (inr tt, w') /\
    register_entry chs failed w' = (inl e, w').
Proof.
  intros w chs e w' Hm H; unfold add_channels in H; exc_unfold.
  rewrite Hm in H; now apply loop_failure.
Qed.

End Elt.

(** C6, witness: [a] registered again, with another element type.
    The new descriptor gets a dictionary of its own, the third. *)
Lemma duplicate_name_replaces_witness :
  let w := Scenario.registered in
  let w' := snd (add_channel "a" (PType (TiPrim i32)) [] w) in
  let ch := Channel.mk "a" Channel.default_lims (PType (TiPrim i32))
              false None (Channel.Unnamed 3) in
  fst (add_channel "a" (PType (TiPrim i32)) [] w) = inr tt /\
  keys (channels w') = keys (channels w) /\
  get "a" (channels w') = Some ch /\
  (forall k c, k <> "a" -> get k (channels w) = Some c ->
     get k (channels w') = Some c /\
     (Channel.metadata c <> Channel.metadata ch ->
      Channel.contents c (heap w') = Channel.contents c (heap w))) /\
  ((forall r d, get "metadata" (@nil (string * pyval)) = Some (PObj r d) ->
                Channel.deref (Channel.Named r) (heap w) = None) ->
   forall a d, Channel.deref a (heap w) = Some d ->
               Channel.deref a (heap w') = Some d).
Proof.
  apply (duplicate_name_replaces Scenario.registered "a"
           (PType (TiPrim i32)) []
           (Channel.mk "a" Channel.default_lims (PType (TiPrim i32))
              false None (Channel.Unnamed 3))
           (snd (Channel.init "a" (PType (TiPrim i32)) []
                   (heap Scenario.registered)))).
  - reflexivity.
  - simpl; auto.
  - reflexivity.
Defined.

(** C6, counterexample: on the unallocated scenario world, which has a
    channel [a], registering [a] again does not fail and changes the
    registry. *)
Lemma duplicate_name_accepted :
  In "a" (keys (channels Scenario.registered)) /\
  mem Scenario.registered = None /\
  fst (add_channel "a" (PType (TiPrim i32)) [] Scenario.registered) = inr tt /\
  get "a" (channels (snd (add_channel "a" (PType (TiPrim i32)) []
                            Scenario.registered)))
    <> get "a" (channels Scenario.registered).
Proof.
  split; [simpl; auto|].
  split; [reflexivity|].
  split; [reflexivity|].
  vm_compute; discriminate.
Qed.

(** C9, witness: the mapping whose second entry is refused. *)
Lemma add_channels_stops_at_failure_witness :
  exists done failed rest,
    keys Scenario.half_bad = done ++ failed :: rest /\
    add_channels_loop Scenario.half_bad done Scenario.fresh
      = (inr tt, snd (add_channels Scenario.half_bad Scenario.fresh)) /\
    register_entry Scenario.half_bad failed
        (snd (add_channels Scenario.half_bad Scenario.fresh))
      = (inl TypeError, snd (add_channels Scenario.half_bad Scenario.fresh)).
Proof.
  apply (add_channels_stops_at_failure Scenario.fresh Scenario.half_bad).
  - reflexivity.
  - reflexivity.
Defined.

(** C9, counterexample: [add_channels] fails on the second entry of
    the mapping and the first entry stays registered. *)
Lemma add_channels_not_atomic :
  channels Scenario.fresh = [] /\
  fst (add_channels Scenario.half_bad Scenario.fresh) = inl TypeError /\
  keys (channels (snd (add_channels Scenario.half_bad Scenario.fresh)))
    = ["a"].
Proof. repeat split. Qed.

End Registry.

(** ** The accessors *)

Module Accessor.

Import Exc World.

(** The resolver's mode as a caller observes it. *)
Definition mode {elt} (w : World.t elt) : option bool :=
  option_map Windex.does_return_ti (indices w).

Section Elt.
Context {elt : Type}.
Variable zero : elt.

Local Abbreviation World := (World.t elt).
Implicit Types (w : World).

(** What [__getitem__] does on an allocated world, case by case. *)
Lemma getitem_allocated : forall w key m wi,
  mem w = Some m ->
  indices w = Some wi ->
  getitem zero key w =
    let host := with_indices (Some (Windex.return_ti false wi)) w in
    match Windex.getitem (Windex.return_ti false wi) key with
    | inl e => (inl e, host)
    | inr (Windex.Field _) => (inl TypeError, host)
    | inr (Windex.NpArray l) =>
        match Tensor.index zero m l with
        | inl e => (inl e, host)
        | inr val =>
            (inr val,
             with_indices
               (Some (Windex.return_ti (Windex.does_return_ti wi) wi)) w)
        end
    end.
Proof.
  intros [sh m0 wi0 dt dv chs hp] key m wi Hm Hi; simpl in *; subst.
  unfold getitem, indices_does_return_ti, indices_return_ti,
    indices_getitem, mem_index, bind, ret, raise, lift, get_self, put_self;
    simpl.
  destruct (Windex.getitem (Windex.return_ti false wi) key) as [e|[l|f]];
    simpl; reflexivity.
Qed.

(** A read that returns leaves the resolver's mode as it found it. *)
Lemma getitem_returns_mode : forall w key val w',
  getitem zero key w = (inr val, w') -> mode w' = mode w.
Proof.
  intros w key val w' H.
  destruct (mem w) as [m|] eqn:Hm.
  - destruct (indices w) as [wi|] eqn:Hi.
    + rewrite (getitem_allocated _ _ _ _ Hm Hi) in H; simpl in H.
      destruct (Windex.getitem (Windex.return_ti false wi) key) as [e|[l|f]];
        try discriminate.
      destruct (Tensor.index zero m l); try discriminate.
      injection H as _ <-; unfold mode; simpl; now rewrite Hi.
    + unfold getitem, indices_does_return_ti, bind, get_self, raise in H.
      rewrite Hm, Hi in H; discriminate.
  - unfold getitem, bind, get_self, raise in H; rewrite Hm in H; discriminate.
Qed.

(** What a call of [__setitem__] can do to an allocated world: the
    index tree and the shape stay, and the buffer either stays or
    receives one [select_copy] at the single index of the reference. *)
Lemma setitem_effect : forall w key value m wi,
  mem w = Some m ->
  indices w = Some wi ->
  exists m' wi',
    mem (snd (setitem zero key value w)) = Some m' /\
    indices (snd (setitem zero key value w)) = Some wi' /\
    Windex.index_tree wi' = Windex.index_tree wi /\
    shape (snd (setitem zero key value w)) = shape w /\
    channels (snd (setitem zero key value w)) = channels w /\
    (m' = m \/
     exists k0 v,
       Windex.getitem (Windex.return_ti false wi) key
         = inr (Windex.NpArray [k0]) /\
       Tensor.select_copy m k0 v = inr m').
Proof.
  intros [sh m0 wi0 dt dv chs hp] key value m wi Hm Hi; simpl in *; subst.
  unfold setitem, getitem, indices_does_return_ti, indices_return_ti,
    indices_getitem, mem_index, bind, ret, raise, lift, get_self, put_self,
    Windex.return_ti; simpl.
  destruct (Windex.getitem (Windex.mk (Windex.index_tree wi) false) key)
    as [e|[l|f]] eqn:E;
    simpl; try (eexists _, _; repeat split; eauto; fail).
  destruct l as [|k0 [|k1 l]]; simpl.
  - eexists _, _; repeat split; eauto.
  - destruct (negb _); simpl; [eexists _, _; repeat split; eauto|].
    destruct (Tensor.select_copy m k0 _) eqn:Es; simpl;
      eexists _, _; repeat split; eauto.
  - rewrite E; simpl.
    destruct (Tensor.index zero m (k0 :: k1 :: l)) eqn:Ei; simpl;
      [eexists _, _; repeat split; eauto|].
    destruct (negb _); simpl; rewrite ?Ei; simpl;
      eexists _, _; repeat split; eauto.
Qed.

End Elt.

(** C2, at the failing input: in the allocated scenario, the write of
    ones to [b.x] returns normally and the read of [b.x] that follows
    returns zeros, not the value written. *)
Theorem write_to_vector_channel_is_lost :
  let V := Scenario.ones 2 in
  let w := Scenario.allocated in
  let w' := snd (setitem 0%Z Scenario.key_bx V w) in
  fst (getitem 0%Z Scenario.key_bx w) = inr (Tensor.zeros 0%Z [4; 4; 2]) /\
  Tensor.shape V = [4; 4; 2] /\
  fst (setitem 0%Z Scenario.key_bx V w) = inr tt /\
  fst (getitem 0%Z Scenario.key_bx w') = inr (Tensor.zeros 0%Z [4; 4; 2]) /\
  Tensor.zeros 0%Z [4; 4; 2] <> V.
Proof.
  repeat split; try (vm_compute; reflexivity).
  vm_compute; discriminate.
Qed.

(** The single-index branch does reach the buffer: ones written to
    [b.y] are read back. *)
Example write_to_scalar_channel_round_trip :
  let V := Scenario.ones 1 in
  let w' := snd (setitem 0%Z Scenario.key_by V Scenario.allocated) in
  fst (setitem 0%Z Scenario.key_by V Scenario.allocated) = inr tt /\
  fst (getitem 0%Z Scenario.key_by w') = inr V.
Proof. split; vm_compute; reflexivity. Qed.

(** The scenario world after [world.indices.return_ti(True)]. *)
Definition device_mode : World.t Z :=
  snd (indices_return_ti true Scenario.allocated).

(** C10, at the failing input: with the resolver in device mode, a
    read of an unknown channel raises after the accessor has forced
    host mode, and the mode is left there. *)
Theorem failed_read_leaves_host_mode :
  let key := Windex.Single (Windex.Name "zz") in
  mode device_mode = Some true /\
  fst (getitem 0%Z key device_mode) = inl (KeyError "zz") /\
  mode (snd (getitem 0%Z key device_mode)) = Some false.
Proof. repeat split. Qed.

(** The same happens on the write path. *)
Example failed_write_leaves_host_mode :
  let key := Windex.Single (Windex.Name "zz") in
  fst (setitem 0%Z key (Scenario.ones 1) device_mode) = inl (KeyError "zz") /\
  mode (snd (setitem 0%Z key (Scenario.ones 1) device_mode)) = Some false.
Proof. repeat split. Qed.

End Accessor.

(** ** The layout planner *)

Module Layout.

Import Taichi Exc World.

(** Runs of slots placed one after the other from [start] on. *)
Fixpoint laid_out (start : nat) (runs : list (list nat)) : Prop :=
  match runs with
  | [] => True
  | r :: rest => r = seq start (length r) /\ laid_out (start + length r) rest
  end.



Lemma range_seq : forall p d, range p (p + d) = seq p d.
Proof. intros; unfold range; f_equal; lia. Qed.

Lemma laid_out_app : forall l1 l2 p,
  laid_out p (l1 ++ l2) <->
  laid_out p l1 /\ laid_out (p + length (concat l1)) l2.
Proof.
  induction l1 as [|r l1 IH]; intros l2 p; simpl.
  - rewrite Nat.add_0_r; tauto.
  - rewrite IH, length_app, Nat.add_assoc; tauto.
Qed.

Lemma laid_out_concat : forall l p,
  laid_out p l -> concat l = seq p (length (concat l)).
Proof.
  induction l as [|r l IH]; intros p H; simpl in *; [reflexivity|].
  destruct H as [Hr Hl].
  rewrite length_app, seq_app, <- (IH _ Hl), <- Hr; reflexivity.
Qed.




Section Elt.
Context {elt : Type}.
Variable zero : elt.

Local Abbreviation World := (World.t elt).
Local Abbreviation Tensor := (Tensor.t elt).
Local Abbreviation tdata := (Taichi.tdata elt).

(** The per-cell depth of a channel's data: the size of the trailing
    dimension of a 3-D tensor, 1 for a 2-D tensor. *)
Definition tensor_depth (x : Tensor) : nat :=
  if Nat.eqb (length (Tensor.shape x)) 2 then 1 else nth 2 (Tensor.shape x) 0.

Definition member_depth (v : tdata) : nat :=
  match v with TTensor _ x => tensor_depth x | TDict _ => 0 end.

(** The depth of a top-level channel; a group has the depths of its
    sub-channels together. *)
Definition channel_depth (v : tdata) : nat :=
  match v with
  | TTensor _ x => tensor_depth x
  | TDict d => list_sum (map (fun kv => member_depth (snd kv)) d)
  end.

(** A tensor the world accepts as channel data. *)
Definition fits (self : World) (x : Tensor) : Prop :=
  2 <= length (Tensor.shape x) <= 3 /\
  firstn 2 (Tensor.shape x) = firstn 2 (shape self).

Lemma check_ch_shape_ok : forall self x n,
  check_ch_shape self (Tensor.shape x) = inr n ->
  n = tensor_depth x /\ fits self x.
Proof.
  intros self x n; unfold check_ch_shape, tensor_depth, fits, Tensor.shape_eqb.
  destruct (Nat.ltb 3 _) eqn:E1; [discriminate|].
  destruct (Nat.ltb _ 2) eqn:E2; [discriminate|]; simpl.
  destruct (list_eq_dec _ _ _) as [E|E]; [|discriminate]; simpl.
  apply Nat.ltb_ge in E1, E2.
  destruct (Nat.eqb _ 2); intros [= <-]; auto.
Qed.

(** The sub-channels of a group, laid out from [p] on in the order of
    the group's data, each as wide as its tensor is deep. *)
Fixpoint subs_ok (self : World) (p : nat) (its : list (string * tdata))
    (subs : list (string * Windex.subtree)) : Prop :=
  match its, subs with
  | [], [] => True
  | (k, v) :: its', (k', st) :: subs' =>
      k = k' /\
      (exists dt x, v = TTensor dt x /\ fits self x) /\
      Windex.sub_indices st = seq p (member_depth v) /\
      Windex.sub_indices_ti st = TiFieldI32 (Windex.sub_indices st) /\
      subs_ok self (p + member_depth v) its' subs'
  | _, _ => False
  end.

(** The channels of the world, laid out from [p] on in the order of
    the data, each as wide as its data is deep; a group spans the runs
    of its sub-channels. *)
Fixpoint tree_ok (self : World) (p : nat) (its : list (string * tdata))
    (tree : list (string * Windex.chtree)) : Prop :=
  match its, tree with
  | [], [] => True
  | (k, v) :: its', (k', ch) :: tree' =>
      k = k' /\
      Windex.indices ch = seq p (channel_depth v) /\
      Windex.indices_ti ch = TiFieldI32 (Windex.indices ch) /\
      match v with
      | TTensor _ x => Windex.subchannels ch = None /\ fits self x
      | TDict d =>
          exists subs,
            Windex.subchannels ch = Some subs /\ subs_ok self p d subs
      end /\
      tree_ok self (p + channel_depth v) its' tree'
  | _, _ => False
  end.

Lemma fresh_tail : forall {V W} (k : string) (v : V) (its : list (string * W))
    (acc : dict V) (e : string * V),
  NoDup (k :: keys its) ->
  (forall k', In k' (k :: keys its) -> ~ In k' (keys acc)) ->
  forall k', In k' (keys its) -> ~ In k' (keys (acc ++ [(k, v)])).
Proof.
  intros V W k v its acc e ND H k' Hk'.
  unfold keys; rewrite map_app, in_app_iff; simpl.
  inversion ND as [|? ? Hn _]; subst.
  intros [Hin|[<-|[]]]; [|contradiction].
  apply (H k'); [now right|exact Hin].
Qed.

Lemma index_subchannels_loop_ok : forall self its acc p tree ep,
  index_subchannels_loop self its acc p = inr (tree, ep) ->
  NoDup (keys its) ->
  (forall k, In k (keys its) -> ~ In k (keys acc)) ->
  exists subs,
    tree = acc ++ subs /\
    subs_ok self p its subs /\
    ep = p + channel_depth (TDict its).
Proof.
  intros self its; induction its as [|[k [dt x|d]] its IH];
    intros acc p tree ep H ND Hf; simpl in H.
  - injection H as <- <-; exists []; simpl.
    rewrite app_nil_r, Nat.add_0_r; auto.
  - destruct (check_ch_shape self (Tensor.shape x)) as [e|n] eqn:E;
      [discriminate|].
    destruct (check_ch_shape_ok _ _ _ E) as [-> Hfit].
    pose proof Hfit as [[? ?] ?].
    rewrite range_seq in H.
    rewrite DictFacts.set_notin in H by (apply Hf; now left).
    apply IH in H.
    + destruct H as (subs & -> & Hs & ->).
      eexists (_ :: subs); rewrite <- app_assoc; simpl.
      repeat split; eauto; lia.
    + now inversion ND.
    + eapply fresh_tail; eauto; exact (k, Windex.mkSub [] (TiFieldI32 [])).
  - discriminate.
Qed.

Lemma index_loop_ok : forall self its acc p tree ep,
  index_loop self its acc p = inr (tree, ep) ->
  NoDup (keys its) ->
  (forall k d, In (k, TDict d) its -> NoDup (keys d)) ->
  (forall k, In k (keys its) -> ~ In k (keys acc)) ->
  exists news,
    tree = acc ++ news /\
    tree_ok self p its news /\
    ep = p + list_sum (map (fun kv => channel_depth (snd kv)) its).
Proof.
  intros self its; induction its as [|[k [dt x|d]] its IH];
    intros acc p tree ep H ND Hd Hf; simpl in H.
  - injection H as <- <-; exists []; simpl.
    rewrite app_nil_r, Nat.add_0_r; auto.
  - destruct (check_ch_shape self (Tensor.shape x)) as [e|n] eqn:E;
      [discriminate|].
    destruct (check_ch_shape_ok _ _ _ E) as [-> Hfit].
    pose proof Hfit as [[? ?] ?].
    rewrite range_seq in H.
    rewrite DictFacts.set_notin in H by (apply Hf; now left).
    apply IH in H.
    + destruct H as (news & -> & Hs & ->).
      eexists (_ :: news); rewrite <- app_assoc; simpl.
      repeat split; eauto; lia.
    + now inversion ND.
    + intros k' d' Hin; apply (Hd k' d'); now right.
    + eapply fresh_tail; eauto; exact (k, Windex.mkCh None [] (TiFieldI32 [])).
  - unfold _index_subchannels, items in H.
    destruct (index_subchannels_loop self d [] p) as [e|[subs ep']] eqn:E;
      [discriminate|].
    apply index_subchannels_loop_ok in E;
      [|apply (Hd k d); now left|intros ? ? []].
    destruct E as (subs' & -> & Hsubs & ->); simpl app in *.
    replace (p + channel_depth (TDict d) - p) with (channel_depth (TDict d)) in H
      by lia.
    rewrite range_seq in H.
    rewrite DictFacts.set_notin in H by (apply Hf; now left).
    apply IH in H.
    + destruct H as (news & -> & Hs & ->).
      eexists (_ :: news); rewrite <- app_assoc; simpl.
      repeat split; eauto; [|lia].
      exists subs'; split; [reflexivity|exact Hsubs].
    + now inversion ND.
    + intros k' d' Hin; apply (Hd k' d'); now right.
    + eapply fresh_tail; eauto; exact (k, Windex.mkCh None [] (TiFieldI32 [])).
Qed.

End Elt.

End Layout.

(** ** Facts about tensors *)

Module TensorFacts.

Import Tensor.

Section Elt.
Context {elt : Type}.
Variable zero : elt.

Local Abbreviation Tensor := (Tensor.t elt).

Lemma length_list_set : forall (l : list elt) i v,
  length (list_set i v l) = length l.
Proof.
  induction l as [|x l IH]; intros [|i] v; simpl; auto.
Qed.

Lemma nth_list_set_eq : forall (l : list elt) i v d,
  i < length l -> nth i (list_set i v l) d = v.
Proof.
  induction l as [|x l IH]; intros [|i] v d H; simpl in *; try lia; auto.
  apply IH; lia.
Qed.

Lemma nth_list_set_neq : forall (l : list elt) i k v d,
  k <> i -> nth k (list_set i v l) d = nth k l d.
Proof.
  induction l as [|x l IH]; intros [|i] [|k] v d H; simpl; auto; try lia.
Qed.


(** Whatever the source, [zip_cells] keeps what its step keeps. *)
Lemma zip_cells_Forall : forall (P : list elt -> Prop) f dst src,
  (forall c s, P c -> P (f c s)) ->
  Forall P dst -> Forall P (zip_cells f dst src).
Proof.
  intros P f dst; induction dst as [|c dst IH]; intros [|s src] Hf H; simpl;
    auto.
  inversion H; subst; constructor; auto.
Qed.

Lemma length_zip_cells : forall f (dst src : list (list elt)),
  length (zip_cells f dst src) = length dst.
Proof.
  induction dst as [|c dst IH]; intros [|s src]; simpl; auto.
Qed.



(** A tensor whose cells are all there and all of depth [D]. *)
Definition mem_ok (gw gh D : nat) (m : Tensor) : Prop :=
  shape m = [gw; gh; D] /\
  length (cells m) = gw * gh /\
  Forall (fun c => length c = D) (cells m).







End Elt.

End TensorFacts.

(** ** Allocation *)

Module Allocation.

Import Taichi Exc World Layout TensorFacts.

Lemma bind_ok : forall {S A B} (m : Exc.M S A) (f : A -> Exc.M S B) s b s',
  bind m f s = (inr b, s') ->
  exists a s1, m s = (inr a, s1) /\ f a s1 = (inr b, s').
Proof.
  intros S A B m f s b s' H; unfold bind in H.
  destruct (m s) as [[e|a] s1]; [discriminate|]; eauto.
Qed.

Lemma lift_ok : forall {S A} (r : exn + A) (s : S) a s',
  lift r s = (inr a, s') -> r = inr a /\ s' = s.
Proof. intros S A r s a s' H; unfold lift in H; now injection H as -> ->. Qed.

Section Elt.
Context {elt : Type}.
Variable zero : elt.

Local Abbreviation World := (World.t elt).
Local Abbreviation Tensor := (Tensor.t elt).
Local Abbreviation tdata := (Taichi.tdata elt).
Local Abbreviation M := (Exc.M World).

(** *** What the taichi field converts to *)

Lemma to_torch_struct : forall grid ms,
  to_torch zero grid (TiStruct ms)
  = TDict (DictFacts.comprehend (to_torch zero grid) [] ms).
Proof. reflexivity. Qed.

Lemma field_to_torch_eq : forall (self : World) ms,
  field_to_torch zero self ms
  = DictFacts.comprehend (to_torch zero (firstn 2 (shape self))) [] ms.
Proof. reflexivity. Qed.




Lemma field_nodup : forall (self : World) ms,
  NoDup (keys (field_to_torch zero self ms)) /\
  (forall k d, In (k, TDict d) (field_to_torch zero self ms) ->
               NoDup (keys d)).
Proof.
  intros self ms; rewrite field_to_torch_eq; split.
  - apply DictFacts.comprehend_nodup; constructor.
  - intros k d H; apply DictFacts.comprehend_In in H.
    destruct H as [[]|[ty Ht]].
    destruct ty; try discriminate.
    rewrite to_torch_struct in Ht; injection Ht as ->.
    apply DictFacts.comprehend_nodup; constructor.
Qed.

Lemma struct_keys : forall l ms,
  Taichi.struct l = inr ms -> keys ms = keys l.
Proof.
  induction l as [|[k v] l IH]; intros ms H; simpl in H.
  - now injection H as <-.
  - destruct v; try discriminate.
    destruct (Taichi.struct l) as [e|ms']; [discriminate|].
    injection H as <-; simpl; f_equal; now apply IH.
Qed.


(** *** The transfer only touches the channel descriptors *)

Definition frame {A} (m : M A) : Prop :=
  forall w r w', m w = (r, w') ->
    mem w' = mem w /\ indices w' = indices w /\ shape w' = shape w.

Lemma frame_bind : forall {A B} (m : M A) (f : A -> M B),
  frame m -> (forall a, frame (f a)) -> frame (bind m f).
Proof.
  intros A B m f Hm Hf w r w' H; unfold bind in H.
  destruct (m w) as [[e|a] w1] eqn:E.
  - injection H as <- <-; eapply Hm; eauto.
  - destruct (Hm _ _ _ E) as (H1 & H2 & H3).
    destruct (Hf a _ _ _ H) as (H1' & H2' & H3').
    rewrite H1', H2', H3'; auto.
Qed.

Lemma frame_lift : forall {A} (r : exn + A), frame (lift r).
Proof. intros A r w r' w' [= _ <-]; auto. Qed.

Lemma frame_ret : forall {A} (a : A), frame (ret a).
Proof. intros A r w r' w' [= _ <-]; auto. Qed.

Lemma frame_raise : forall {A} e, frame (raise (A:=A) e).
Proof. intros A r w r' w' [= _ <-]; auto. Qed.

Lemma frame_get_channel : forall chid, frame (get_channel chid).
Proof.
  intros chid w r w' H; unfold get_channel, bind, get_self, ret, raise in H.
  destruct (get chid (channels w)); injection H as _ <-; auto.
Qed.

Lemma frame_put_channel : forall chid c, frame (put_channel chid c).
Proof.
  intros chid c w r w' H; unfold put_channel, bind, get_self, put_self in H.
  injection H as _ <-; auto.
Qed.

Lemma frame_on_heap : forall {A} (m : Exc.M Channel.heap A),
  frame (on_heap m).
Proof.
  intros A m w r w' H; unfold on_heap in H.
  destruct (m (heap w)) as [r0 h]; injection H as _ <-; auto.
Qed.

Lemma frame_gets : forall {A} (f : World -> A), frame (gets f).
Proof. intros A f w r w' [= _ <-]; auto. Qed.

Lemma frame_check_sub_dtype : forall dt, frame (check_sub_dtype dt).
Proof.
  intros dt w r w' H; unfold check_sub_dtype, bind, get_self, ret, raise in H.
  destruct (String.eqb dt (torch_dtype w)); injection H as _ <-; auto.
Qed.

Lemma frame_link_sub : forall chid subchid inds,
  frame (link_sub chid subchid inds).
Proof.
  intros; unfold link_sub; apply frame_bind; [apply frame_get_channel|].
  intros c; apply frame_bind; [apply frame_gets|].
  intros [[]|]; try apply frame_raise.
  apply frame_bind; [apply frame_on_heap|]; intros sc.
  apply frame_on_heap.
Qed.

Lemma frame_transfer_subs : forall chid subs m td,
  frame (transfer_subs chid subs m td).
Proof.
  intros chid subs; induction subs as [|[subchid st] subs IH]; intros m td;
    simpl; [apply frame_ret|].
  apply frame_bind; [apply frame_lift|]; intros [[d dt] x].
  apply frame_bind; [apply frame_check_sub_dtype|]; intros _.
  apply frame_bind; [apply frame_lift|]; intros m1.
  apply frame_bind; [apply frame_get_channel|]; intros c.
  apply frame_bind; [apply frame_on_heap|]; intros _.
  apply frame_bind; [apply frame_link_sub|]; intros _.
  apply IH.
Qed.

Lemma frame_transfer_loop : forall tree m td,
  frame (transfer_loop tree m td).
Proof.
  intros tree; induction tree as [|[chid ch] tree IH]; intros m td;
    simpl; [apply frame_ret|].
  destruct (Windex.subchannels ch) as [subs|].
  - apply frame_bind; [apply frame_transfer_subs|]; intros [m1 td1].
    apply frame_bind; [apply frame_get_channel|]; intros c.
    apply frame_bind; [apply frame_on_heap|]; intros c1.
    apply frame_bind; [apply frame_put_channel|]; intros _.
    apply IH.
  - apply frame_bind; [apply frame_lift|]; intros [dt x].
    apply frame_bind; [apply frame_lift|]; intros m1.
    apply frame_bind; [apply frame_get_channel|]; intros c.
    apply frame_bind; [apply frame_on_heap|]; intros c1.
    apply frame_bind; [apply frame_put_channel|]; intros _.
    apply IH.
Qed.

(** *** What a successful [malloc] went through *)

Lemma malloc_inv : forall (w : World) uninit w',
  malloc zero uninit w = (inr tt, w') ->
  exists ms tree ep m' td' w1,
    mem w = None /\
    Taichi.struct (channel_dtypes w) = inr ms /\
    index_loop w (field_to_torch zero w ms) [] (nth 2 (shape w) 0)
      = inr (tree, ep) /\
    transfer_loop (items tree)
      (Tensor.empty uninit (firstn 2 (shape w) ++ [ep]))
      (field_to_torch zero w ms) w = (inr (m', td'), w1) /\
    mem w' = Some m' /\
    indices w' = Some (Windex.init tree) /\
    shape w' = shape w.
Proof.
  intros w uninit w' H; unfold malloc in H.
  apply bind_ok in H; destruct H as (self & w0 & H0 & H).
  unfold get_self in H0; injection H0 as <- <-.
  destruct (mem w) eqn:Em; [discriminate|].
  apply bind_ok in H; destruct H as (ms & w0 & H0 & H).
  apply lift_ok in H0; destruct H0 as [Hs ->].
  apply bind_ok in H; destruct H as ([tree ep] & w0 & H0 & H).
  apply lift_ok in H0; destruct H0 as [Hi ->]; unfold items in Hi.
  apply bind_ok in H; destruct H as (m' & w1 & H0 & H).
  unfold _transfer_to_mem in H0.
  apply bind_ok in H0; destruct H0 as ([m1 td'] & w2 & Ht & H0).
  unfold ret in H0; injection H0 as -> ->.
  unfold bind, get_self, put_self in H; injection H as <-.
  destruct (frame_transfer_loop _ _ _ _ _ _ Ht) as (_ & _ & Hsh).
  exists ms, tree, ep, m', td', w1; repeat split; auto.
Qed.

(** *** What the transfer leaves in the buffer *)


Lemma td_sub_ok : forall (td : dict tdata) chid subchid d dt x,
  td_sub td chid subchid = inr (d, dt, x) ->
  get chid td = Some (TDict d) /\ get subchid d = Some (TTensor dt x).
Proof.
  intros td chid subchid d dt x H; unfold td_sub in H.
  destruct (get chid td) as [[? ?|d']|]; try discriminate.
  destruct (get subchid d') as [[dt' x'|?]|] eqn:E; try discriminate.
  now injection H as -> -> ->.
Qed.

Lemma td_top_ok : forall (td : dict tdata) chid dt x,
  td_top td chid = inr (dt, x) -> get chid td = Some (TTensor dt x).
Proof.
  intros td chid dt x H; unfold td_top in H.
  destruct (get chid td) as [[? ?|?]|]; try discriminate.
  now injection H as -> ->.
Qed.








(** *** The layout a successful [malloc] computed *)

Local Abbreviation sub_runs subs :=
  (map (fun ks : string * Windex.subtree => Windex.sub_indices (snd ks)) subs).
Local Abbreviation runs tree :=
  (map (fun kc : string * Windex.chtree => Windex.indices (snd kc)) tree).

Definition ti_matches_sub (ks : string * Windex.subtree) : Prop :=
  Windex.sub_indices_ti (snd ks) = TiFieldI32 (Windex.sub_indices (snd ks)).

(** A group spans exactly the runs of its sub-channels, which follow
    one another. *)
Definition group_ok (kc : string * Windex.chtree) : Prop :=
  Windex.indices_ti (snd kc) = TiFieldI32 (Windex.indices (snd kc)) /\
  forall subs, Windex.subchannels (snd kc) = Some subs ->
    (exists start, laid_out start (sub_runs subs)) /\
    concat (sub_runs subs) = Windex.indices (snd kc) /\
    Forall ti_matches_sub subs.

Lemma subs_ok_runs : forall (self : World) d p subs,
  subs_ok self p d subs ->
  laid_out p (sub_runs subs) /\
  length (concat (sub_runs subs)) = channel_depth (TDict d) /\
  keys subs = keys d /\
  Forall ti_matches_sub subs.
Proof.
  intros self d; induction d as [|[k v] d IH]; intros p [|[k' st] subs] H;
    simpl in H; try contradiction.
  - simpl; repeat split; constructor.
  - destruct H as (<- & _ & Hi & Ht & H).
    destruct (IH _ _ H) as (Hl & Hn & Hk & Hf); simpl in *.
    rewrite length_app, Hn, Hi, length_seq, Hk.
    repeat split; auto.
Qed.

Lemma tree_ok_runs : forall (self : World) its p tree,
  tree_ok self p its tree ->
  laid_out p (runs tree) /\
  length (concat (runs tree))
    = list_sum (map (fun kv => channel_depth (snd kv)) its) /\
  keys tree = keys its /\
  Forall group_ok tree.
Proof.
  intros self its; induction its as [|[k v] its IH]; intros p [|[k' ch] tree] H;
    simpl in H; try contradiction.
  - simpl; repeat split; constructor.
  - destruct H as (<- & Hi & Ht & Hv & H).
    destruct (IH _ _ H) as (Hl & Hn & Hk & Hf); simpl in *.
    rewrite length_app, Hn, Hi, length_seq, Hk.
    repeat split; auto.
    constructor; auto; split; simpl; [exact Ht|].
    intros subs Hs; destruct v as [dt x|d].
    + destruct Hv as [Hv _]; congruence.
    + destruct Hv as (subs' & Hs' & Hsubs).
      assert (subs' = subs) by congruence; subst subs'.
      destruct (subs_ok_runs _ _ _ _ Hsubs) as (Hl' & Hn' & _ & Hf').
      repeat split; eauto.
      rewrite (laid_out_concat _ _ Hl'), Hn', Hi; reflexivity.
Qed.

(** The data the channels were registered with, as [malloc] sees it. *)
Definition registered_data (w : World) : exn + dict tdata :=
  match Taichi.struct (channel_dtypes w) with
  | inl e => inl e
  | inr ms => inr (field_to_torch zero w ms)
  end.



(** The index tree of a successful [malloc], whatever the shape. *)
Lemma malloc_tree : forall (w : World) uninit w',
  malloc zero uninit w = (inr tt, w') ->
  exists data tree m',
    registered_data w = inr data /\
    tree_ok w (nth 2 (shape w) 0) data tree /\
    indices w' = Some (Windex.init tree) /\
    mem w' = Some m'.
Proof.
  intros w uninit w' H.
  apply malloc_inv in H.
  destruct H as (ms & tree & ep & m' & td' & w1 & Hm & Hs & Hi & Ht & Hm' & Hi' & Hsh').
  destruct (field_nodup w ms) as [ND NDs].
  apply index_loop_ok in Hi; auto.
  destruct Hi as (news & -> & Hok & ->); simpl in *.
  exists (field_to_torch zero w ms), news, m'.
  unfold registered_data; rewrite Hs; auto.
Qed.

(** C5. On the resolver a successful [malloc] built, switched to
    device mode: every list reference and every (name, list of
    sub-names) pair is refused with the multi-index error, while the
    name of a channel and a (name, sub-name) pair of a sub-channel
    return the taichi field holding that channel's indices. *)
Theorem device_mode_resolution : forall (w : World) uninit w' wi,
  malloc zero uninit w = (inr tt, w') ->
  indices w' = Some wi ->
  let dev := Windex.return_ti true wi in
  (forall l,
     Windex.getitem dev (Windex.Multi l) = inl UnsupportedIndexMode) /\
  (forall chid l,
     Windex.getitem dev (Windex.Single (Windex.Tuple chid (Windex.Many l)))
       = inl UnsupportedIndexMode) /\
  (forall chid ch,
     get chid (Windex.index_tree wi) = Some ch ->
     Windex.getitem dev (Windex.Single (Windex.Name chid))
       = inr (Windex.Field (TiFieldI32 (Windex.indices ch)))) /\
  (forall chid ch subs sid st,
     get chid (Windex.index_tree wi) = Some ch ->
     Windex.subchannels ch = Some subs ->
     get sid subs = Some st ->
     Windex.getitem dev (Windex.Single (Windex.Tuple chid (Windex.One sid)))
       = inr (Windex.Field (TiFieldI32 (Windex.sub_indices st)))).
Proof.
  intros w uninit w' wi H Hwi dev.
  destruct (malloc_tree _ _ _ H) as (data & tree & m' & _ & Hok & Hi & _).
  rewrite Hwi in Hi; injection Hi as ->.
  destruct (tree_ok_runs _ _ _ _ Hok) as (_ & _ & _ & Hg).
  rewrite Forall_forall in Hg.
  split; [|split; [|split]].
  - intros l; now apply Resolver.device_list_refused.
  - intros chid l; now apply Resolver.device_sublist_refused.
  - intros chid ch Hc.
    rewrite (Resolver.device_name dev chid ch eq_refl Hc).
    destruct (Hg _ (DictFacts.get_In _ _ _ Hc)) as [Hti _].
    simpl in Hti; now rewrite Hti.
  - intros chid ch subs sid st Hc Hs Hst.
    rewrite (Resolver.device_pair dev chid ch subs sid st eq_refl Hc Hs Hst).
    destruct (Hg _ (DictFacts.get_In _ _ _ Hc)) as [_ Hsub].
    destruct (Hsub _ Hs) as (_ & _ & Hf).
    rewrite Forall_forall in Hf.
    pose proof (Hf _ (DictFacts.get_In _ _ _ Hst)) as Hti.
    unfold ti_matches_sub in Hti; simpl in Hti; now rewrite Hti.
Qed.

End Elt.

(** The buffer of the allocated scenario world. *)
Definition scenario_mem : Tensor.t Z :=
  match mem Scenario.allocated with
  | Some m => m
  | None => Tensor.zeros 0%Z []
  end.

(** C3. The scenario: the constructor registers [a] then [b], the
    reserved prefix is 0, [malloc] succeeds, the index tree maps [a]
    to [0], [b] to [1, 2, 3], [b.x] to [1, 2] and [b.y] to [3], and
    the buffer has shape (4, 4, 4): the total depth is 4. *)
Theorem scenario_index_tree :
  World.init (4, 4) "float32" "cpu" (Some Scenario.declared)
    = inr Scenario.registered /\
  shape Scenario.registered = [4; 4; 0] /\
  malloc 0%Z Scenario.uninit Scenario.registered
    = (inr tt, Scenario.allocated) /\
  option_map Windex.index_tree (indices Scenario.allocated)
    = Some
        [("a", Windex.mkCh None [0] (TiFieldI32 [0]));
         ("b", Windex.mkCh
                 (Some [("x", Windex.mkSub [1; 2] (TiFieldI32 [1; 2]));
                        ("y", Windex.mkSub [3] (TiFieldI32 [3]))])
                 [1; 2; 3] (TiFieldI32 [1; 2; 3]))] /\
  option_map Tensor.shape (mem Scenario.allocated) = Some [4; 4; 4] /\
  Windex.getitem Resolver.scenario_index Scenario.key_a
    = inr (Windex.NpArray [0]) /\
  Windex.getitem Resolver.scenario_index Scenario.key_b
    = inr (Windex.NpArray [1; 2; 3]) /\
  Windex.getitem Resolver.scenario_index Scenario.key_bx
    = inr (Windex.NpArray [1; 2]) /\
  Windex.getitem Resolver.scenario_index Scenario.key_by
    = inr (Windex.NpArray [3]).
Proof. vm_compute; repeat split; reflexivity. Qed.



(** C5, witness: the scenario. *)
Lemma device_mode_resolution_witness :
  let wi := Resolver.scenario_index in
  let dev := Windex.return_ti true wi in
  (forall l,
     Windex.getitem dev (Windex.Multi l) = inl UnsupportedIndexMode) /\
  (forall chid l,
     Windex.getitem dev (Windex.Single (Windex.Tuple chid (Windex.Many l)))
       = inl UnsupportedIndexMode) /\
  (forall chid ch,
     get chid (Windex.index_tree wi) = Some ch ->
     Windex.getitem dev (Windex.Single (Windex.Name chid))
       = inr (Windex.Field (TiFieldI32 (Windex.indices ch)))) /\
  (forall chid ch subs sid st,
     get chid (Windex.index_tree wi) = Some ch ->
     Windex.subchannels ch = Some subs ->
     get sid subs = Some st ->
     Windex.getitem dev (Windex.Single (Windex.Tuple chid (Windex.One sid)))
       = inr (Windex.Field (TiFieldI32 (Windex.sub_indices st)))).
Proof.
  apply (device_mode_resolution 0%Z Scenario.registered Scenario.uninit
           Scenario.allocated Resolver.scenario_index).
  - vm_compute; reflexivity.
  - vm_compute; reflexivity.
Defined.

(** In the scenario: [b] and [b.x] in device mode, and the refusals. *)
Example scenario_device_mode :
  let dev := Windex.return_ti true Resolver.scenario_index in
  Windex.getitem dev Scenario.key_b
    = inr (Windex.Field (TiFieldI32 [1; 2; 3])) /\
  Windex.getitem dev Scenario.key_bx
    = inr (Windex.Field (TiFieldI32 [1; 2])) /\
  Windex.getitem dev (Windex.Multi [Windex.Name "a"; Windex.Name "b"])
    = inl UnsupportedIndexMode /\
  Windex.getitem dev
    (Windex.Single (Windex.Tuple "b" (Windex.Many ["x"; "y"])))
    = inl UnsupportedIndexMode.
Proof. repeat split. Qed.

End Allocation.

(** ** The lifecycle *)

Module Lifecycle.

Import Taichi Exc World.

Section Elt.
Context {elt : Type}.
Variable zero : elt.

Local Abbreviation World := (World.t elt).
Local Abbreviation Tensor := (Tensor.t elt).

(** The calls a client makes on a world. *)
Inductive call :=
| AddChannel (id : string) (ti_dtype : pyval) (kwargs : dict pyval)
| AddChannels (channels : dict pyval)
| Malloc (uninit : nat -> nat -> elt)
| GetItem (key : Windex.key)
| SetItem (key : Windex.key) (value : Tensor)
| ReturnTi (flag : bool).

(** The world a call leaves behind, whether it returned or raised. *)
Definition run (c : call) (w : World) : World :=
  match c with
  | AddChannel id dt kw => snd (add_channel id dt kw w)
  | AddChannels chs => snd (add_channels chs w)
  | Malloc uninit => snd (malloc zero uninit w)
  | GetItem key => snd (getitem zero key w)
  | SetItem key value => snd (setitem zero key value w)
  | ReturnTi flag => snd (indices_return_ti flag w)
  end.

Definition run_all (cs : list call) (w : World) : World :=
  fold_left (fun w c => run c w) cs w.

(** The state [malloc] leaves: a buffer and a resolver. *)
Definition allocated (w : World) : Prop :=
  (exists m, mem w = Some m) /\ (exists wi, indices w = Some wi).

Lemma malloc_allocated : forall (w : World) uninit,
  mem w <> None ->
  malloc zero uninit w = (inl (ValueError AllocTwice), w).
Proof.
  intros w uninit H; unfold malloc, bind, get_self, raise.
  destruct (mem w); [reflexivity|contradiction].
Qed.

Lemma run_allocated : forall c (w : World),
  allocated w -> allocated (run c w).
Proof.
  intros c w [[m Hm] [wi Hi]]; unfold allocated.
  assert (Hne : mem w <> None) by congruence.
  destruct c as [id dt kw|chs|uninit|key|key value|flag]; simpl.
  - destruct (Registry.add_channel_frame w id dt kw) as (_ & -> & -> & _); eauto.
  - rewrite Registry.add_channels_allocated by exact Hne; eauto.
  - rewrite malloc_allocated by exact Hne; eauto.
  - rewrite (Accessor.getitem_allocated zero _ _ _ _ Hm Hi); simpl.
    destruct (Windex.getitem _ key) as [e|[l|f]]; simpl; eauto.
    destruct (Tensor.index zero m l); simpl; eauto.
  - destruct (Accessor.setitem_effect zero w key value m wi Hm Hi)
      as (m' & wi' & -> & -> & _); eauto.
  - unfold indices_return_ti, bind, get_self, put_self; rewrite Hi; simpl; eauto.
Qed.

Lemma run_all_allocated : forall cs (w : World),
  allocated w -> allocated (run_all cs w).
Proof.
  induction cs as [|c cs IH]; intros w H; simpl; auto.
  apply IH, run_allocated, H.
Qed.

(** C7. After a successful [malloc] and whatever calls follow it,
    [add_channel], [add_channels] and [malloc] each raise their
    after-allocation error and leave the world (registry, index tree
    and buffer included) exactly as it was. *)
Theorem lifecycle_guard : forall (w : World) uninit w1 calls,
  malloc zero uninit w = (inr tt, w1) ->
  let w2 := run_all calls w1 in
  (forall id dt kw,
     AlreadyAllocated (ValueError AddChannelAfterAlloc) /\
     add_channel id dt kw w2 = (inl (ValueError AddChannelAfterAlloc), w2)) /\
  (forall chs,
     AlreadyAllocated (ValueError AddChannelsAfterAlloc) /\
     add_channels chs w2 = (inl (ValueError AddChannelsAfterAlloc), w2)) /\
  (forall uninit',
     AlreadyAllocated (ValueError AllocTwice) /\
     malloc zero uninit' w2 = (inl (ValueError AllocTwice), w2)).
Proof.
  intros w uninit w1 calls H w2.
  assert (Ha : allocated w2).
  { apply run_all_allocated.
    destruct (Allocation.malloc_inv _ _ _ _ H)
      as (? & ? & ? & ? & ? & ? & _ & _ & _ & _ & Hm & Hi & _).
    split; eauto. }
  destruct Ha as [[m Hm] _].
  assert (Hne : mem w2 <> None) by congruence.
  unfold AlreadyAllocated; split; [|split]; intros; split; auto.
  - now apply Registry.add_channel_allocated.
  - now apply Registry.add_channels_allocated.
  - now apply malloc_allocated.
Qed.

End Elt.

(** C7, witness: the scenario, after a write, a read of an unknown
    channel and a switch to device mode. *)
Lemma lifecycle_guard_witness :
  let w2 := run_all 0%Z
              [SetItem Scenario.key_by (Scenario.ones 1);
               GetItem (Windex.Single (Windex.Name "zz"));
               ReturnTi true]
              Scenario.allocated in
  (forall id dt kw,
     AlreadyAllocated (ValueError AddChannelAfterAlloc) /\
     add_channel id dt kw w2 = (inl (ValueError AddChannelAfterAlloc), w2)) /\
  (forall chs,
     AlreadyAllocated (ValueError AddChannelsAfterAlloc) /\
     add_channels chs w2 = (inl (ValueError AddChannelsAfterAlloc), w2)) /\
  (forall uninit',
     AlreadyAllocated (ValueError AllocTwice) /\
     malloc 0%Z uninit' w2 = (inl (ValueError AllocTwice), w2)).
Proof.
  apply (lifecycle_guard 0%Z Scenario.registered Scenario.uninit
           Scenario.allocated).
  vm_compute; reflexivity.
Defined.

End Lifecycle.

(** ** The contents of the buffer *)

Module Buffer.

Import Taichi Exc World Layout TensorFacts Allocation.

Section Elt.
Context {elt : Type}.
Variable zero : elt.

Local Abbreviation World := (World.t elt).
Local Abbreviation Tensor := (Tensor.t elt).









(** *** Reads *)




(** A read whose indices lie within the buffer gathers them from
    every cell. *)
Lemma read_gathers : forall (w : World) key m wi gw gh D l,
  mem w = Some m ->
  indices w = Some wi ->
  mem_ok gw gh D m ->
  Windex.getitem (Windex.return_ti false wi) key = inr (Windex.NpArray l) ->
  Forall (fun i => i < D) l ->
  getitem zero key w =
    (inr (Tensor.mk [gw; gh; length l]
            (map (fun c => map (fun i => nth i c zero) l) (Tensor.cells m))),
     with_indices (Some (Windex.return_ti (Windex.does_return_ti wi) wi)) w).
Proof.
  intros w key m wi gw gh D l Hm Hi (Hs & _) Hr Hl.
  rewrite (Accessor.getitem_allocated zero _ _ _ _ Hm Hi); simpl; rewrite Hr.
  unfold Tensor.index, Tensor.in_depth; rewrite Hs; simpl.
  replace (forallb (fun i => Nat.ltb i D) l) with true; [reflexivity|].
  symmetry; apply forallb_forall; intros i Hin; apply Nat.ltb_lt.
  rewrite Forall_forall in Hl; auto.
Qed.

(** *** Writes *)



(** [world[key] = value] for each pair in turn, failing or not. *)
Definition write_all (ws : list (Windex.key * Tensor)) (w : World) : World :=
  fold_left (fun w kv => snd (setitem zero (fst kv) (snd kv) w)) ws w.







End Elt.


(** In the scenario, after ones were written to [b.x] only, the read
    of [b] has shape (4, 4, 3) and its last depth-slice, the one of
    [b.y], is zero (so are the first two: the write did not reach the
    buffer). *)
Example scenario_by_slice_is_zero :
  let w := write_all 0%Z [(Scenario.key_bx, Scenario.ones 2)]
             Scenario.allocated in
  fst (getitem 0%Z Scenario.key_b w) = inr (Tensor.zeros 0%Z [4; 4; 3]) /\
  Forall (fun c => nth_error c 2 = Some 0%Z)
    (Tensor.cells (Tensor.zeros 0%Z [4; 4; 3])).
Proof.
  split; [vm_compute; reflexivity|].
  vm_compute; repeat constructor.
Qed.

End Buffer.

(** * Further properties of the accessors *)

Module AccessorFacts.

Import Exc World TensorFacts.

Section Elt.
Context {elt : Type}.
Variable zero : elt.

Local Abbreviation World := (World.t elt).
Local Abbreviation Tensor := (Tensor.t elt).

(** The world with the resolver forced to host mode, as a raise during
    resolution leaves it, and with the saved mode put back. *)
Definition host (wi : Windex.t) (w : World) : World :=
  with_indices (Some (Windex.return_ti false wi)) w.

Definition restored (wi : Windex.t) (w : World) : World :=
  with_indices (Some (Windex.return_ti (Windex.does_return_ti wi) wi)) w.

Ltac unfold_access :=
  unfold setitem, getitem, indices_does_return_ti, indices_return_ti,
    indices_getitem, mem_index, bind, ret, raise, lift, get_self, put_self,
    host, restored, Windex.return_ti in *; simpl in *.

(** [__setitem__] when the reference does not resolve. *)
Lemma setitem_unresolved : forall (w : World) key value m wi e,
  mem w = Some m -> indices w = Some wi ->
  Windex.getitem (Windex.return_ti false wi) key = inl e ->
  setitem zero key value w = (inl e, host wi w).
Proof.
  intros [sh m0 wi0 dt dv chs hp] key value m wi e Hm Hi Hr; simpl in *; subst.
  unfold_access; now rewrite Hr.
Qed.

(** [__setitem__] when the reference resolves to no index at all. *)
Lemma setitem_empty : forall (w : World) key value m wi,
  mem w = Some m -> indices w = Some wi ->
  Windex.getitem (Windex.return_ti false wi) key = inr (Windex.NpArray []) ->
  setitem zero key value w = (inr tt, restored wi w).
Proof.
  intros [sh m0 wi0 dt dv chs hp] key value m wi Hm Hi Hr; simpl in *; subst.
  unfold_access; now rewrite Hr.
Qed.

(** [__setitem__] when the reference resolves to one index. *)
Lemma setitem_single : forall (w : World) key value m wi k,
  mem w = Some m -> indices w = Some wi ->
  Windex.getitem (Windex.return_ti false wi) key = inr (Windex.NpArray [k]) ->
  setitem zero key value w =
    let v := if Nat.eqb (length (Tensor.shape value)) 3
             then Tensor.squeeze2 value else value in
    if negb (Tensor.shape_eqb (Tensor.shape v) (firstn 2 (shape w)))
    then (inl (ValueError SetShapeSingle), restored wi w)
    else match Tensor.select_copy m k v with
         | inl e => (inl e, restored wi w)
         | inr m' => (inr tt, with_mem (Some m') (restored wi w))
         end.
Proof.
  intros [sh m0 wi0 dt dv chs hp] key value m wi k Hm Hi Hr; simpl in *; subst.
  unfold_access; rewrite Hr; simpl.
  destruct (negb _); simpl; [reflexivity|].
  destruct (Tensor.select_copy m k _); reflexivity.
Qed.

(** [__setitem__] when the reference resolves to two indices or more. *)
Lemma setitem_multi : forall (w : World) key value m wi l,
  mem w = Some m -> indices w = Some wi ->
  Windex.getitem (Windex.return_ti false wi) key = inr (Windex.NpArray l) ->
  2 <= length l ->
  setitem zero key value w =
    match Tensor.index zero m l with
    | inl e => (inl e, host wi w)
    | inr cur =>
        if negb (Tensor.shape_eqb (Tensor.shape value) (Tensor.shape cur))
        then (inl (ValueError SetShapeMulti), restored wi w)
        else (inr tt, restored wi w)
    end.
Proof.
  intros [sh m0 wi0 dt dv chs hp] key value m wi l Hm Hi Hr Hl; simpl in *; subst.
  destruct l as [|k0 [|k1 l]]; simpl in Hl; try lia.
  unfold_access; rewrite Hr; simpl; rewrite Hr; simpl.
  destruct (Tensor.index zero m (k0 :: k1 :: l)) eqn:Ei; simpl;
    [reflexivity|].
  destruct (negb _); simpl; rewrite ?Ei; reflexivity.
Qed.

Lemma shape_eqb_refl : forall a, Tensor.shape_eqb a a = true.
Proof.
  intros a; unfold Tensor.shape_eqb.
  destruct (list_eq_dec Nat.eq_dec a a); congruence.
Qed.

(** X1. Before allocation a read and a write both raise the
    not-allocated error and leave the world as it was. *)
Theorem access_before_allocation : forall (w : World) key value,
  mem w = None ->
  getitem zero key w = (inl (ValueError GetNotAllocated), w) /\
  setitem zero key value w = (inl (ValueError SetNotAllocated), w).
Proof.
  intros w key value H; unfold setitem, getitem, bind, get_self, raise.
  now rewrite H.
Qed.

(** X2. Whatever its outcome, a read changes nothing but the
    resolver's mode: the buffer, the registry, the shape and the index
    tree are those of before. *)
Theorem read_changes_only_mode : forall (w : World) key,
  let w' := snd (getitem zero key w) in
  mem w' = mem w /\
  channels w' = channels w /\
  heap w' = heap w /\
  shape w' = shape w /\
  option_map Windex.index_tree (indices w')
    = option_map Windex.index_tree (indices w).
Proof.
  intros [sh [m|] [wi|] dt dv chs hp] key; unfold_access; auto.
  destruct (Windex.getitem _ key) as [e|[l|f]]; simpl; auto.
  destruct (Tensor.index zero m l); simpl; auto.
Qed.

(** X3. A read or a write that returns normally leaves the resolver's
    mode as it found it. *)
Theorem returning_access_keeps_mode : forall (w : World) key value,
  (forall val w', getitem zero key w = (inr val, w') ->
                  Accessor.mode w' = Accessor.mode w) /\
  (forall w', setitem zero key value w = (inr tt, w') ->
              Accessor.mode w' = Accessor.mode w).
Proof.
  intros w key value; split.
  - intros val w'; apply Accessor.getitem_returns_mode.
  - intros w' H.
    destruct (mem w) as [m|] eqn:Hm;
      [|unfold setitem, bind, get_self, raise in H; rewrite Hm in H;
        discriminate].
    destruct (indices w) as [wi|] eqn:Hi;
      [|unfold setitem, indices_does_return_ti, bind, get_self, raise in H;
        rewrite Hm, Hi in H; discriminate].
    assert (Hres : Accessor.mode (restored wi w) = Accessor.mode w).
    { unfold Accessor.mode, restored; simpl; now rewrite Hi. }
    destruct (Windex.getitem (Windex.return_ti false wi) key)
      as [e|[[|k [|k1 l]]|f]] eqn:Hr.
    + rewrite (setitem_unresolved _ _ _ _ _ _ Hm Hi Hr) in H; discriminate.
    + rewrite (setitem_empty _ _ _ _ _ Hm Hi Hr) in H.
      now injection H as <-.
    + rewrite (setitem_single _ _ _ _ _ _ Hm Hi Hr) in H; simpl in H.
      destruct (negb _); [discriminate|].
      destruct (Tensor.select_copy m k _); [discriminate|].
      now injection H as <-.
    + rewrite (setitem_multi _ _ _ _ _ _ Hm Hi Hr) in H by (simpl; lia).
      destruct (Tensor.index zero m _); [discriminate|].
      destruct (negb _); [discriminate|].
      now injection H as <-.
    + exfalso; revert H.
      destruct w as [sh m0 wi0 dt dv chs hp]; simpl in *; subst.
      unfold_access; rewrite Hr; discriminate.
Qed.

(** Reading slot [k] back from cells into which one-element cells were
    copied at [k] gives those cells. *)
Lemma gather_after_select : forall k (cs ss : list (list elt)),
  length cs = length ss ->
  Forall (fun c => k < length c) cs ->
  Forall (fun s => length s = 1) ss ->
  map (fun c => map (fun i => nth i c zero) [k])
      (Tensor.zip_cells
         (fun c s => match s with v :: _ => Tensor.list_set k v c | [] => c end)
         cs ss)
  = ss.
Proof.
  intros k cs; induction cs as [|c cs IH]; intros [|s ss] Hl Hc Hs;
    simpl in *; try discriminate; auto.
  inversion Hc; inversion Hs; subst.
  destruct s as [|v [|? ?]]; simpl in *; try discriminate.
  rewrite nth_list_set_eq by assumption.
  f_equal; apply IH; auto.
Qed.

(** X4. A reference that resolves to a single slot round-trips: a
    value of shape (w, h, 1) or (w, h) with one element per grid
    position is accepted, and the read that follows returns its
    elements as a (w, h, 1) tensor. *)
Theorem single_slot_round_trip : forall (w : World) m wi key k V gw gh D,
  mem w = Some m ->
  indices w = Some wi ->
  firstn 2 (shape w) = [gw; gh] ->
  mem_ok gw gh D m ->
  Windex.getitem (Windex.return_ti false wi) key = inr (Windex.NpArray [k]) ->
  k < D ->
  Tensor.shape V = [gw; gh; 1] \/ Tensor.shape V = [gw; gh] ->
  length (Tensor.cells V) = gw * gh ->
  Forall (fun c => length c = 1) (Tensor.cells V) ->
  fst (setitem zero key V w) = inr tt /\
  fst (getitem zero key (snd (setitem zero key V w)))
    = inr (Tensor.mk [gw; gh; 1] (Tensor.cells V)).
Proof.
  intros w m wi key k V gw gh D Hm Hi Hsh Hok Hr Hk HV Hlen Hone.
  rewrite (setitem_single _ _ _ _ _ _ Hm Hi Hr); cbv zeta.
  set (v := if Nat.eqb (length (Tensor.shape V)) 3
            then Tensor.squeeze2 V else V).
  assert (Hv : Tensor.shape v = [gw; gh] /\ Tensor.cells v = Tensor.cells V).
  { unfold v; destruct HV as [E|E]; rewrite E; simpl; [|auto].
    unfold Tensor.squeeze2; rewrite E; simpl; auto. }
  destruct Hv as [Hvs Hvc].
  rewrite Hvs, Hsh, shape_eqb_refl; cbn [negb].
  pose proof Hok as (Hms & Hml & Hmc).
  unfold Tensor.select_copy; rewrite Hms, Hvs.
  change (nth 2 [gw; gh; D] 0) with D.
  change (firstn 2 [gw; gh; D]) with [gw; gh].
  apply Nat.ltb_lt in Hk; rewrite Hk, shape_eqb_refl.
  split; [reflexivity|]; cbn [snd].
  match goal with |- context [with_mem (Some ?x) _] => set (m' := x) end.
  assert (Hok' : mem_ok gw gh D m').
  { unfold mem_ok, m'; simpl; rewrite length_zip_cells.
    repeat split; auto.
    apply zip_cells_Forall; auto.
    intros c [|x s] Hc; auto; now rewrite length_list_set. }
  assert (Hb : Forall (fun i => i < D) [k]).
  { constructor; [now apply Nat.ltb_lt|constructor]. }
  rewrite (Buffer.read_gathers zero (with_mem (Some m') (restored wi w)) key m'
             (Windex.return_ti (Windex.does_return_ti wi) wi) gw gh D [k]
             eq_refl eq_refl Hok' Hr Hb).
  cbn [fst length]; do 2 f_equal.
  unfold m'; cbn [Tensor.cells]; rewrite Hvc.
  apply gather_after_select; [congruence| |exact Hone].
  eapply Forall_impl; [|exact Hmc]; simpl; intros c ->.
  now apply Nat.ltb_lt.
Qed.

(** Cell by cell, [zip_cells] relates the destination to its result. *)
Lemma zip_cells_Forall2 : forall (R : list elt -> list elt -> Prop) f dst src,
  (forall c, R c c) -> (forall c s, R c (f c s)) ->
  Forall2 R dst (Tensor.zip_cells f dst src).
Proof.
  intros R f dst; induction dst as [|c dst IH]; intros [|s src] Hr Hf;
    simpl; constructor; auto.
  - clear IH; induction dst; constructor; auto.
Qed.

(** X5. A write reaches at most the one slot its reference resolves
    to: for every slot [i] other than that, every cell of the buffer
    keeps its length and its element at [i].  In particular a write
    through a reference of two or more indices changes no slot. *)
Theorem write_touches_one_slot : forall (w : World) m wi key V i,
  mem w = Some m ->
  indices w = Some wi ->
  Windex.getitem (Windex.return_ti false wi) key
    <> inr (Windex.NpArray [i]) ->
  exists m',
    mem (snd (setitem zero key V w)) = Some m' /\
    Tensor.shape m' = Tensor.shape m /\
    Forall2 (fun c c' => length c' = length c /\
                         nth i c' zero = nth i c zero)
      (Tensor.cells m) (Tensor.cells m').
Proof.
  intros w m wi key V i Hm Hi Hne.
  destruct (Accessor.setitem_effect zero w key V m wi Hm Hi)
    as (m' & wi' & Hm' & _ & _ & _ & _ & Hcase).
  exists m'; split; [exact Hm'|].
  destruct Hcase as [->|(k0 & v & Hr & Hc)].
  - split; [reflexivity|].
    induction (Tensor.cells m); constructor; auto.
  - assert (Hik : i <> k0) by (intros ->; contradiction).
    unfold Tensor.select_copy in Hc.
    destruct (Nat.ltb k0 _); [|discriminate].
    destruct (Tensor.shape_eqb _ _); [|discriminate].
    injection Hc as <-; simpl; split; [reflexivity|].
    apply zip_cells_Forall2; [auto|].
    intros c [|x s]; auto.
    now rewrite length_list_set, nth_list_set_neq.
Qed.

End Elt.

(** X1, witness: the scenario before [malloc]. *)
Lemma access_before_allocation_witness :
  getitem 0%Z Scenario.key_a Scenario.registered
    = (inl (ValueError GetNotAllocated), Scenario.registered) /\
  setitem 0%Z Scenario.key_a (Scenario.ones 1) Scenario.registered
    = (inl (ValueError SetNotAllocated), Scenario.registered).
Proof.
  apply (access_before_allocation 0%Z Scenario.registered); reflexivity.
Defined.

(** X3, witness: in device mode, a read of [b] and a write to [a]. *)
Lemma returning_access_keeps_mode_witness :
  Accessor.mode (snd (getitem 0%Z Scenario.key_b Accessor.device_mode))
    = Accessor.mode Accessor.device_mode /\
  Accessor.mode (snd (setitem 0%Z Scenario.key_a (Scenario.ones 1)
                        Accessor.device_mode))
    = Accessor.mode Accessor.device_mode.
Proof.
  split.
  - eapply (proj1 (returning_access_keeps_mode 0%Z Accessor.device_mode
                     Scenario.key_b (Scenario.ones 1))).
    reflexivity.
  - eapply (proj2 (returning_access_keeps_mode 0%Z Accessor.device_mode
                     Scenario.key_a (Scenario.ones 1))).
    reflexivity.
Defined.

(** X4, witness: ones written to [a] in the scenario. *)
Lemma single_slot_round_trip_witness :
  fst (setitem 0%Z Scenario.key_a (Scenario.ones 1) Scenario.allocated)
    = inr tt /\
  fst (getitem 0%Z Scenario.key_a
         (snd (setitem 0%Z Scenario.key_a (Scenario.ones 1)
                 Scenario.allocated)))
    = inr (Tensor.mk [4; 4; 1] (Tensor.cells (Scenario.ones 1))).
Proof.
  apply (single_slot_round_trip 0%Z Scenario.allocated
           Allocation.scenario_mem Resolver.scenario_index
           Scenario.key_a 0 (Scenario.ones 1) 4 4 4).
  - reflexivity.
  - reflexivity.
  - reflexivity.
  - repeat split; repeat constructor.
  - reflexivity.
  - lia.
  - left; reflexivity.
  - reflexivity.
  - repeat constructor.
Defined.

(** X5, witness: the write to [b.x] in the scenario leaves slot 1. *)
Lemma write_touches_one_slot_witness :
  exists m',
    mem (snd (setitem 0%Z Scenario.key_bx (Scenario.ones 2)
                Scenario.allocated)) = Some m' /\
    Tensor.shape m' = Tensor.shape Allocation.scenario_mem /\
    Forall2 (fun c c' => length c' = length c /\
                         nth 1 c' 0%Z = nth 1 c 0%Z)
      (Tensor.cells Allocation.scenario_mem) (Tensor.cells m').
Proof.
  apply (write_touches_one_slot 0%Z Scenario.allocated
           Allocation.scenario_mem Resolver.scenario_index).
  - reflexivity.
  - reflexivity.
  - vm_compute; discriminate.
Defined.

End AccessorFacts.

(** * Further properties of the index resolver *)

Module ResolverFacts.

Import Taichi World Windex Layout Allocation.

Lemma host_pair_lookup : forall wi chid s r,
  does_return_ti wi = false ->
  getitem wi (Single (Tuple chid (One s))) = inr (NpArray r) ->
  exists st, lookup_sub wi chid s = inr st /\ sub_indices st = r.
Proof.
  intros wi chid s r Hm H; simpl in H; rewrite Hm in H.
  destruct (lookup_sub wi chid s) as [e|st]; [discriminate|].
  injection H as <-; eauto.
Qed.

Lemma get_many_concat : forall wi chid subs rs acc,
  does_return_ti wi = false ->
  Forall2 (fun s r => getitem wi (Single (Tuple chid (One s)))
                      = inr (NpArray r)) subs rs ->
  get_many wi chid subs acc = inr (acc ++ concat rs).
Proof.
  intros wi chid subs rs acc Hm H; revert acc.
  induction H as [|s r subs rs H1 _ IH]; intros acc; simpl.
  - now rewrite app_nil_r.
  - destruct (host_pair_lookup _ _ _ _ Hm H1) as (st & -> & <-).
    now rewrite IH, app_assoc.
Qed.

(** X6. In host mode a (name, list of sub-names) reference whose
    sub-names each resolve on their own resolves to the concatenation
    of their indices, in the order of the list. *)
Theorem resolve_sublist_is_concat : forall wi chid subs rs,
  does_return_ti wi = false ->
  Forall2 (fun s r => getitem wi (Single (Tuple chid (One s)))
                      = inr (NpArray r)) subs rs ->
  getitem wi (Single (Tuple chid (Many subs))) = inr (NpArray (concat rs)).
Proof.
  intros wi chid subs rs Hm H; simpl; rewrite Hm.
  now rewrite (get_many_concat _ _ _ _ [] Hm H).
Qed.

Lemma get_list_prefix : forall wi done rs rest acc,
  does_return_ti wi = false ->
  Forall2 (fun it r => getitem wi (Single it) = inr (NpArray r)) done rs ->
  get_list wi (done ++ rest) acc = get_list wi rest (acc ++ concat rs).
Proof.
  intros wi done rs rest acc Hm H; revert acc.
  induction H as [|it r done rs H1 _ IH]; intros acc; simpl app.
  - simpl; now rewrite app_nil_r.
  - rewrite (Resolver.get_list_step _ _ _ _ _ Hm H1), IH; simpl.
    now rewrite app_assoc.
Qed.

(** X7. In host mode a list reference fails with the error of its
    first element that does not resolve, whatever follows it. *)
Theorem resolve_list_first_failure : forall wi done rs bad rest e,
  does_return_ti wi = false ->
  Forall2 (fun it r => getitem wi (Single it) = inr (NpArray r)) done rs ->
  getitem wi (Single bad) = inl e ->
  getitem wi (Multi (done ++ bad :: rest)) = inl e.
Proof.
  intros wi done rs bad rest e Hm Hd Hb; simpl; rewrite Hm.
  rewrite (get_list_prefix _ _ _ _ _ Hm Hd).
  destruct bad as [chid|chid sub]; simpl in *.
  - rewrite Hm in Hb.
    destruct (get chid (index_tree wi)); [discriminate|].
    now injection Hb as <-.
  - destruct (_get_tuple_inds wi chid sub) as [e'|[l|f]]; try discriminate.
    now injection Hb as <-.
Qed.

(** X8. Names the tree does not know raise [KeyError], in host and in
    device mode alike: an unknown channel raises with its name, for a
    name and for a (name, sub-name) pair; a pair on a channel that is
    not a group raises with ['subchannels']; an unknown sub-name of a
    group raises with the sub-name. *)
Theorem unknown_names_raise : forall wi chid s,
  (get chid (index_tree wi) = None ->
   getitem wi (Single (Name chid)) = inl (KeyError chid) /\
   getitem wi (Single (Tuple chid (One s))) = inl (KeyError chid)) /\
  (forall ch,
     get chid (index_tree wi) = Some ch -> subchannels ch = None ->
     getitem wi (Single (Tuple chid (One s))) = inl (KeyError "subchannels")) /\
  (forall ch subs,
     get chid (index_tree wi) = Some ch -> subchannels ch = Some subs ->
     get s subs = None ->
     getitem wi (Single (Tuple chid (One s))) = inl (KeyError s)).
Proof.
  intros wi chid s; split; [|split].
  - intros H; simpl; unfold lookup_sub; rewrite H.
    destruct (does_return_ti wi); auto.
  - intros ch H Hs; simpl; unfold lookup_sub; rewrite H, Hs.
    destruct (does_return_ti wi); auto.
  - intros ch subs H Hs Hn; simpl; unfold lookup_sub; rewrite H, Hs, Hn.
    destruct (does_return_ti wi); auto.
Qed.

Section Elt.
Context {elt : Type}.
Variable zero : elt.

Local Abbreviation World := (World.t elt).

Lemma get_many_all : forall wi chid ch subs,
  get chid (index_tree wi) = Some ch ->
  subchannels ch = Some subs ->
  NoDup (keys subs) ->
  forall rest acc,
    (forall kv, In kv rest -> In kv subs) ->
    get_many wi chid (keys rest) acc
    = inr (acc ++ concat (map (fun ks => sub_indices (snd ks)) rest)).
Proof.
  intros wi chid ch subs Hc Hs ND rest; induction rest as [|[k st] rest IH];
    intros acc Hin; simpl.
  - now rewrite app_nil_r.
  - unfold lookup_sub; rewrite Hc, Hs.
    rewrite (DictFacts.In_get subs k st ND) by (apply Hin; now left).
    rewrite IH by (intros kv Hkv; apply Hin; now right).
    now rewrite app_assoc.
Qed.

Lemma tree_ok_group : forall (w : World) data p tree chid ch subs,
  tree_ok w p data tree ->
  (forall k d, In (k, TDict d) data -> NoDup (keys d)) ->
  In (chid, ch) tree ->
  subchannels ch = Some subs ->
  concat (map (fun ks => sub_indices (snd ks)) subs) = Windex.indices ch /\
  NoDup (keys subs).
Proof.
  intros w data; induction data as [|[k v] data IH];
    intros p [|[k' c'] tree] chid ch subs Hok NDs Hin Hs;
    simpl in Hok; try contradiction.
  destruct Hok as (<- & Hidx & Hti & Hv & Hok).
  destruct Hin as [[= <- <-]|Hin].
  - destruct v as [dt x|d]; [destruct Hv; congruence|].
    destruct Hv as (subs' & Hs' & Hsubs).
    assert (subs' = subs) by congruence; subst subs'.
    destruct (subs_ok_runs _ _ _ _ Hsubs) as (Hl & Hn & Hk & Hf).
    split.
    + rewrite (laid_out_concat _ _ Hl), Hn, Hidx; reflexivity.
    + rewrite Hk; apply (NDs k d); now left.
  - apply (IH (p + channel_depth v) tree chid ch subs Hok); auto.
    intros k0 d0 H0; apply (NDs k0 d0); now right.
Qed.

(** X9. On the resolver a successful [malloc] built, in host mode, the
    name of a group resolves to the same indices as the group paired
    with the list of all its sub-names in their order. *)
Theorem group_is_all_its_subchannels : forall (w : World) uninit w' wi chid ch subs,
  malloc zero uninit w = (inr tt, w') ->
  World.indices w' = Some wi ->
  get chid (index_tree wi) = Some ch ->
  subchannels ch = Some subs ->
  getitem wi (Single (Tuple chid (Many (keys subs))))
    = inr (NpArray (Windex.indices ch)) /\
  getitem wi (Single (Name chid)) = inr (NpArray (Windex.indices ch)).
Proof.
  intros w uninit w' wi chid ch subs H Hwi Hc Hs.
  apply malloc_inv in H.
  destruct H as (ms & tree & ep & m' & td' & w1 & _ & _ & Hi & _ & _ & Hi' & _).
  rewrite Hwi in Hi'; injection Hi' as ->.
  destruct (field_nodup zero w ms) as [ND NDs].
  apply index_loop_ok in Hi; auto.
  destruct Hi as (news & -> & Hok & _); simpl in *.
  destruct (tree_ok_group _ _ _ _ _ _ _ Hok NDs (DictFacts.get_In _ _ _ Hc) Hs)
    as [Hcat NDk].
  split.
  - rewrite (get_many_all (init news) chid ch subs Hc Hs NDk subs [])
      by auto.
    simpl; now rewrite Hcat.
  - now rewrite Hc.
Qed.

End Elt.

(** X6, witness: [(b, ['y', 'x'])] in the scenario. *)
Lemma resolve_sublist_is_concat_witness :
  getitem Resolver.scenario_index (Single (Tuple "b" (Many ["y"; "x"])))
  = inr (NpArray (concat [[3]; [1; 2]])).
Proof.
  apply resolve_sublist_is_concat; [reflexivity|].
  repeat constructor.
Defined.

(** X7, witness: [[a, zz, b]] in the scenario. *)
Lemma resolve_list_first_failure_witness :
  getitem Resolver.scenario_index
    (Multi ([Name "a"] ++ Name "zz" :: [Name "b"]))
  = inl (KeyError "zz").
Proof.
  apply (resolve_list_first_failure Resolver.scenario_index
           [Name "a"] [[0]]); [reflexivity| |reflexivity].
  repeat constructor.
Defined.

(** X8, witness: in the scenario, [zz] is unknown, [a] is not a group
    and [b] has no sub-channel [z]. *)
Lemma unknown_names_raise_witness :
  (getitem Resolver.scenario_index (Single (Name "zz")) = inl (KeyError "zz") /\
   getitem Resolver.scenario_index (Single (Tuple "zz" (One "x")))
     = inl (KeyError "zz")) /\
  getitem Resolver.scenario_index (Single (Tuple "a" (One "x")))
    = inl (KeyError "subchannels") /\
  getitem Resolver.scenario_index (Single (Tuple "b" (One "z")))
    = inl (KeyError "z").
Proof.
  split; [|split].
  - apply (proj1 (unknown_names_raise Resolver.scenario_index "zz" "x")).
    reflexivity.
  - eapply (proj1 (proj2 (unknown_names_raise Resolver.scenario_index "a" "x")));
      reflexivity.
  - eapply (proj2 (proj2 (unknown_names_raise Resolver.scenario_index "b" "z")));
      reflexivity.
Defined.

(** X9, witness: [b] in the scenario. *)
Lemma group_is_all_its_subchannels_witness :
  getitem Resolver.scenario_index (Single (Tuple "b" (Many ["x"; "y"])))
    = inr (NpArray [1; 2; 3]) /\
  getitem Resolver.scenario_index (Single (Name "b")) = inr (NpArray [1; 2; 3]).
Proof.
  apply (group_is_all_its_subchannels 0%Z Scenario.registered Scenario.uninit
           Scenario.allocated Resolver.scenario_index "b"
           (mkCh (Some [("x", mkSub [1; 2] (TiFieldI32 [1; 2]));
                        ("y", mkSub [3] (TiFieldI32 [3]))])
                 [1; 2; 3] (TiFieldI32 [1; 2; 3]))
           [("x", mkSub [1; 2] (TiFieldI32 [1; 2]));
            ("y", mkSub [3] (TiFieldI32 [3]))]);
    vm_compute; reflexivity.
Defined.

End ResolverFacts.

(** * Further properties of the registry *)

Module RegistryFacts.

Import Exc World Registry.

Section Elt.
Context {elt : Type}.

Local Abbreviation World := (World.t elt).
Implicit Types (w : World).

Lemma add_channel_ok : forall w id dt kw w1,
  add_channel id dt kw w = (inr tt, w1) ->
  exists ch, channels w1 = set id ch (channels w).
Proof.
  intros w id dt kw w1 H.
  destruct (mem w) as [m|] eqn:E.
  - rewrite add_channel_allocated in H by congruence; discriminate.
  - rewrite add_channel_unallocated in H by exact E.
    destruct (Channel.init id dt kw (heap w)) as [[e|ch] h]; [discriminate|].
    injection H as <-; simpl; eauto.
Qed.

Lemma register_entry_ok : forall chs k w w1,
  register_entry chs k w = (inr tt, w1) ->
  exists ch, channels w1 = set k ch (channels w).
Proof.
  intros chs k w w1 H; unfold register_entry in H; simpl in H.
  assert (K : forall (m : Exc.M World unit),
             (m ;; ret tt)%exc w = (inr tt, w1) -> m w = (inr tt, w1)).
  { intros m Hm; exc_unfold.
    destruct (m w) as [[e|[]] w2]; [discriminate|exact Hm]. }
  destruct (get k chs) as [v|]; [|exc_unfold; discriminate].
  assert (Kw : forall d, add_channel_kw k d w = (inr tt, w1) ->
                         exists ch, channels w1 = set k ch (channels w)).
  { intros d Hd; unfold add_channel_kw in Hd.
    destruct (contains "self" d || contains "id" d);
      [exc_unfold; discriminate|].
    eapply add_channel_ok; eauto. }
  destruct v; apply K in H; try (eapply add_channel_ok; eauto; fail).
  - now apply (Kw d).
  - unfold add_channel_obj, bind, get_self in H.
    destruct (Channel.deref (Channel.Named r) (heap w)); [discriminate|].
    now apply (Kw d).
Qed.

Lemma loop_appends : forall chs l w w',
  add_channels_loop chs l w = (inr tt, w') ->
  NoDup l ->
  (forall k, In k l -> ~ In k (keys (channels w))) ->
  keys (channels w') = keys (channels w) ++ l.
Proof.
  intros chs l; induction l as [|k l IH]; intros w w' H ND Hf.
  - simpl in H; exc_unfold; injection H as <-; now rewrite app_nil_r.
  - rewrite loop_cons in H.
    destruct (register_entry chs k w) as [[e|[]] w1] eqn:E; [discriminate|].
    destruct (register_entry_ok _ _ _ _ E) as [ch Hch].
    inversion ND as [|? ? Hn ND']; subst.
    assert (Hk1 : keys (channels w1) = keys (channels w) ++ [k]).
    { rewrite Hch, DictFacts.set_notin by (apply Hf; now left).
      unfold keys; now rewrite map_app. }
    rewrite (IH _ _ H ND'), Hk1, <- app_assoc; [reflexivity|].
    intros k' Hk'; rewrite Hk1, in_app_iff; simpl.
    intros [Hin|[<-|[]]]; [|contradiction].
    apply (Hf k'); [now right|exact Hin].
Qed.

(** X10. Registration keeps the order of the mapping: when
    [add_channels] returns, the names of the mapping, none of which
    was registered before, follow the names already registered, in the
    mapping's own order. *)
Theorem add_channels_appends_in_order : forall w chs w',
  add_channels chs w = (inr tt, w') ->
  NoDup (keys chs) ->
  (forall k, In k (keys chs) -> ~ In k (keys (channels w))) ->
  keys (channels w') = keys (channels w) ++ keys chs.
Proof.
  intros w chs w' H ND Hf; unfold add_channels in H; exc_unfold.
  destruct (mem w); [discriminate|].
  now apply (loop_appends chs).
Qed.

(** X14. The constructor keeps the dictionary it is given and updates
    it in place: when [add_channel] is passed, as metadata, the
    dictionary that another registered channel holds, the new
    descriptor holds that dictionary too, and the other channel, whose
    descriptor stays, now finds the id and the type of the new channel
    in its metadata. *)
Theorem shared_metadata_is_overwritten : forall w id dt kw r d k c,
  mem w = None ->
  get "metadata" kw = Some (PObj r d) ->
  fst (add_channel id dt kw w) = inr tt ->
  get k (channels w) = Some c ->
  k <> id ->
  Channel.metadata c = Channel.Named r ->
  let w' := snd (add_channel id dt kw w) in
  get k (channels w') = Some c /\
  option_map Channel.metadata (get id (channels w')) = Some (Channel.Named r) /\
  Channel.getitem "id" c (heap w') = Some (Channel.MdPy (PStr id)) /\
  Channel.getitem "ti_dtype" c (heap w') = Some (Channel.MdPy dt).
Proof.
  intros w id dt kw r d k c Hm Hkw Hok Hc Hk Hr; simpl.
  rewrite add_channel_unallocated in * by exact Hm.
  destruct (Channel.init id dt kw (heap w)) as [[e|ch] h] eqn:E;
    [discriminate|]; simpl.
  destruct (HeapFacts.init_entries _ _ _ _ _ _ E) as (Hid & Hty & Hobj).
  specialize (Hobj _ _ Hkw).
  split; [now rewrite DictFacts.get_set_neq|].
  split; [now rewrite DictFacts.get_set_eq; simpl; rewrite Hobj|].
  unfold Channel.getitem, Channel.contents in *.
  rewrite Hr, <- Hobj; auto.
Qed.

End Elt.

(** X10, witness: the scenario's mapping on the fresh world. *)
Lemma add_channels_appends_in_order_witness :
  keys (channels Scenario.registered)
  = keys (channels Scenario.fresh) ++ keys Scenario.declared.
Proof.
  apply (add_channels_appends_in_order Scenario.fresh Scenario.declared).
  - reflexivity.
  - repeat constructor; simpl; intuition discriminate.
  - intros k _ [].
Defined.

(** X14, witness: [md = {}; w.add_channel("a", metadata=md);
    w.add_channel("n", ti.i32, metadata=md)]. *)
Definition one_shared : World.t Z :=
  snd (add_channel "a" (PType (TiPrim f32)) [("metadata", PObj 7 [])]
         Scenario.fresh).

Lemma shared_metadata_is_overwritten_witness :
  let a := Channel.mk "a" Channel.default_lims (PType (TiPrim f32))
             false None (Channel.Named 7) in
  let w' := snd (add_channel "n" (PType (TiPrim i32))
                   [("metadata", PObj 7 [])] one_shared) in
  get "a" (channels w') = Some a /\
  option_map Channel.metadata (get "n" (channels w'))
    = Some (Channel.Named 7) /\
  Channel.getitem "id" a (heap w') = Some (Channel.MdPy (PStr "n")) /\
  Channel.getitem "ti_dtype" a (heap w')
    = Some (Channel.MdPy (PType (TiPrim i32))).
Proof.
  apply (shared_metadata_is_overwritten one_shared "n" (PType (TiPrim i32))
           [("metadata", PObj 7 [])] 7 [] "a"
           (Channel.mk "a" Channel.default_lims (PType (TiPrim f32))
              false None (Channel.Named 7))).
  - reflexivity.
  - reflexivity.
  - reflexivity.
  - reflexivity.
  - discriminate.
  - reflexivity.
Defined.

End RegistryFacts.

(** * Further properties of allocation *)

Module AllocationFacts.

Import Taichi Exc World Layout TensorFacts Allocation.

Section Elt.
Context {elt : Type}.
Variable zero : elt.

Local Abbreviation World := (World.t elt).
Local Abbreviation Tensor := (Tensor.t elt).
Local Abbreviation tdata := (Taichi.tdata elt).
Local Abbreviation M := (Exc.M World).

(** *** The registry through [malloc] *)

(** The computation changes the descriptors of the channels in [S]
    only, and neither adds nor removes nor reorders a name, as long as
    the names of [S] it stores under are registered. *)
Definition touches {A} (S : list string) (m : M A) : Prop :=
  forall w r w', m w = (r, w') ->
    (forall k, ~ In k S -> get k (channels w') = get k (channels w)) /\
    ((forall k, In k S -> In k (keys (channels w))) ->
     keys (channels w') = keys (channels w)).

Lemma touches_bind : forall {A B} S (m : M A) (f : A -> M B),
  touches S m -> (forall a, touches S (f a)) -> touches S (bind m f).
Proof.
  intros A B S m f Hm Hf w r w' H; unfold bind in H.
  destruct (m w) as [[e|a] w1] eqn:E.
  - injection H as <- <-; eapply Hm; eauto.
  - destruct (Hm _ _ _ E) as [H1 H2].
    destruct (Hf a _ _ _ H) as [H1' H2']; split.
    + intros k Hk; rewrite H1', H1; auto.
    + intros Hin; rewrite H2', H2; auto.
      intros k Hk; rewrite H2; auto.
Qed.

Lemma touches_pure : forall {A} S (m : M A),
  (forall w, channels (snd (m w)) = channels w) -> touches S m.
Proof.
  intros A S m Hp w r w' H.
  pose proof (Hp w) as Hw; rewrite H in Hw; simpl in Hw; rewrite Hw; auto.
Qed.

Lemma touches_on_heap : forall {A} S (m : Exc.M Channel.heap A),
  touches S (on_heap m).
Proof.
  intros A S m; apply touches_pure; intros w; unfold on_heap.
  destruct (m (heap w)); reflexivity.
Qed.

Lemma touches_put : forall S chid c,
  In chid S -> touches S (put_channel chid c).
Proof.
  intros S chid c Hin w r w' H.
  unfold put_channel, bind, get_self, put_self in H; injection H as _ <-.
  simpl; split.
  - intros k Hk; apply DictFacts.get_set_neq; intros ->; contradiction.
  - intros Hreg; apply DictFacts.keys_set_in; auto.
Qed.

Lemma touches_get : forall S chid, touches S (get_channel chid).
Proof.
  intros; apply touches_pure; intros w.
  unfold get_channel, bind, get_self, ret, raise.
  destruct (get chid (channels w)); reflexivity.
Qed.

Lemma touches_link_sub : forall S chid subchid inds,
  touches S (link_sub chid subchid inds).
Proof.
  intros S chid subchid inds; unfold link_sub.
  apply touches_bind; [apply touches_get|]; intros c.
  apply touches_bind; [apply touches_pure; reflexivity|].
  intros [[]|]; apply touches_pure; reflexivity.
Qed.

Lemma touches_check_sub_dtype : forall S dt, touches S (check_sub_dtype dt).
Proof.
  intros S dt; apply touches_pure; intros w.
  unfold check_sub_dtype, bind, get_self, ret, raise.
  destruct (String.eqb dt (torch_dtype w)); reflexivity.
Qed.

Lemma touches_transfer_subs : forall S chid subs m td,
  touches S (transfer_subs chid subs m td).
Proof.
  intros S chid subs; induction subs as [|[subchid st] subs IH];
    intros m td; simpl; [apply touches_pure; reflexivity|].
  apply touches_bind; [apply touches_pure; reflexivity|]; intros [[d dt] x].
  apply touches_bind; [apply touches_check_sub_dtype|]; intros _.
  apply touches_bind; [apply touches_pure; reflexivity|]; intros m1.
  apply touches_bind; [apply touches_get|]; intros c.
  apply touches_bind; [apply touches_on_heap|]; intros _.
  apply touches_bind; [apply touches_link_sub|]; intros _.
  apply IH.
Qed.

(** What a computation leaves as it found it. *)
Definition keeps {A X} (f : World -> X) (m : M A) : Prop :=
  forall w r w', m w = (r, w') -> f w' = f w.

Lemma keeps_bind : forall {A B X} (f : World -> X) (m : M A) (k : A -> M B),
  keeps f m -> (forall a, keeps f (k a)) -> keeps f (bind m k).
Proof.
  intros A B X f m k Hm Hk w r w' H; unfold bind in H.
  destruct (m w) as [[e|a] w1] eqn:E.
  - injection H as <- <-; eapply Hm; eauto.
  - rewrite (Hk a _ _ _ H); eapply Hm; eauto.
Qed.

Lemma keeps_pure : forall {A X} (f : World -> X) (m : M A),
  (forall w, f (snd (m w)) = f w) -> keeps f m.
Proof.
  intros A X f m Hp w r w' H.
  pose proof (Hp w) as Hw; now rewrite H in Hw.
Qed.

Lemma keeps_on_heap : forall {A X} (f : World -> X)
    (m : Exc.M Channel.heap A),
  (forall h w, f (with_heap h w) = f w) -> keeps f (on_heap m).
Proof.
  intros A X f m Hf; apply keeps_pure; intros w; unfold on_heap.
  destruct (m (heap w)); apply Hf.
Qed.

Lemma keeps_get : forall {X} (f : World -> X) chid,
  keeps f (get_channel chid).
Proof.
  intros; apply keeps_pure; intros w.
  unfold get_channel, bind, get_self, ret, raise.
  destruct (get chid (channels w)); reflexivity.
Qed.

Lemma keeps_check_sub_dtype : forall {X} (f : World -> X) dt,
  keeps f (check_sub_dtype dt).
Proof.
  intros; apply keeps_pure; intros w.
  unfold check_sub_dtype, bind, get_self, ret, raise.
  destruct (String.eqb dt (torch_dtype w)); reflexivity.
Qed.

Lemma keeps_link_sub : forall {X} (f : World -> X) chid subchid inds,
  (forall h w, f (with_heap h w) = f w) ->
  keeps f (link_sub chid subchid inds).
Proof.
  intros X f chid subchid inds Hf; unfold link_sub.
  apply keeps_bind; [apply keeps_get|]; intros c1.
  apply keeps_bind; [apply keeps_pure; reflexivity|].
  intros [[]|]; try (apply keeps_pure; reflexivity).
  apply keeps_bind; [now apply keeps_on_heap|]; intros sc.
  now apply keeps_on_heap.
Qed.

(** The inner loop writes the store only. *)
Lemma keeps_transfer_subs : forall {X} (f : World -> X) chid subs m td,
  (forall h w, f (with_heap h w) = f w) ->
  keeps f (transfer_subs chid subs m td).
Proof.
  intros X f chid subs m td Hf; revert m td.
  induction subs as [|[subchid st] subs IH];
    intros m td; simpl; [apply keeps_pure; reflexivity|].
  apply keeps_bind; [apply keeps_pure; reflexivity|]; intros [[d dt] x].
  apply keeps_bind; [apply keeps_check_sub_dtype|]; intros _.
  apply keeps_bind; [apply keeps_pure; reflexivity|]; intros m1.
  apply keeps_bind; [apply keeps_get|]; intros c.
  apply keeps_bind; [now apply keeps_on_heap|]; intros _.
  apply keeps_bind; [now apply keeps_link_sub|intros _; apply IH].
Qed.

(** The outer loop writes the store and the registry only. *)
Lemma keeps_transfer_loop : forall {X} (f : World -> X) tree m td,
  (forall h w, f (with_heap h w) = f w) ->
  (forall chs w, f (with_channels chs w) = f w) ->
  keeps f (transfer_loop tree m td).
Proof.
  intros X f tree m td Hf Hc; revert m td.
  induction tree as [|[chid ch] tree IH]; intros m td;
    simpl; [apply keeps_pure; reflexivity|].
  assert (Hput : forall c, keeps f (put_channel chid c)).
  { intros c; apply keeps_pure; intros w; apply Hc. }
  destruct (Windex.subchannels ch) as [subs|].
  - apply keeps_bind; [now apply keeps_transfer_subs|]; intros [m1 td1].
    apply keeps_bind; [apply keeps_get|]; intros c.
    apply keeps_bind; [now apply keeps_on_heap|]; intros c1.
    apply keeps_bind; [apply Hput|intros _; apply IH].
  - apply keeps_bind; [apply keeps_pure; reflexivity|]; intros [dt x].
    apply keeps_bind; [apply keeps_pure; reflexivity|]; intros m1.
    apply keeps_bind; [apply keeps_get|]; intros c.
    apply keeps_bind; [now apply keeps_on_heap|]; intros c1.
    apply keeps_bind; [apply Hput|intros _; apply IH].
Qed.

Lemma touches_channels : forall chid subs m td (w : World) r w',
  transfer_subs chid subs m td w = (r, w') -> channels w' = channels w.
Proof.
  intros chid subs m td w r w' H.
  now apply (keeps_transfer_subs channels chid subs m td) in H.
Qed.

Lemma touches_weaken : forall {A} S S' (m : M A),
  (forall k, In k S -> In k S') -> touches S m -> touches S' m.
Proof.
  intros A S S' m Hs Hm w r w' H; destruct (Hm _ _ _ H) as [H1 H2]; split.
  - intros k Hk; apply H1; auto.
  - intros Hin; apply H2; auto.
Qed.

Lemma touches_transfer_loop : forall tree m td,
  touches (keys tree) (transfer_loop tree m td).
Proof.
  intros tree; induction tree as [|[chid ch] tree IH]; intros m td;
    simpl; [apply touches_pure; reflexivity|].
  assert (Hin : In chid (chid :: keys tree)) by now left.
  assert (Hrest : forall m td,
            touches (chid :: keys tree) (transfer_loop tree m td)).
  { intros m0 td0; eapply touches_weaken; [|apply IH].
    intros k Hk; now right. }
  destruct (Windex.subchannels ch) as [subs|].
  - apply touches_bind; [apply touches_transfer_subs|]; intros [m1 td1].
    apply touches_bind; [apply touches_get|]; intros c.
    apply touches_bind; [apply touches_on_heap|]; intros c1.
    apply touches_bind; [now apply touches_put|]; intros _.
    apply Hrest.
  - apply touches_bind; [apply touches_pure; reflexivity|]; intros [dt x].
    apply touches_bind; [apply touches_pure; reflexivity|]; intros m1.
    apply touches_bind; [apply touches_get|]; intros c.
    apply touches_bind; [apply touches_on_heap|]; intros c1.
    apply touches_bind; [now apply touches_put|]; intros _.
    apply Hrest.
Qed.

Lemma comprehend_keys : forall {A V} (f : A -> V) l acc k,
  In k (keys (DictFacts.comprehend f acc l)) ->
  In k (keys acc) \/ In k (keys l).
Proof.
  intros A V f l; induction l as [|[k0 a] l IH]; intros acc k H; simpl in H;
    [now left|].
  apply IH in H; destruct H as [H|H]; [|right; now right].
  rewrite DictFacts.keys_set in H.
  destruct (contains k0 acc); [now left|].
  apply in_app_iff in H; destruct H as [H|[<-|[]]]; [now left|right; now left].
Qed.

(** The names of the index tree are registered names. *)
Lemma tree_keys_registered : forall (w : World) ms tree ep k,
  Taichi.struct (channel_dtypes w) = inr ms ->
  index_loop w (field_to_torch zero w ms) [] (nth 2 (shape w) 0)
    = inr (tree, ep) ->
  In k (keys tree) -> In k (keys (channels w)).
Proof.
  intros w ms tree ep k Hs Hi Hk.
  destruct (field_nodup zero w ms) as [ND NDs].
  apply index_loop_ok in Hi; auto.
  destruct Hi as (news & -> & Hok & _); simpl in Hk.
  destruct (tree_ok_runs _ _ _ _ Hok) as (_ & _ & Hkeys & _).
  rewrite Hkeys, field_to_torch_eq in Hk.
  apply comprehend_keys in Hk; destruct Hk as [[]|Hk].
  rewrite (struct_keys _ _ Hs) in Hk.
  unfold channel_dtypes, update in Hk.
  change (In k (keys (DictFacts.comprehend (fun x : pyval => x) []
                        (map (fun kc => (fst kc, Channel.ti_dtype (snd kc)))
                             (channels w))))) in Hk.
  apply comprehend_keys in Hk; destruct Hk as [[]|Hk].
  unfold keys in *; now rewrite map_map in Hk.
Qed.

(** [malloc], stage by stage. *)
Lemma malloc_cases : forall (w : World) uninit,
  malloc zero uninit w =
    match mem w with
    | Some _ => (inl (ValueError AllocTwice), w)
    | None =>
        match Taichi.struct (channel_dtypes w) with
        | inl e => (inl e, w)
        | inr ms =>
            match index_loop w (field_to_torch zero w ms) []
                    (nth 2 (shape w) 0) with
            | inl e => (inl e, w)
            | inr (tree, ep) =>
                match transfer_loop tree
                        (Tensor.empty uninit (firstn 2 (shape w) ++ [ep]))
                        (field_to_torch zero w ms) w with
                | (inl e, w1) => (inl e, w1)
                | (inr (m', _), w1) =>
                    (inr tt,
                     with_indices (Some (Windex.init tree))
                       (with_mem (Some m') w1))
                end
            end
        end
    end.
Proof.
  intros w uninit.
  unfold malloc, _transfer_to_mem, bind, ret, raise, lift, get_self, put_self,
    items.
  destruct (mem w); [reflexivity|].
  destruct (Taichi.struct (channel_dtypes w)) as [e|ms]; [reflexivity|].
  destruct (index_loop w _ [] _) as [e|[tree ep]]; [reflexivity|].
  destruct (transfer_loop tree _ _ w) as [[e|[m' td']] w1]; reflexivity.
Qed.

(** X11. Whether it returns or raises, [malloc] neither adds nor
    removes nor reorders a name of the registry and keeps the shape;
    and when it raises, the world is still unallocated: it has no
    buffer and its resolver is the one of before. *)
Theorem malloc_keeps_registry_names : forall (w : World) uninit,
  let w' := snd (malloc zero uninit w) in
  keys (channels w') = keys (channels w) /\
  shape w' = shape w /\
  (forall e, fst (malloc zero uninit w) = inl e ->
             mem w' = mem w /\ indices w' = indices w).
Proof.
  intros w uninit; rewrite malloc_cases; simpl.
  destruct (mem w) eqn:Em; [simpl; repeat split; auto; congruence|].
  destruct (Taichi.struct (channel_dtypes w)) as [e|ms] eqn:Es;
    [simpl; repeat split; auto|].
  destruct (index_loop w _ [] _) as [e|[tree ep]] eqn:Ei;
    [simpl; repeat split; auto|].
  destruct (transfer_loop tree _ _ w) as [[e|[m' td']] w1] eqn:Et; simpl;
    destruct (frame_transfer_loop _ _ _ _ _ _ Et) as (Hm & Hi & Hsh);
    destruct (touches_transfer_loop _ _ _ _ _ _ Et) as [_ Hk];
    (split; [apply Hk; intros k; eapply tree_keys_registered; eauto|]);
    (split; [exact Hsh|]).
  - intros _ _; rewrite Hm, Hi, Em; auto.
  - intros e; discriminate.
Qed.

(** *** What [malloc] accepts *)

(** Data the layout loops accept: a tensor of two or three
    dimensions, or a dictionary of such tensors. *)
Definition tensor_valid (v : tdata) : Prop :=
  match v with
  | TTensor _ x => 2 <= length (Tensor.shape x) <= 3
  | TDict _ => False
  end.

Definition entry_valid (v : tdata) : Prop :=
  match v with
  | TTensor _ x => 2 <= length (Tensor.shape x) <= 3
  | TDict d => Forall (fun kv => tensor_valid (snd kv)) d
  end.

Lemma subs_ok_valid : forall (w : World) d p subs,
  subs_ok w p d subs -> Forall (fun kv => tensor_valid (snd kv)) d.
Proof.
  intros w d; induction d as [|[k v] d IH]; intros p [|[k' st] subs] H;
    simpl in H; try contradiction; constructor.
  - destruct H as (_ & (dt & x & -> & Hf & _) & _); exact Hf.
  - destruct H as (_ & _ & _ & _ & H); eapply IH; eauto.
Qed.

Lemma tree_ok_valid : forall (w : World) data p tree,
  tree_ok w p data tree -> Forall (fun kv => entry_valid (snd kv)) data.
Proof.
  intros w data; induction data as [|[k v] data IH]; intros p [|[k' ch] tree] H;
    simpl in H; try contradiction; constructor.
  - destruct H as (_ & _ & _ & Hv & _); destruct v as [dt x|d]; simpl.
    + apply Hv.
    + destruct Hv as (subs & _ & Hs); eapply subs_ok_valid; eauto.
  - destruct H as (_ & _ & _ & _ & H); eapply IH; eauto.
Qed.

Lemma struct_In : forall l ms k v,
  Taichi.struct l = inr ms -> In (k, v) l ->
  exists ty, v = PType ty /\ In (k, ty) ms.
Proof.
  induction l as [|[k0 v0] l IH]; intros ms k v H Hin; simpl in *;
    [contradiction|].
  destruct v0; try discriminate.
  destruct (Taichi.struct l) as [e|ms'] eqn:E; [discriminate|].
  injection H as <-.
  destruct Hin as [[= <- <-]|Hin].
  - eexists; split; [reflexivity|now left].
  - destruct (IH _ _ _ eq_refl Hin) as (ty & -> & Hty).
    eexists; split; [reflexivity|now right].
Qed.

(** The types [malloc] can lay out: a scalar, a vector, a matrix of a
    single column (which converts as a vector does), or a group whose
    members (when their names are distinct) are of these three kinds. *)
Definition plain (ty : ti_dtype) : Prop :=
  match ty with
  | TiPrim _ | TiVector _ _ => True
  | TiMatrix _ m _ => m = 1
  | TiStruct _ => False
  end.

Definition allocatable (ty : ti_dtype) : Prop :=
  match ty with
  | TiPrim _ | TiVector _ _ => True
  | TiMatrix _ m _ => m = 1
  | TiStruct ms => NoDup (keys ms) -> forall k ty', In (k, ty') ms -> plain ty'
  end.

Lemma matrix_valid : forall (n m : nat),
  length (if Nat.eqb m 1 then [n] else [n; m]) <= 1 -> m = 1.
Proof.
  intros n m H; destruct (Nat.eqb m 1) eqn:E.
  - now apply Nat.eqb_eq.
  - simpl in H; lia.
Qed.

Lemma to_torch_valid : forall gw gh ty,
  tensor_valid (to_torch zero [gw; gh] ty) -> plain ty.
Proof.
  intros gw gh [p|n p|n m p|ms]; simpl; auto.
  intros H; apply (matrix_valid n); lia.
Qed.

Lemma to_torch_allocatable : forall gw gh ty,
  entry_valid (to_torch zero [gw; gh] ty) -> allocatable ty.
Proof.
  intros gw gh [p|n p|n m p|ms] H; simpl in *; auto;
    [apply (matrix_valid n); lia|].
  intros ND k ty' Hin.
  change (fold_left _ ms []) with
    (DictFacts.comprehend (to_torch zero [gw; gh]) [] ms) in H.
  rewrite DictFacts.comprehend_fresh in H; [|exact ND|intros ? ? []].
  simpl in H; rewrite Forall_forall in H.
  apply (to_torch_valid gw gh).
  apply (H (k, to_torch zero [gw; gh] ty')).
  change (k, to_torch zero [gw; gh] ty')
    with ((fun kv : string * ti_dtype =>
             (fst kv, to_torch zero [gw; gh] (snd kv))) (k, ty')).
  now apply in_map.
Qed.

(** X12. [malloc] only succeeds on registries it can lay out: if it
    returned, every registered channel has a taichi type that is a
    scalar, a vector, a matrix of a single column, or a group of
    these; never a matrix of several columns, whose data has four
    dimensions, and never a group inside a group. *)
Theorem malloc_accepts_only : forall (w : World) uninit w' gw gh p0 k c,
  NoDup (keys (channels w)) ->
  shape w = [gw; gh; p0] ->
  malloc zero uninit w = (inr tt, w') ->
  In (k, c) (channels w) ->
  exists ty, Channel.ti_dtype c = PType ty /\ allocatable ty.
Proof.
  intros w uninit w' gw gh p0 k c ND Hsh H Hin.
  apply malloc_inv in H.
  destruct H as (ms & tree & ep & m' & td' & w1 & _ & Hs & Hi & _).
  destruct (field_nodup zero w ms) as [NDd NDs].
  apply index_loop_ok in Hi; auto.
  destruct Hi as (news & _ & Hok & _).
  apply tree_ok_valid in Hok; rewrite Forall_forall in Hok.
  assert (Hk : keys (channel_dtypes w) = keys (channels w)).
  { unfold channel_dtypes; rewrite DictFacts.update_fresh;
      unfold keys; rewrite map_map; simpl; auto. }
  assert (Hin' : In (k, Channel.ti_dtype c) (channel_dtypes w)).
  { unfold channel_dtypes; rewrite DictFacts.update_fresh.
    - change (k, Channel.ti_dtype c)
        with ((fun kc : string * Channel.t =>
                 (fst kc, Channel.ti_dtype (snd kc))) (k, c)).
      now apply in_map.
    - unfold keys; rewrite map_map; simpl; auto. }
  destruct (struct_In _ _ _ _ Hs Hin') as (ty & Hty & Hms).
  exists ty; split; [exact Hty|].
  apply (to_torch_allocatable gw gh).
  rewrite field_to_torch_eq, Hsh in Hok; simpl firstn in Hok.
  rewrite DictFacts.comprehend_fresh in Hok.
  - apply (Hok (k, to_torch zero [gw; gh] ty)); simpl.
    change (k, to_torch zero [gw; gh] ty)
      with ((fun kv : string * ti_dtype =>
               (fst kv, to_torch zero [gw; gh] (snd kv))) (k, ty)).
    now apply in_map.
  - rewrite (struct_keys _ _ Hs), Hk; exact ND.
  - intros ? ? [].
Qed.

(** *** The descriptors after [malloc] *)

(** What [link_to_mem] stores for a list of indices: the index itself
    when there is one, the array otherwise. *)
Definition as_cindices (inds : list nat) : Channel.cindices :=
  match inds with
  | [i] => Channel.IdxScalar i
  | _ => Channel.IdxArray inds
  end.

(** The descriptor [c0] once it is linked to the buffer with these
    indices. *)
Definition linked (inds : list nat) (c0 : Channel.t) : Channel.t :=
  Channel.mk (Channel.id c0) (Channel.lims c0) (Channel.ti_dtype c0)
             true (Some (as_cindices inds)) (Channel.metadata c0).

(** The address of the dictionary of the descriptor registered under
    a name. *)
Definition md_of (w : World) (k : string) : option Channel.addr :=
  option_map Channel.metadata (get k (channels w)).

Lemma on_heap_ok : forall {A} (m : Exc.M Channel.heap A) (w : World) a w',
  on_heap m w = (inr a, w') ->
  exists h', m (heap w) = (inr a, h') /\ w' = with_heap h' w.
Proof.
  intros A m w a w' H; unfold on_heap in H.
  destruct (m (heap w)) as [r h']; injection H as -> <-; eauto.
Qed.

Lemma get_channel_ok : forall chid (w : World) c w',
  get_channel chid w = (inr c, w') ->
  get chid (channels w) = Some c /\ w' = w.
Proof.
  intros chid w c w' H; unfold get_channel, bind, get_self, ret, raise in H.
  destruct (get chid (channels w)); [|discriminate].
  now injection H as -> ->.
Qed.

Lemma put_channel_ok : forall chid c (w : World) r w',
  put_channel chid c w = (r, w') ->
  w' = with_channels (set chid c (channels w)) w.
Proof.
  intros chid c w r w' H.
  unfold put_channel, bind, get_self, put_self in H; now injection H as _ <-.
Qed.

(** Linking a sub-channel writes the dictionary of the sub-channel
    and the one of its parent. *)
Lemma link_sub_heap : forall chid subchid inds (w : World) w' c sc,
  link_sub chid subchid inds w = (inr tt, w') ->
  get chid (channels w) = Some c ->
  Channel.getitem subchid c (heap w) = Some (Channel.MdChannel sc) ->
  channels w' = channels w /\
  (forall a, a <> Channel.metadata c -> a <> Channel.metadata sc ->
             Channel.deref a (heap w') = Channel.deref a (heap w)).
Proof.
  intros chid subchid inds w w' c sc H Hc Hsc; unfold link_sub in H.
  apply bind_ok in H; destruct H as (c1 & w1 & H0 & H).
  apply get_channel_ok in H0; destruct H0 as [Hc1 ->].
  assert (c1 = c) by congruence; subst c1.
  apply bind_ok in H; destruct H as (v & w1 & H0 & H).
  unfold gets in H0; injection H0 as <- <-; rewrite Hsc in H.
  apply bind_ok in H; destruct H as (sc1 & w1 & H0 & H).
  apply on_heap_ok in H0; destruct H0 as (h1 & H0 & ->).
  apply HeapFacts.link_to_mem_effect in H0; destruct H0 as (_ & _ & F1).
  apply on_heap_ok in H; destruct H as (h2 & H & ->).
  apply HeapFacts.dict_setitem_effect in H; destruct H as (_ & _ & _ & F2).
  split; [reflexivity|].
  intros a Ha Hs; simpl in *; rewrite F2, F1; auto.
Qed.

(** The inner loop of the transfer leaves the registry alone, and
    writes no dictionary that was in the store, that of its channel
    apart. *)
Lemma transfer_subs_heap : forall chid subs m td (w : World) res w' c,
  transfer_subs chid subs m td w = (inr res, w') ->
  get chid (channels w) = Some c ->
  channels w' = channels w /\
  (forall a, Channel.deref a (heap w) <> None -> a <> Channel.metadata c ->
             Channel.deref a (heap w') = Channel.deref a (heap w)).
Proof.
  intros chid subs; induction subs as [|[subchid st] subs IH];
    intros m td w res w' c H Hc; simpl in H.
  - unfold ret in H; injection H as _ <-; auto.
  - apply bind_ok in H; destruct H as ([[d dt] x] & w0 & H0 & H).
    apply lift_ok in H0; destruct H0 as [_ ->].
    apply bind_ok in H; destruct H as ([] & w0 & H0 & H).
    assert (w0 = w) as ->.
    { unfold check_sub_dtype, bind, get_self, ret, raise in H0.
      destruct (String.eqb dt (torch_dtype w)); now injection H0. }
    clear H0.
    apply bind_ok in H; destruct H as (m1 & w0 & H0 & H).
    apply lift_ok in H0; destruct H0 as [_ ->].
    apply bind_ok in H; destruct H as (c1 & w0 & H0 & H).
    apply get_channel_ok in H0; destruct H0 as [Hc1 ->].
    assert (c1 = c) by congruence; subst c1.
    apply bind_ok in H; destruct H as (subch & w1 & H0 & H).
    apply on_heap_ok in H0; destruct H0 as (h1 & H0 & ->).
    apply HeapFacts.add_subchannel_returns in H0.
    destruct H0 as (Hfresh & Hsub & F1).
    apply bind_ok in H; destruct H as ([] & w2 & H0 & H).
    destruct (link_sub_heap _ _ _ _ _ c subch H0 Hc Hsub) as [Hch2 F2].
    simpl in Hch2, F2.
    apply (IH _ _ _ _ _ c) in H; [|now rewrite Hch2].
    destruct H as [Hch' F'].
    split; [now rewrite Hch', Hch2|].
    intros a Ha Hne.
    assert (Hf : a <> Channel.fresh (heap w))
      by now apply HeapFacts.allocated_not_fresh.
    assert (E2 : Channel.deref a (heap w2) = Channel.deref a (heap w)).
    { rewrite F2 by (rewrite ?Hfresh; auto); now apply F1. }
    rewrite F' by (rewrite ?E2; auto); exact E2.
Qed.

(** Linking the descriptor registered under a name: what the three
    steps that end a turn of the outer loop leave. *)
Lemma relink_ok : forall chid inds (k : Channel.t -> M (Tensor * dict tdata))
    (w : World) res w',
  (c <- get_channel chid ;;
   c <- on_heap (Channel.link_to_mem inds c) ;;
   put_channel chid c ;; k c)%exc w = (inr res, w') ->
  exists c0 w2,
    get chid (channels w) = Some c0 /\
    k (linked inds c0) w2 = (inr res, w') /\
    channels w2 = set chid (linked inds c0) (channels w) /\
    Channel.getitem "indices" (linked inds c0) (heap w2)
      = Some (Channel.MdIndices (as_cindices inds)) /\
    (forall a, a <> Channel.metadata c0 ->
               Channel.deref a (heap w2) = Channel.deref a (heap w)).
Proof.
  intros chid inds k w res w' H.
  apply bind_ok in H; destruct H as (c0 & w0 & H0 & H).
  apply get_channel_ok in H0; destruct H0 as [Hc0 ->].
  apply bind_ok in H; destruct H as (c1 & w1 & H0 & H).
  apply on_heap_ok in H0; destruct H0 as (h1 & H0 & ->).
  apply HeapFacts.link_to_mem_effect in H0; destruct H0 as (-> & G & F).
  apply bind_ok in H; destruct H as ([] & w2 & H0 & H).
  apply put_channel_ok in H0; subst w2.
  exists c0; eexists; split; [exact Hc0|]. split; [exact H|].
  split; [reflexivity|]. split; [exact G|exact F].
Qed.

Lemma md_of_set_linked : forall (w w2 : World) chid inds c0,
  get chid (channels w) = Some c0 ->
  channels w2 = set chid (linked inds c0) (channels w) ->
  forall k, md_of w2 k = md_of w k.
Proof.
  intros w w2 chid inds c0 Hc0 Hch k; unfold md_of.
  rewrite Hch, DictFacts.get_set.
  destruct (String.eqb k chid) eqn:E; [|reflexivity].
  apply String.eqb_eq in E; subst k; now rewrite Hc0.
Qed.

(** The transfer keeps every descriptor with its dictionary, and
    writes no dictionary that was in the store, those of the channels
    of the tree apart. *)
Lemma transfer_loop_heap : forall tree m td (w : World) res w',
  transfer_loop tree m td w = (inr res, w') ->
  (forall k, md_of w' k = md_of w k) /\
  (forall a, Channel.deref a (heap w) <> None ->
             (forall k, In k (keys tree) -> md_of w k <> Some a) ->
             Channel.deref a (heap w') = Channel.deref a (heap w)).
Proof.
  intros tree; induction tree as [|[chid ch] tree IH];
    intros m td w res w' H; simpl in H.
  - unfold ret in H; injection H as _ <-; auto.
  - assert (Hturn : forall (w1 : World) m1 td1,
              channels w1 = channels w ->
              (forall c, get chid (channels w) = Some c ->
                 forall a, Channel.deref a (heap w) <> None ->
                           a <> Channel.metadata c ->
                           Channel.deref a (heap w1) = Channel.deref a (heap w)) ->
              (c <- get_channel chid ;;
               c <- on_heap (Channel.link_to_mem (Windex.indices ch) c) ;;
               put_channel chid c ;; transfer_loop tree m1 td1)%exc w1
                = (inr res, w') ->
              (forall k, md_of w' k = md_of w k) /\
              (forall a, Channel.deref a (heap w) <> None ->
                 (forall k, In k (keys ((chid, ch) :: tree)) -> md_of w k <> Some a) ->
                 Channel.deref a (heap w') = Channel.deref a (heap w))).
    { intros w1 m1 td1 Hch1 F1 H1.
      apply (relink_ok chid (Windex.indices ch)
               (fun _ => transfer_loop tree m1 td1)) in H1.
      destruct H1 as (c0 & w2 & Hc0 & Hl & Hch2 & _ & F2).
      rewrite Hch1 in Hc0, Hch2.
      pose proof (md_of_set_linked w w2 chid _ c0 Hc0 Hch2) as Hmd.
      destruct (IH _ _ _ _ _ Hl) as [Hmd' F'].
      split; [intros k; now rewrite Hmd', Hmd|].
      intros a Ha Hk.
      assert (Hne : a <> Channel.metadata c0).
      { intros ->; apply (Hk chid); [now left|].
        unfold md_of; now rewrite Hc0. }
      assert (E2 : Channel.deref a (heap w2) = Channel.deref a (heap w)).
      { rewrite F2 by exact Hne; now apply (F1 c0). }
      rewrite F'; [exact E2|now rewrite E2|].
      intros k Hin; rewrite Hmd; apply Hk; now right. }
    destruct (Windex.subchannels ch) as [subs|].
    + apply bind_ok in H; destruct H as ([m1 td1] & w1 & H0 & H).
      destruct (get chid (channels w)) as [c|] eqn:Hc.
      * destruct (transfer_subs_heap _ _ _ _ _ _ _ c H0 Hc) as [Hch1 F1].
        apply (Hturn w1 m1 td1); auto.
        intros c' [= <-]; exact F1.
      * (* no descriptor: the turn cannot end *)
        assert (Hch1 : channels w1 = channels w)
          by (eapply touches_channels; eauto).
        apply bind_ok in H; destruct H as (c & w2 & H1 & _).
        apply get_channel_ok in H1; destruct H1 as [H1 _].
        rewrite Hch1, Hc in H1; discriminate.
    + apply bind_ok in H; destruct H as ([dt x] & w0 & H0 & H).
      apply lift_ok in H0; destruct H0 as [_ ->].
      apply bind_ok in H; destruct H as (m1 & w0 & H0 & H).
      apply lift_ok in H0; destruct H0 as [_ ->].
      eapply (Hturn w); [reflexivity| |exact H]; auto.
Qed.

(** The descriptor of a channel of the tree after the transfer. *)
Lemma transfer_loop_links : forall tree m td (w : World) res w',
  transfer_loop tree m td w = (inr res, w') ->
  NoDup (keys tree) ->
  forall chid ch, In (chid, ch) tree ->
    exists c0,
      get chid (channels w) = Some c0 /\
      get chid (channels w') = Some (linked (Windex.indices ch) c0) /\
      ((forall k, In k (keys tree) -> k <> chid ->
                  md_of w k <> Some (Channel.metadata c0)) ->
       Channel.getitem "indices" (linked (Windex.indices ch) c0) (heap w')
         = Some (Channel.MdIndices (as_cindices (Windex.indices ch)))).
Proof.
  intros tree; induction tree as [|[chid0 ch0] tree IH];
    intros m td w res w' H ND chid ch Hin; [destruct Hin|].
  inversion ND as [|? ? Hn ND']; subst.
  simpl in H.
  assert (Hturn : forall (w1 : World) m1 td1,
            channels w1 = channels w ->
            (c <- get_channel chid0 ;;
             c <- on_heap (Channel.link_to_mem (Windex.indices ch0) c) ;;
             put_channel chid0 c ;; transfer_loop tree m1 td1)%exc w1
              = (inr res, w') ->
            exists c0,
              get chid (channels w) = Some c0 /\
              get chid (channels w') = Some (linked (Windex.indices ch) c0) /\
              ((forall k, In k (keys ((chid0, ch0) :: tree)) -> k <> chid ->
                          md_of w k <> Some (Channel.metadata c0)) ->
               Channel.getitem "indices" (linked (Windex.indices ch) c0) (heap w')
                 = Some (Channel.MdIndices (as_cindices (Windex.indices ch))))).
  { intros w1 m1 td1 Hch1 H1.
    apply (relink_ok chid0 (Windex.indices ch0)
             (fun _ => transfer_loop tree m1 td1)) in H1.
    destruct H1 as (c0 & w2 & Hc0 & Hl & Hch2 & G & F2).
    rewrite Hch1 in Hc0, Hch2.
    pose proof (md_of_set_linked w w2 chid0 _ c0 Hc0 Hch2) as Hmd.
    destruct Hin as [[= <- <-]|Hin].
    - (* the channel of this turn *)
      exists c0; split; [exact Hc0|].
      destruct (touches_transfer_loop _ _ _ _ _ _ Hl) as [Hget _].
      destruct (transfer_loop_heap _ _ _ _ _ _ Hl) as [_ F'].
      split.
      + rewrite (Hget chid0 Hn), Hch2; apply DictFacts.get_set_eq.
      + intros Hun; unfold Channel.getitem, Channel.contents in *; simpl in *.
        rewrite F'; [exact G| |].
        * destruct (Channel.deref (Channel.metadata c0) (heap w2));
            [discriminate|discriminate].
        * intros k Hk; rewrite Hmd; apply Hun; [now right|].
          intros ->; contradiction.
    - (* a channel of a later turn *)
      destruct (IH _ _ _ _ _ Hl ND' chid ch Hin) as (c1 & Hc1 & Hc' & Hmdp).
      assert (Hne : chid <> chid0).
      { intros ->; apply Hn.
        unfold keys; change chid0 with (fst (chid0, ch)); now apply in_map. }
      rewrite Hch2, DictFacts.get_set_neq in Hc1 by exact Hne.
      exists c1; split; [exact Hc1|]. split; [exact Hc'|].
      intros Hun; apply Hmdp.
      intros k Hk Hkc; rewrite Hmd; apply Hun; [now right|exact Hkc]. }
  destruct (Windex.subchannels ch0) as [subs|].
  - apply bind_ok in H; destruct H as ([m1 td1] & w1 & H0 & H).
    apply touches_channels in H0.
    now apply (Hturn w1 m1 td1).
  - apply bind_ok in H; destruct H as ([dt x] & w0 & H0 & H).
    apply lift_ok in H0; destruct H0 as [_ ->].
    apply bind_ok in H; destruct H as (m1 & w0 & H0 & H).
    apply lift_ok in H0; destruct H0 as [_ ->].
    eapply (Hturn w); [reflexivity|exact H].
Qed.

(** X13. After a successful [malloc], every channel of the index tree
    has in the registry the descriptor it had, now linked to the
    buffer and with the channel's indices stored as [link_to_mem]
    stores them (the single index itself when the channel has depth 1,
    the array otherwise).  The same indices are under ['indices'] in
    its metadata dictionary, provided no other registered channel
    holds that dictionary: a shared one keeps what the last channel
    wrote. *)
Theorem descriptors_linked_after_malloc : forall (w : World) uninit w' wi chid ch,
  malloc zero uninit w = (inr tt, w') ->
  indices w' = Some wi ->
  get chid (Windex.index_tree wi) = Some ch ->
  exists c0,
    get chid (channels w) = Some c0 /\
    get chid (channels w') = Some (linked (Windex.indices ch) c0) /\
    ((forall k c1, k <> chid -> get k (channels w) = Some c1 ->
                   Channel.metadata c1 <> Channel.metadata c0) ->
     Channel.getitem "indices" (linked (Windex.indices ch) c0) (heap w')
       = Some (Channel.MdIndices (as_cindices (Windex.indices ch)))).
Proof.
  intros w uninit w' wi chid ch H Hwi Hc.
  rewrite malloc_cases in H.
  destruct (mem w); [discriminate|].
  destruct (Taichi.struct (channel_dtypes w)) as [e|ms]; [discriminate|].
  destruct (index_loop w _ [] _) as [e|[tree ep]] eqn:Ei; [discriminate|].
  destruct (transfer_loop tree _ _ w) as [[e|[m' td']] w1] eqn:Et;
    [discriminate|].
  injection H as <-; simpl in *; injection Hwi as <-; simpl in Hc.
  destruct (field_nodup zero w ms) as [ND NDs].
  apply index_loop_ok in Ei; auto.
  destruct Ei as (news & -> & Hok & _); simpl in *.
  destruct (tree_ok_runs _ _ _ _ Hok) as (_ & _ & Hkeys & _).
  destruct (transfer_loop_links _ _ _ _ _ _ Et) with (chid := chid) (ch := ch)
    as (c0 & Hc0 & Hc' & Hmd).
  - now rewrite Hkeys.
  - now apply DictFacts.get_In.
  - exists c0; split; [exact Hc0|]. split; [exact Hc'|].
    intros Hun; apply Hmd.
    intros k _ Hk; unfold md_of.
    destruct (get k (channels w)) as [c1|] eqn:E1; [|discriminate].
    simpl; intros [= E]; now apply (Hun k c1).
Qed.

(** *** The dtype of the members of a group *)

(** The dtype of the tensor of a sub-channel in the field data. *)
Definition sub_dtype (td : dict tdata) (chid sk : string) : option string :=
  match get chid td with
  | Some (TDict d) =>
      match get sk d with
      | Some (TTensor dt _) => Some dt
      | _ => None
      end
  | _ => None
  end.

Lemma sub_dtype_set_sub : forall (td : dict tdata) chid subchid d dt x x',
  td_sub td chid subchid = inr (d, dt, x) ->
  forall c s,
    sub_dtype (set chid (TDict (set subchid (TTensor dt x') d)) td) c s
    = sub_dtype td c s.
Proof.
  intros td chid subchid d dt x x' H c s.
  apply td_sub_ok in H; destruct H as [Hd Hx].
  unfold sub_dtype; rewrite DictFacts.get_set.
  destruct (String.eqb c chid) eqn:E; [|reflexivity].
  apply String.eqb_eq in E; subst c; rewrite Hd, DictFacts.get_set.
  destruct (String.eqb s subchid) eqn:E'; [|reflexivity].
  apply String.eqb_eq in E'; subst s; now rewrite Hx.
Qed.

Lemma sub_dtype_set_top : forall (td : dict tdata) chid dt x x',
  td_top td chid = inr (dt, x) ->
  forall c s, sub_dtype (set chid (TTensor dt x') td) c s = sub_dtype td c s.
Proof.
  intros td chid dt x x' H c s.
  apply td_top_ok in H.
  unfold sub_dtype; rewrite DictFacts.get_set.
  destruct (String.eqb c chid) eqn:E; [|reflexivity].
  apply String.eqb_eq in E; subst c; now rewrite H.
Qed.

Lemma check_sub_dtype_ok : forall dt (w : World) w',
  check_sub_dtype dt w = (inr tt, w') -> dt = torch_dtype w /\ w' = w.
Proof.
  intros dt w w' H; unfold check_sub_dtype, bind, get_self, ret, raise in H.
  destruct (String.eqb dt (torch_dtype w)) eqn:E; [|discriminate].
  apply String.eqb_eq in E; now injection H as <-.
Qed.

Lemma transfer_subs_dtypes : forall chid subs m td (w : World) res w',
  transfer_subs chid subs m td w = (inr res, w') ->
  (forall c s, sub_dtype (snd res) c s = sub_dtype td c s) /\
  (forall sk st, In (sk, st) subs ->
                 sub_dtype td chid sk = Some (torch_dtype w)).
Proof.
  intros chid subs; induction subs as [|[subchid st] subs IH];
    intros m td w res w' H; simpl in H.
  - unfold ret in H; injection H as <- _; simpl; split; [auto|intros ? ? []].
  - apply bind_ok in H; destruct H as ([[d dt] x] & w0 & H0 & H).
    apply lift_ok in H0; destruct H0 as [Hd ->].
    apply bind_ok in H; destruct H as ([] & w0 & H0 & H).
    apply check_sub_dtype_ok in H0; destruct H0 as [-> ->].
    apply bind_ok in H; destruct H as (m1 & w0 & H0 & H).
    apply lift_ok in H0; destruct H0 as [_ ->].
    apply bind_ok in H; destruct H as (c & w0 & H0 & H).
    apply get_channel_ok in H0; destruct H0 as [_ ->].
    apply bind_ok in H; destruct H as (sc & w1 & H0 & H).
    apply (keeps_on_heap torch_dtype _ (fun _ _ => eq_refl)) in H0.
    apply bind_ok in H; destruct H as ([] & w2 & H1 & H).
    apply (keeps_link_sub torch_dtype _ _ _ (fun _ _ => eq_refl)) in H1.
    apply IH in H; destruct H as [Hinv Hall].
    pose proof (sub_dtype_set_sub _ _ _ _ _ _ (unsqueeze_2d x) Hd) as Hset.
    split.
    + intros c' s; now rewrite Hinv, Hset.
    + intros sk st' [[= <- <-]|Hin].
      * apply td_sub_ok in Hd; destruct Hd as [Hgd Hgx].
        unfold sub_dtype; now rewrite Hgd, Hgx.
      * rewrite <- Hset, (Hall _ _ Hin); congruence.
Qed.

Lemma transfer_loop_dtypes : forall tree m td (w : World) res w',
  transfer_loop tree m td w = (inr res, w') ->
  forall chid ch subs sk st,
    In (chid, ch) tree ->
    Windex.subchannels ch = Some subs ->
    In (sk, st) subs ->
    sub_dtype td chid sk = Some (torch_dtype w).
Proof.
  intros tree; induction tree as [|[chid0 ch0] tree IH];
    intros m td w res w' H chid ch subs sk st Hin Hs Hsk; [destruct Hin|].
  simpl in H.
  assert (Hrest : forall (w1 : World) m1 td1,
            torch_dtype w1 = torch_dtype w ->
            (forall c s, sub_dtype td1 c s = sub_dtype td c s) ->
            (c <- get_channel chid0 ;;
             c <- on_heap (Channel.link_to_mem (Windex.indices ch0) c) ;;
             put_channel chid0 c ;; transfer_loop tree m1 td1)%exc w1
              = (inr res, w') ->
            In (chid, ch) tree ->
            sub_dtype td chid sk = Some (torch_dtype w)).
  { intros w1 m1 td1 Hdt Hinv H1 Hin'.
    apply bind_ok in H1; destruct H1 as (c & w0 & H0 & H1).
    apply get_channel_ok in H0; destruct H0 as [_ ->].
    apply bind_ok in H1; destruct H1 as (c1 & w2 & H0 & H1).
    apply (keeps_on_heap torch_dtype _ (fun _ _ => eq_refl)) in H0.
    apply bind_ok in H1; destruct H1 as ([] & w3 & H2 & H1).
    apply put_channel_ok in H2; subst w3.
    rewrite <- Hinv, (IH _ _ _ _ _ H1 _ _ _ _ _ Hin' Hs Hsk); simpl.
    congruence. }
  destruct (Windex.subchannels ch0) as [subs0|] eqn:Es0.
  - apply bind_ok in H; destruct H as ([m1 td1] & w1 & H0 & H).
    pose proof (keeps_transfer_subs torch_dtype _ _ _ _
                  (fun _ _ => eq_refl) _ _ _ H0) as Hdt.
    apply transfer_subs_dtypes in H0; destruct H0 as [Hinv Hall]; simpl in Hinv.
    destruct Hin as [[= <- <-]|Hin].
    + rewrite Es0 in Hs; injection Hs as <-; unfold items in Hall; eauto.
    + eapply Hrest; eauto.
  - apply bind_ok in H; destruct H as ([dt x] & w0 & H0 & H).
    apply lift_ok in H0; destruct H0 as [Ht ->].
    apply bind_ok in H; destruct H as (m1 & w0 & H0 & H).
    apply lift_ok in H0; destruct H0 as [_ ->].
    destruct Hin as [[= <- <-]|Hin]; [congruence|].
    eapply (Hrest w); [reflexivity| |exact H|exact Hin].
    exact (sub_dtype_set_top _ _ _ _ _ Ht).
Qed.

(** The tree has, for a group of the data, an entry with the group's
    own sub-names. *)
Lemma tree_ok_has_group : forall (w : World) data p tree k d,
  tree_ok w p data tree ->
  In (k, TDict d) data ->
  exists ch subs,
    In (k, ch) tree /\ Windex.subchannels ch = Some subs /\
    keys subs = keys d.
Proof.
  intros w data; induction data as [|[k0 v0] data IH];
    intros p [|[k' ch'] tree] k d H Hin; simpl in H; try contradiction.
  destruct H as (<- & _ & _ & Hv & H).
  destruct Hin as [[= -> ->]|Hin].
  - destruct Hv as (subs & Hs & Hok).
    destruct (subs_ok_runs _ _ _ _ Hok) as (_ & _ & Hk & _).
    exists ch', subs; split; [now left|auto].
  - destruct (IH _ _ _ _ H Hin) as (ch & subs & Hi & Hs & Hk).
    exists ch, subs; split; [now right|auto].
Qed.

(** X15. [malloc] only returns when the members of every group have
    the dtype of the world: the dtype test of a sub-channel that
    differs does not get to warn, since its message reads the dtype of
    the group's dictionary, and [malloc] raises. *)
Theorem group_members_have_world_dtype :
  forall (w : World) uninit w' data k d sk dt x,
  malloc zero uninit w = (inr tt, w') ->
  registered_data zero w = inr data ->
  In (k, TDict d) data ->
  In (sk, TTensor dt x) d ->
  dt = torch_dtype w.
Proof.
  intros w uninit w' data k d sk dt x H Hdata Hk Hsk.
  rewrite malloc_cases in H.
  destruct (mem w); [discriminate|].
  unfold registered_data in Hdata.
  destruct (Taichi.struct (channel_dtypes w)) as [e|ms]; [discriminate|].
  injection Hdata as <-.
  destruct (index_loop w _ [] _) as [e|[tree ep]] eqn:Ei; [discriminate|].
  destruct (transfer_loop tree _ _ w) as [[e|[m' td']] w1] eqn:Et;
    [discriminate|].
  destruct (field_nodup zero w ms) as [ND NDs].
  apply index_loop_ok in Ei; auto.
  destruct Ei as (news & -> & Hok & _); simpl in *.
  destruct (tree_ok_has_group _ _ _ _ _ _ Hok Hk) as (ch & subs & Hi & Hs & Hkeys).
  assert (Hin : exists st, In (sk, st) subs).
  { assert (Hsk' : In sk (keys subs)).
    { rewrite Hkeys; unfold keys.
      change sk with (fst (sk, TTensor dt x)); now apply in_map. }
    unfold keys in Hsk'; apply in_map_iff in Hsk'.
    destruct Hsk' as ([sk' st] & <- & Hin); eauto. }
  destruct Hin as [st Hin].
  pose proof (transfer_loop_dtypes _ _ _ _ _ _ Et _ _ _ _ _ Hi Hs Hin) as Hd.
  unfold sub_dtype in Hd.
  rewrite (DictFacts.In_get _ _ _ ND Hk) in Hd.
  rewrite (DictFacts.In_get _ _ _ (NDs _ _ Hk) Hsk) in Hd.
  congruence.
Qed.

End Elt.

(** A registry with a matrix channel: [{"a": ti.f32, "m": matrix(2, 2)}]. *)
Definition with_matrix : World.t Z :=
  snd (add_channels
         [("a", PType (TiPrim f32)); ("m", PType (TiMatrix 2 2 f32))]
         Scenario.fresh).

(** X11, witness: [malloc] raises on the matrix channel and the world
    is still unallocated. *)
Lemma malloc_keeps_registry_names_witness :
  fst (malloc 0%Z Scenario.uninit with_matrix) = inl (ValueError ShapeNot2or3) /\
  keys (channels (snd (malloc 0%Z Scenario.uninit with_matrix))) = ["a"; "m"] /\
  mem (snd (malloc 0%Z Scenario.uninit with_matrix)) = None /\
  indices (snd (malloc 0%Z Scenario.uninit with_matrix)) = None.
Proof.
  destruct (malloc_keeps_registry_names 0%Z with_matrix Scenario.uninit)
    as (Hk & _ & Hf).
  destruct (Hf (ValueError ShapeNot2or3) eq_refl) as [Hm Hi].
  split; [reflexivity|].
  split; [exact Hk|].
  split; [exact Hm|exact Hi].
Defined.

(** A registry with a matrix of a single column:
    [{"a": ti.f32, "m": matrix(3, 1)}]. *)
Definition with_column : World.t Z :=
  snd (add_channels
         [("a", PType (TiPrim f32)); ("m", PType (TiMatrix 3 1 f32))]
         Scenario.fresh).

(** X12, witness: the matrix of a single column is laid out. *)
Lemma malloc_accepts_only_witness :
  exists ty, PType (TiMatrix 3 1 f32) = PType ty /\ allocatable ty.
Proof.
  apply (malloc_accepts_only 0%Z with_column Scenario.uninit
           (snd (malloc 0%Z Scenario.uninit with_column)) 4 4 0 "m"
           (Channel.mk "m" Channel.default_lims (PType (TiMatrix 3 1 f32))
              false None (Channel.Unnamed 2))).
  - repeat constructor; simpl; intuition discriminate.
  - vm_compute; reflexivity.
  - vm_compute; reflexivity.
  - right; left; vm_compute; reflexivity.
Defined.

(** X13, witness: [a] (depth 1) in the scenario. *)
Lemma descriptors_linked_after_malloc_witness :
  exists c0,
    get "a" (channels Scenario.registered) = Some c0 /\
    get "a" (channels Scenario.allocated) = Some (linked [0] c0) /\
    ((forall k c1, k <> "a" -> get k (channels Scenario.registered) = Some c1 ->
                   Channel.metadata c1 <> Channel.metadata c0) ->
     Channel.getitem "indices" (linked [0] c0) (heap Scenario.allocated)
       = Some (Channel.MdIndices (as_cindices [0]))).
Proof.
  apply (descriptors_linked_after_malloc 0%Z Scenario.registered
           Scenario.uninit Scenario.allocated Resolver.scenario_index "a"
           (Windex.mkCh None [0] (TiFieldI32 [0]))); vm_compute; reflexivity.
Defined.

(** X15, witness: the members of [b] in the scenario are float32, as
    the world is. *)
Lemma group_members_have_world_dtype_witness :
  "float32" = torch_dtype Scenario.registered.
Proof.
  apply (group_members_have_world_dtype 0%Z Scenario.registered
           Scenario.uninit Scenario.allocated
           (field_to_torch 0%Z Scenario.registered
              [("a", TiPrim f32);
               ("b", TiStruct [("x", TiVector 2 f32); ("y", TiVector 1 f32)])])
           "b"
           [("x", TTensor "float32" (Tensor.zeros 0%Z [4; 4; 2]));
            ("y", TTensor "float32" (Tensor.zeros 0%Z [4; 4; 1]))]
           "y" "float32" (Tensor.zeros 0%Z [4; 4; 1])).
  - vm_compute; reflexivity.
  - vm_compute; reflexivity.
  - right; left; vm_compute; reflexivity.
  - right; left; reflexivity.
Defined.

(** A group with an integer member in a float32 world,
    [{"g": struct(x=ti.i32)}]: [malloc] raises, and the world stays
    unallocated. *)
Definition mixed_group : World.t Z :=
  snd (add_channels [("g", PType (TiStruct [("x", TiPrim i32)]))]
         Scenario.fresh).

Example mixed_group_is_refused :
  fst (malloc 0%Z Scenario.uninit mixed_group) = inl AttributeError /\
  mem (snd (malloc 0%Z Scenario.uninit mixed_group)) = None.
Proof. vm_compute; split; reflexivity. Qed.

(** Two channels registered with one dictionary,
    [md = {}; {"a": {"metadata": md}, "b": {"metadata": md}}]: after
    [malloc] each descriptor has its own indices, and the dictionary,
    which both hold, has those of [b], written last. *)
Definition sharing : World.t Z :=
  snd (add_channels
         [("a", PDict [("metadata", PObj 7 [])]);
          ("b", PDict [("metadata", PObj 7 [])])]
         Scenario.fresh).

Example shared_dictionary_keeps_last_indices :
  let w' := snd (malloc 0%Z Scenario.uninit sharing) in
  fst (malloc 0%Z Scenario.uninit sharing) = inr tt /\
  option_map Channel.indices (get "a" (channels w'))
    = Some (Some (Channel.IdxScalar 0)) /\
  option_map Channel.indices (get "b" (channels w'))
    = Some (Some (Channel.IdxScalar 1)) /\
  option_map (fun c => Channel.getitem "indices" c (heap w'))
             (get "a" (channels w'))
    = Some (Some (Channel.MdIndices (Channel.IdxScalar 1))) /\
  option_map (fun c => Channel.getitem "id" c (heap w'))
             (get "a" (channels w'))
    = Some (Some (Channel.MdPy (PStr "b"))).
Proof. vm_compute; repeat split; reflexivity. Qed.

End AllocationFacts.
